(** * rt_weekend_rust: a sphere path tracer, embedded and verified

    The Rust sources are embedded function by function: [vec3.rs],
    [ray.rs], [interval.rs], [hittable.rs], [sphere.rs],
    [hittable_list.rs], [material.rs], [color.rs], [rtweekend.rs] and
    [camera.rs].  Left out are [impl Display for Vec3], whose text is
    that of [f64]'s [{}], the progress messages of [render], and the
    scene of [main.rs].

    Numbers.  Every [f64] operation the program uses is a field of the
    class [Scalar], so each function is written once, the way the source
    writes it, and read in two number models:

    - [ereal], the reals extended with [+inf], [-inf] and [NaN], with exact
      arithmetic and the IEEE-754 rules for the special values (division
      by zero, [0 * inf], [inf - inf], square root of a negative number,
      comparisons with [NaN]).  It has neither rounding nor overflow, and a
      single zero, read as [+0].  The general theorems are proved in it;
      those that need no arithmetic are proved for every model.
    - [float], Rocq's primitive binary64 numbers: rounding, overflow and
      signed zeros as the hardware has them.  It evaluates, so the concrete
      runs are replayed in it bit for bit.

    [Camera::initialize] also takes a tangent and rounds to an integer;
    these two and [PI] form the class [Libm], which has the exact model
    only, binary64 having no tangent here.

    Randomness.  [rand::rng()] is an explicit tape of the draws still to
    come; a computation that needs more draws than the tape holds has not
    returned yet.  In the parallel [render] every pixel reads a tape of
    its own.

    Trait objects.  An [Arc<dyn Material>] is one of the four materials of
    [material.rs]; an [Arc<dyn Hittable>] is a sphere or a list of such
    objects, the two implementors of [Hittable]. *)

From Stdlib Require Import String.
From Stdlib Require Import Reals Lra Psatz ZArith NArith QArith Qreals List Bool.
From Stdlib Require Import Permutation.
From Stdlib Require PrimFloat FloatOps SpecFloat Uint63.
From Stdlib Require DecimalString.
Import ListNotations.

Set Implicit Arguments.

(** ** The [f64] interface *)

Class Scalar (f64 : Type) : Type := {
  fadd : f64 -> f64 -> f64;
  fsub : f64 -> f64 -> f64;
  fmul : f64 -> f64 -> f64;
  fdiv : f64 -> f64 -> f64;
  fneg : f64 -> f64;
  fsqrt : f64 -> f64;
  fabs : f64 -> f64;
  (** [a < b], [a <= b] and [a == b]; all three are [false] on [NaN]. *)
  flt : f64 -> f64 -> bool;
  fle : f64 -> f64 -> bool;
  feq : f64 -> f64 -> bool;
  (** A decimal literal of the source, such as [0.001]. *)
  lit : Q -> f64;
  (** [f64::INFINITY]. *)
  INFINITY : f64;
  (** Rounding toward zero, the first half of an [as] cast to an integer
      type: [NaN] goes to 0 and an infinity to a value beyond every
      machine integer, so that saturation finishes the cast. *)
  trunc : f64 -> Z
}.

Declare Scope f64_scope.
Delimit Scope f64_scope with f64.
Infix "+" := fadd : f64_scope.
Infix "-" := fsub : f64_scope.
Infix "*" := fmul : f64_scope.
Infix "/" := fdiv : f64_scope.
Notation "- a" := (fneg a) : f64_scope.
Infix "<?" := flt : f64_scope.
Infix "<=?" := fle : f64_scope.
Infix "=?" := feq : f64_scope.
Notation "a >? b" := (flt b a) : f64_scope.

(** ** Exact arithmetic with the IEEE special values *)

Inductive ereal : Type :=
| Fin (a : R)
| PInf
| NInf
| NaN.

(** [a * (+inf)] for a real [a]. *)
Definition sign_inf (a : R) : ereal :=
  if Rlt_dec 0 a then PInf else if Rlt_dec a 0 then NInf else NaN.

Definition eneg (u : ereal) : ereal :=
  match u with
  | Fin a => Fin (- a)
  | PInf => NInf
  | NInf => PInf
  | NaN => NaN
  end.

Definition eadd (u v : ereal) : ereal :=
  match u, v with
  | NaN, _ | _, NaN => NaN
  | Fin a, Fin b => Fin (a + b)
  | PInf, NInf | NInf, PInf => NaN
  | PInf, _ | _, PInf => PInf
  | NInf, _ | _, NInf => NInf
  end.

Definition esub (u v : ereal) : ereal := eadd u (eneg v).

Definition emul (u v : ereal) : ereal :=
  match u, v with
  | NaN, _ | _, NaN => NaN
  | Fin a, Fin b => Fin (a * b)
  | Fin a, PInf | PInf, Fin a => sign_inf a
  | Fin a, NInf | NInf, Fin a => sign_inf (- a)
  | PInf, PInf | NInf, NInf => PInf
  | PInf, NInf | NInf, PInf => NInf
  end.

Definition ediv (u v : ereal) : ereal :=
  match u, v with
  | NaN, _ | _, NaN => NaN
  | Fin a, Fin b => if Req_dec_T b 0 then sign_inf a else Fin (a / b)
  | Fin _, PInf | Fin _, NInf => Fin 0
  | PInf, Fin b => if Rlt_dec b 0 then NInf else PInf
  | NInf, Fin b => if Rlt_dec b 0 then PInf else NInf
  | _, _ => NaN
  end.

Definition esqrt (u : ereal) : ereal :=
  match u with
  | Fin a => if Rlt_dec a 0 then NaN else Fin (sqrt a)
  | PInf => PInf
  | NInf | NaN => NaN
  end.

Definition eabs (u : ereal) : ereal :=
  match u with
  | Fin a => Fin (Rabs a)
  | PInf | NInf => PInf
  | NaN => NaN
  end.

Definition eltb (u v : ereal) : bool :=
  match u, v with
  | Fin a, Fin b => if Rlt_dec a b then true else false
  | NInf, Fin _ | NInf, PInf | Fin _, PInf => true
  | _, _ => false
  end.

Definition eleb (u v : ereal) : bool :=
  match u, v with
  | Fin a, Fin b => if Rle_dec a b then true else false
  | NInf, Fin _ | NInf, PInf | Fin _, PInf | PInf, PInf | NInf, NInf => true
  | _, _ => false
  end.

Definition eeqb (u v : ereal) : bool :=
  match u, v with
  | Fin a, Fin b => if Req_dec_T a b then true else false
  | PInf, PInf | NInf, NInf => true
  | _, _ => false
  end.

Definition etrunc (u : ereal) : Z :=
  match u with
  | Fin a => if Rle_dec 0 a then Int_part a else (- Int_part (- a))%Z
  | PInf => (2 ^ 1024)%Z
  | NInf => (- 2 ^ 1024)%Z
  | NaN => 0%Z
  end.

#[export] Instance ereal_scalar : Scalar ereal := {
  fadd := eadd;
  fsub := esub;
  fmul := emul;
  fdiv := ediv;
  fneg := eneg;
  fsqrt := esqrt;
  fabs := eabs;
  flt := eltb;
  fle := eleb;
  feq := eeqb;
  lit := fun q => Fin (Q2R q);
  INFINITY := PInf;
  trunc := etrunc
}.

(** ** Binary64 *)

Definition float_of_Z (n : Z) : PrimFloat.float :=
  if (n <? 0)%Z then PrimFloat.opp (PrimFloat.of_uint63 (Uint63.of_Z (- n)))
  else PrimFloat.of_uint63 (Uint63.of_Z n).

(** A literal [n/d] with [n] and [d] below [2^53] is the correctly rounded
    quotient of two exact numbers, the double the Rust compiler reads. *)
Definition float_lit (q : Q) : PrimFloat.float :=
  PrimFloat.div (float_of_Z (Qnum q)) (float_of_Z (Zpos (Qden q))).

Definition float_trunc (u : PrimFloat.float) : Z :=
  match FloatOps.Prim2SF u with
  | SpecFloat.S754_zero _ => 0%Z
  | SpecFloat.S754_infinity s => if s then (- 2 ^ 1024)%Z else (2 ^ 1024)%Z
  | SpecFloat.S754_nan => 0%Z
  | SpecFloat.S754_finite s m e =>
      let v := Z.shiftl (Zpos m) e in
      if s then (- v)%Z else v
  end.

#[export] Instance float_scalar : Scalar PrimFloat.float := {
  fadd := PrimFloat.add;
  fsub := PrimFloat.sub;
  fmul := PrimFloat.mul;
  fdiv := PrimFloat.div;
  fneg := PrimFloat.opp;
  fsqrt := PrimFloat.sqrt;
  fabs := PrimFloat.abs;
  flt := PrimFloat.ltb;
  fle := PrimFloat.leb;
  feq := PrimFloat.eqb;
  lit := float_lit;
  INFINITY := PrimFloat.infinity;
  trunc := float_trunc
}.

(** ** rtweekend.rs: the random source *)

Section Random.
Context {f64 : Type} `{Scalar f64}.

(** The state of [rand::rng()]: the uniform draws from [0,1) it will
    hand out, in order. *)
Definition Rng : Type := list f64.

(** A computation that draws from the generator.  [None]: the tape ran
    out before the computation returned. *)
Definition Rand (A : Type) : Type := Rng -> option (A * Rng).

Definition ret {A : Type} (a : A) : Rand A := fun rng => Some (a, rng).

Definition bind {A B : Type} (c : Rand A) (k : A -> Rand B) : Rand B :=
  fun rng =>
    match c rng with
    | Some (a, rng') => k a rng'
    | None => None
    end.

Definition random_f64 : Rand f64 :=
  fun rng =>
    match rng with
    | u :: rng' => Some (u, rng')
    | [] => None
    end.
End Random.
Arguments Rng f64 : clear implicits.
Arguments Rand f64 A : clear implicits.

Notation "x <- c ;; k" := (bind c (fun x => k))
  (at level 61, c at next level, right associativity).

(** A panic of the program, with its message. *)
Inductive outcome (A : Type) : Type :=
| Returned (a : A)
| Panicked (msg : String.string).
Arguments Returned {A} a.
Arguments Panicked {A} msg.

(** ** The structs *)

Module Vec3.
Record Self (f64 : Type) : Type := new { x : f64; y : f64; z : f64 }.
Arguments new {f64} x y z.
Arguments x {f64} _.
Arguments y {f64} _.
Arguments z {f64} _.
End Vec3.

Module Ray.
Record Self (f64 : Type) : Type := new { orig : Vec3.Self f64; dir : Vec3.Self f64 }.
Arguments new {f64} orig dir.
Arguments orig {f64} _.
Arguments dir {f64} _.
End Ray.

Module Interval.
Record Self (f64 : Type) : Type := new { min : f64; max : f64 }.
Arguments new {f64} min max.
Arguments min {f64} _.
Arguments max {f64} _.
End Interval.

Module Lambertian.
Record Self (f64 : Type) : Type := new { albedo : Vec3.Self f64 }.
Arguments new {f64} albedo.
Arguments albedo {f64} _.
End Lambertian.

Module Metal.
Record Self (f64 : Type) : Type := new { albedo : Vec3.Self f64; fuzz : f64 }.
Arguments new {f64} albedo fuzz.
Arguments albedo {f64} _.
Arguments fuzz {f64} _.
End Metal.

Module Dielectric.
Record Self (f64 : Type) : Type := new { ir : f64 }.
Arguments new {f64} refrection_index : rename.
Arguments ir {f64} _.
End Dielectric.

(** [Arc<dyn Material + Send + Sync>]: one of the four implementors. *)
Inductive dynMaterial (f64 : Type) : Type :=
| NullMaterial
| DynLambertian (m : Lambertian.Self f64)
| DynMetal (m : Metal.Self f64)
| DynDielectric (m : Dielectric.Self f64).
Arguments NullMaterial {f64}.
Arguments DynLambertian {f64} m.
Arguments DynMetal {f64} m.
Arguments DynDielectric {f64} m.

Module HitRecord.
Record Self (f64 : Type) : Type := mk {
  p : Vec3.Self f64;
  normal : Vec3.Self f64;
  t : f64;
  mat : dynMaterial f64;
  front_face : bool
}.
Arguments mk {f64} p normal t mat front_face.
Arguments p {f64} _.
Arguments normal {f64} _.
Arguments t {f64} _.
Arguments mat {f64} _.
Arguments front_face {f64} _.
End HitRecord.

Module Sphere.
Record Self (f64 : Type) : Type := new {
  center : Vec3.Self f64;
  radius : f64;
  mat : dynMaterial f64
}.
Arguments new {f64} center radius mat.
Arguments center {f64} _.
Arguments radius {f64} _.
Arguments mat {f64} _.
End Sphere.

(** [Arc<dyn Hittable>]: a sphere, or a list of such objects. *)
#[warnings="-register-all"]
Inductive dynHittable (f64 : Type) : Type :=
| DynSphere (s : Sphere.Self f64)
| DynList (objects : list (dynHittable f64)).
Arguments DynSphere {f64} s.
Arguments DynList {f64} objects.

Module HittableList.
Record Self (f64 : Type) : Type := mk { objects : list (dynHittable f64) }.
Arguments mk {f64} objects.
Arguments objects {f64} _.
End HittableList.

Module Camera.
Record Self (f64 : Type) : Type := mk {
  aspect_ratio : f64;
  image_width : N;
  samples_per_pixel : N;
  max_depth : N;
  vfov : f64;
  lookfrom : Vec3.Self f64;
  lookat : Vec3.Self f64;
  vup : Vec3.Self f64;
  defocus_angle : f64;
  focus_dist : f64;
  u : Vec3.Self f64;
  v : Vec3.Self f64;
  w : Vec3.Self f64;
  pixel_sample_scale : f64;
  image_height : N;
  center : Vec3.Self f64;
  pixel00_loc : Vec3.Self f64;
  pixel_delta_u : Vec3.Self f64;
  pixel_delta_v : Vec3.Self f64;
  defocus_disk_u : Vec3.Self f64;
  defocus_disk_v : Vec3.Self f64
}.
End Camera.

Arguments lit {f64 _} q%_Q.

Declare Scope vec3_scope.
Delimit Scope vec3_scope with vec3.

(** ** The program *)

Section Program.
Context {f64 : Type} `{Scalar f64}.

Local Open Scope f64_scope.

Local Abbreviation Vec3 := (Vec3.Self f64).
Local Abbreviation Point3 := (Vec3.Self f64).
Local Abbreviation Color := (Vec3.Self f64).
Local Abbreviation Ray := (Ray.Self f64).
Local Abbreviation Interval := (Interval.Self f64).
Local Abbreviation HitRecord := (HitRecord.Self f64).
Local Abbreviation Sphere := (Sphere.Self f64).
Local Abbreviation HittableList := (HittableList.Self f64).
Local Abbreviation Camera := (Camera.Self f64).

(** *** The [f64] methods the program calls *)

Definition f64_is_nan (a : f64) : bool := negb (a =? a).

(** [f64::min]: the smaller number; a [NaN] argument is ignored. *)
Definition f64_min (a other : f64) : f64 :=
  if f64_is_nan a then other
  else if f64_is_nan other then a
  else if a <? other then a else other.

(** [f64::max]: the larger number; a [NaN] argument is ignored. *)
Definition f64_max (a other : f64) : f64 :=
  if f64_is_nan a then other
  else if f64_is_nan other then a
  else if a >? other then a else other.

(** [f64::powi], as the product of [n] factors. *)
Fixpoint f64_powi (a : f64) (n : nat) : f64 :=
  match n with
  | O => lit 1
  | S n' => a * f64_powi a n'
  end.

(** [x as u8]: toward zero, saturating at 0 and 255, [NaN] to 0. *)
Definition f64_as_u8 (a : f64) : Z := Z.max 0 (Z.min 255 (trunc a)).

(** *** rtweekend.rs *)

Definition random_f64_range (min max : f64) : Rand f64 f64 :=
  u <- random_f64 ;; ret (min + (max - min) * u).

(** *** vec3.rs *)

Definition Vec3_zero : Vec3 := Vec3.new (lit 0) (lit 0) (lit 0).

Definition Vec3_default : Vec3 := Vec3.new (lit 0) (lit 0) (lit 0).

Definition Vec3_near_zero (self : Vec3) : bool :=
  let s := lit 1e-8 in
  (fabs (Vec3.x self) <? s) && (fabs (Vec3.y self) <? s)
  && (fabs (Vec3.z self) <? s).

Definition Vec3_length_squared (self : Vec3) : f64 :=
  Vec3.x self * Vec3.x self + Vec3.y self * Vec3.y self
  + Vec3.z self * Vec3.z self.

Definition Vec3_length (self : Vec3) : f64 :=
  fsqrt (Vec3_length_squared self).

Definition Vec3_dot (self other : Vec3) : f64 :=
  Vec3.x self * Vec3.x other + Vec3.y self * Vec3.y other
  + Vec3.z self * Vec3.z other.

Definition Vec3_cross (self other : Vec3) : Vec3 :=
  Vec3.new
    (Vec3.y self * Vec3.z other - Vec3.z self * Vec3.y other)
    (Vec3.z self * Vec3.x other - Vec3.x self * Vec3.z other)
    (Vec3.x self * Vec3.y other - Vec3.y self * Vec3.x other).

(** [impl Neg], [Add], [Sub], [Mul], [Mul<f64>], [Mul<Vec3> for f64] and
    [Div<f64>]. *)
Definition Vec3_neg (self : Vec3) : Vec3 :=
  Vec3.new (- Vec3.x self) (- Vec3.y self) (- Vec3.z self).

Definition Vec3_add (self other : Vec3) : Vec3 :=
  Vec3.new (Vec3.x self + Vec3.x other) (Vec3.y self + Vec3.y other)
           (Vec3.z self + Vec3.z other).

Definition Vec3_sub (self other : Vec3) : Vec3 :=
  Vec3.new (Vec3.x self - Vec3.x other) (Vec3.y self - Vec3.y other)
           (Vec3.z self - Vec3.z other).

Definition Vec3_mul (self other : Vec3) : Vec3 :=
  Vec3.new (Vec3.x self * Vec3.x other) (Vec3.y self * Vec3.y other)
           (Vec3.z self * Vec3.z other).

Definition Vec3_mul_f64 (self : Vec3) (scalar : f64) : Vec3 :=
  Vec3.new (Vec3.x self * scalar) (Vec3.y self * scalar)
           (Vec3.z self * scalar).

Definition f64_mul_Vec3 (self : f64) (vec : Vec3) : Vec3 :=
  Vec3_mul_f64 vec self.

Definition Vec3_div (self : Vec3) (scalar : f64) : Vec3 :=
  Vec3_mul_f64 self (lit 1 / scalar).

Local Notation "- v" := (Vec3_neg v) : vec3_scope.
Local Infix "+" := Vec3_add : vec3_scope.
Local Infix "-" := Vec3_sub : vec3_scope.
Local Infix "*" := Vec3_mul : vec3_scope.
Local Notation "v *. k" := (Vec3_mul_f64 v k)
  (at level 40, left associativity) : vec3_scope.
Local Notation "k .* v" := (f64_mul_Vec3 k v)
  (at level 40, left associativity) : vec3_scope.
Local Notation "v /. k" := (Vec3_div v k)
  (at level 40, left associativity) : vec3_scope.

Definition Vec3_normalized (self : Vec3) : Vec3 :=
  (self /. Vec3_length self)%vec3.

Definition Vec3_random : Rand f64 Vec3 :=
  x <- random_f64 ;;
  y <- random_f64 ;;
  z <- random_f64 ;;
  ret (Vec3.new x y z).

Definition Vec3_random_interval (min max : f64) : Rand f64 Vec3 :=
  x <- random_f64_range min max ;;
  y <- random_f64_range min max ;;
  z <- random_f64_range min max ;;
  ret (Vec3.new x y z).

(** The rejection loop, [fuel] turns of it.  Every turn takes three
    draws, so as many turns as the tape has draws never run short: the
    loop stops on an accepted point or on the end of the tape. *)
Fixpoint Vec3_random_in_unit_sphere_loop (fuel : nat) : Rand f64 Vec3 :=
  match fuel with
  | O => fun _ => None
  | S fuel' =>
      p <- Vec3_random_interval (- lit 1) (lit 1) ;;
      if Vec3_length_squared p <? lit 1 then ret p
      else Vec3_random_in_unit_sphere_loop fuel'
  end.

Definition Vec3_random_in_unit_sphere : Rand f64 Vec3 :=
  fun rng => Vec3_random_in_unit_sphere_loop (length rng) rng.

Definition Vec3_random_unit_vector : Rand f64 Vec3 :=
  p <- Vec3_random_in_unit_sphere ;; ret (Vec3_normalized p).


Definition Vec3_reflect (v n : Vec3) : Vec3 :=
  let scalar := Vec3_dot v n * lit 2 in
  let projection := (scalar .* n)%vec3 in
  (v - projection)%vec3.

Definition Vec3_refract (uv n : Vec3) (etai_over_etat : f64) : Vec3 :=
  let a := (- uv)%vec3 in
  let b := n in
  let cos_theta := f64_min (Vec3_dot a b) (lit 1) in
  let r_out_perp := (etai_over_etat .* (uv + cos_theta .* n))%vec3 in
  let r_out_parallel :=
    ((- fsqrt (lit 1 - Vec3_length_squared r_out_perp))%f64 .* n)%vec3 in
  (r_out_perp + r_out_parallel)%vec3.

Fixpoint Vec3_random_in_unit_disk_loop (fuel : nat) : Rand f64 Vec3 :=
  match fuel with
  | O => fun _ => None
  | S fuel' =>
      x <- random_f64_range (- lit 1) (lit 1) ;;
      y <- random_f64_range (- lit 1) (lit 1) ;;
      let p := Vec3.new x y (lit 0) in
      if Vec3_length_squared p <? lit 1 then ret p
      else Vec3_random_in_unit_disk_loop fuel'
  end.

Definition Vec3_random_in_unit_disk : Rand f64 Vec3 :=
  fun rng => Vec3_random_in_unit_disk_loop (length rng) rng.

(** [impl AddAssign], [MulAssign<f64>] and [DivAssign<f64>]: the vector
    the assignment leaves in [self]. *)
Definition Vec3_add_assign (self other : Vec3) : Vec3 :=
  Vec3.new (Vec3.x self + Vec3.x other) (Vec3.y self + Vec3.y other)
           (Vec3.z self + Vec3.z other).

Definition Vec3_mul_assign (self : Vec3) (scalar : f64) : Vec3 :=
  Vec3.new (Vec3.x self * scalar) (Vec3.y self * scalar)
           (Vec3.z self * scalar).

Definition Vec3_div_assign (self : Vec3) (scalar : f64) : Vec3 :=
  Vec3_mul_assign self (lit 1 / scalar).

(** [impl Index<usize>]: the component, or the panic. *)
Definition Vec3_index (self : Vec3) (index : N) : outcome f64 :=
  match index with
  | 0%N => Returned (Vec3.x self)
  | 1%N => Returned (Vec3.y self)
  | 2%N => Returned (Vec3.z self)
  | _ => Panicked "Index out of bounds for Vec3"%string
  end.

(** A [&mut f64] into a vector: the component it points to, and the
    vector a write through it leaves. *)
Record RefMut : Type := {
  deref : f64;
  assign : f64 -> Vec3
}.

(** [impl IndexMut<usize>]. *)
Definition Vec3_index_mut (self : Vec3) (index : N) : outcome RefMut :=
  match index with
  | 0%N => Returned {| deref := Vec3.x self;
                       assign := fun a => Vec3.new a (Vec3.y self) (Vec3.z self) |}
  | 1%N => Returned {| deref := Vec3.y self;
                       assign := fun a => Vec3.new (Vec3.x self) a (Vec3.z self) |}
  | 2%N => Returned {| deref := Vec3.z self;
                       assign := fun a => Vec3.new (Vec3.x self) (Vec3.y self) a |}
  | _ => Panicked "Index out of bounds for Vec3"%string
  end.

(** *** ray.rs *)

Definition Ray_at (self : Ray) (t : f64) : Point3 :=
  (Ray.orig self + t .* Ray.dir self)%vec3.

(** *** interval.rs *)

Definition Interval_size (self : Interval) : f64 :=
  Interval.max self - Interval.min self.

Definition Interval_contains (self : Interval) (x : f64) : bool :=
  (Interval.min self <=? x) && (x <=? Interval.max self).

Definition Interval_surrounds (self : Interval) (x : f64) : bool :=
  (Interval.min self <? x) && (x <? Interval.max self).

Definition Interval_EMPTY : Interval := Interval.new INFINITY (- INFINITY).

Definition Interval_UNIVERSE : Interval := Interval.new (- INFINITY) INFINITY.

Definition Interval_clamp (self : Interval) (x : f64) : f64 :=
  if x <? Interval.min self then Interval.min self
  else if x >? Interval.max self then Interval.max self
  else x.

Definition Interval_default : Interval := Interval_EMPTY.

(** *** hittable.rs *)

(** The assignments [rec.p = ...], [rec.normal = ...], [rec.t = ...],
    [rec.mat = ...] and [rec.front_face = ...] to a [mut] record. *)
Definition HitRecord_with_p (self : HitRecord) (p : Point3) : HitRecord :=
  HitRecord.mk p (HitRecord.normal self) (HitRecord.t self)
               (HitRecord.mat self) (HitRecord.front_face self).

Definition HitRecord_with_normal (self : HitRecord) (normal : Vec3) : HitRecord :=
  HitRecord.mk (HitRecord.p self) normal (HitRecord.t self)
               (HitRecord.mat self) (HitRecord.front_face self).

Definition HitRecord_with_t (self : HitRecord) (t : f64) : HitRecord :=
  HitRecord.mk (HitRecord.p self) (HitRecord.normal self) t
               (HitRecord.mat self) (HitRecord.front_face self).

Definition HitRecord_with_mat (self : HitRecord) (mat : dynMaterial f64) : HitRecord :=
  HitRecord.mk (HitRecord.p self) (HitRecord.normal self) (HitRecord.t self)
               mat (HitRecord.front_face self).

Definition HitRecord_with_front_face (self : HitRecord) (front_face : bool) : HitRecord :=
  HitRecord.mk (HitRecord.p self) (HitRecord.normal self) (HitRecord.t self)
               (HitRecord.mat self) front_face.

Definition HitRecord_set_face_normal (self : HitRecord) (r : Ray)
    (outward_normal : Vec3) : HitRecord :=
  let self :=
    HitRecord_with_front_face self (Vec3_dot (Ray.dir r) outward_normal <? lit 0) in
  HitRecord_with_normal self
    (if HitRecord.front_face self then outward_normal
     else (- outward_normal)%vec3).

Definition HitRecord_default : HitRecord :=
  HitRecord.mk Vec3_default Vec3_default (lit 0) NullMaterial true.

(** [trait Hittable]. *)
Class Hittable (W : Type) : Type := {
  hit : W -> Ray -> Interval -> option HitRecord
}.

(** *** sphere.rs *)

Definition Sphere_hit (self : Sphere) (r : Ray) (ray_t : Interval)
    : option HitRecord :=
  let oc := (Sphere.center self - Ray.orig r)%vec3 in
  let a := Vec3_length_squared (Ray.dir r) in
  let h := Vec3_dot (Ray.dir r) oc in
  let c := Vec3_length_squared oc - Sphere.radius self * Sphere.radius self in
  let discriminant := h * h - a * c in
  if discriminant <? lit 0 then None
  else
    let sqrtd := fsqrt discriminant in
    let finish (root : f64) : option HitRecord :=
      let rec := HitRecord_default in
      let rec := HitRecord_with_t rec root in
      let rec := HitRecord_with_p rec (Ray_at r (HitRecord.t rec)) in
      let rec := HitRecord_with_normal rec
                   ((HitRecord.p rec - Sphere.center self) /. Sphere.radius self)%vec3 in
      let outward_normal :=
        ((HitRecord.p rec - Sphere.center self) /. Sphere.radius self)%vec3 in
      let rec := HitRecord_set_face_normal rec r outward_normal in
      let rec := HitRecord_with_mat rec (Sphere.mat self) in
      Some rec in
    let root := (h - sqrtd) / a in
    if negb (Interval_surrounds ray_t root) then
      let root := (h + sqrtd) / a in
      if negb (Interval_surrounds ray_t root) then None
      else finish root
    else finish root.

#[export] Instance Sphere_Hittable : Hittable Sphere := {| hit := Sphere_hit |}.

(** *** hittable_list.rs *)

Definition HittableList_new : HittableList := HittableList.mk [].

Definition HittableList_add (self : HittableList) (object : dynHittable f64)
    : HittableList :=
  HittableList.mk (HittableList.objects self ++ [object]).

Definition HittableList_new_with (object : dynHittable f64) : HittableList :=
  let list := HittableList_new in
  let list := HittableList_add list object in
  list.

Definition HittableList_clear (self : HittableList) : HittableList :=
  HittableList.mk [].

Section HitLoop.
(** [object.hit], the call through the [dyn Hittable] table. *)
Variable object_hit : dynHittable f64 -> Ray -> Interval -> option HitRecord.
Variable r : Ray.
Variable ray_t : Interval.

(** The [for] loop of [HittableList::hit], from the objects still to
    visit and the two loop variables. *)
Fixpoint HittableList_hit_loop (objects : list (dynHittable f64))
    (closest_hitrecord : option HitRecord) (closest_so_far : f64)
    : option HitRecord :=
  match objects with
  | [] => closest_hitrecord
  | object :: objects' =>
      match object_hit object r (Interval.new (Interval.min ray_t) closest_so_far) with
      | Some hit_rec =>
          HittableList_hit_loop objects' (Some hit_rec) (HitRecord.t hit_rec)
      | None =>
          HittableList_hit_loop objects' closest_hitrecord closest_so_far
      end
  end.
End HitLoop.

(** The dispatch of [hit] on an [Arc<dyn Hittable>]. *)
Fixpoint dynHittable_hit (object : dynHittable f64) (r : Ray) (ray_t : Interval)
    : option HitRecord :=
  match object with
  | DynSphere s => Sphere_hit s r ray_t
  | DynList objects =>
      HittableList_hit_loop dynHittable_hit r ray_t objects None (Interval.max ray_t)
  end.

Definition HittableList_hit (self : HittableList) (r : Ray) (ray_t : Interval)
    : option HitRecord :=
  let closest_hitrecord : option HitRecord := None in
  let closest_so_far := Interval.max ray_t in
  HittableList_hit_loop dynHittable_hit r ray_t (HittableList.objects self)
                        closest_hitrecord closest_so_far.

#[export] Instance HittableList_Hittable : Hittable HittableList :=
  {| hit := HittableList_hit |}.

#[export] Instance dynHittable_Hittable : Hittable (dynHittable f64) :=
  {| hit := dynHittable_hit |}.

(** *** material.rs *)

Definition NullMaterial_scatter (r_in : Ray) (rec : HitRecord)
    : Rand f64 (option (Ray * Color)) :=
  ret None.

Definition Lambertian_scatter (self : Lambertian.Self f64) (r_in : Ray)
    (rec : HitRecord) : Rand f64 (option (Ray * Color)) :=
  u <- Vec3_random_unit_vector ;;
  let scatter_direction := (HitRecord.normal rec + u)%vec3 in
  let scatter_direction :=
    if Vec3_near_zero scatter_direction then HitRecord.normal rec
    else scatter_direction in
  let scattered := Ray.new (HitRecord.p rec) scatter_direction in
  let attenuation := Lambertian.albedo self in
  ret (Some (scattered, attenuation)).

Definition Metal_scatter (self : Metal.Self f64) (r_in : Ray)
    (rec : HitRecord) : Rand f64 (option (Ray * Color)) :=
  let reflected := Vec3_reflect (Ray.dir r_in) (HitRecord.normal rec) in
  u <- Vec3_random_unit_vector ;;
  let reflected :=
    (Vec3_normalized reflected
     + f64_max (f64_min (Metal.fuzz self) (lit 1)) (lit 0) .* u)%vec3 in
  let scattered := Ray.new (HitRecord.p rec) reflected in
  let attenuation := Metal.albedo self in
  ret (Some (scattered, attenuation)).

Definition Dielectric_reflanctance (cosine refraction_index : f64) : f64 :=
  let r0 := (lit 1 - refraction_index) / (lit 1 + refraction_index) in
  let r0 := r0 * r0 in
  r0 + (lit 1 - r0) * f64_powi (lit 1 - cosine) 5.

Definition Dielectric_scatter (self : Dielectric.Self f64) (r_in : Ray)
    (rec : HitRecord) : Rand f64 (option (Ray * Color)) :=
  let attenuation := Vec3.new (lit 1) (lit 1) (lit 1) in
  let ri :=
    if HitRecord.front_face rec then lit 1 / Dielectric.ir self
    else Dielectric.ir self in
  let unit_direction := Vec3_normalized (Ray.dir r_in) in
  let cos_theta :=
    f64_min (Vec3_dot (HitRecord.normal rec) (- unit_direction)%vec3) (lit 1) in
  let sin_theta := fsqrt (lit 1 - cos_theta * cos_theta) in
  let cant_refract := ri * sin_theta >? lit 1 in
  (** [||] does not evaluate [random_f64()] when [cant_refract] holds. *)
  reflects <-
    (if cant_refract then ret true
     else u <- random_f64 ;; ret (Dielectric_reflanctance cos_theta ri >? u)) ;;
  let direction :=
    if (reflects : bool) then Vec3_reflect unit_direction (HitRecord.normal rec)
    else Vec3_refract unit_direction (HitRecord.normal rec) ri in
  let scattered := Ray.new (HitRecord.p rec) direction in
  ret (Some (scattered, attenuation)).

(** The dispatch of [scatter] on an [Arc<dyn Material>]. *)
Definition dynMaterial_scatter (mat : dynMaterial f64) (r_in : Ray)
    (rec : HitRecord) : Rand f64 (option (Ray * Color)) :=
  match mat with
  | NullMaterial => NullMaterial_scatter r_in rec
  | DynLambertian m => Lambertian_scatter m r_in rec
  | DynMetal m => Metal_scatter m r_in rec
  | DynDielectric m => Dielectric_scatter m r_in rec
  end.

(** *** color.rs *)

Definition linear_to_gamma (linear_component : f64) : f64 :=
  if linear_component >? lit 0 then fsqrt linear_component else lit 0.

(** The three bytes [write_color] computes. *)
Definition write_color_bytes (pixel_color : Color) : Z * Z * Z :=
  let r := Vec3.x pixel_color in
  let g := Vec3.y pixel_color in
  let b := Vec3.z pixel_color in
  let r := linear_to_gamma r in
  let g := linear_to_gamma g in
  let b := linear_to_gamma b in
  let intensity := Interval.new (lit 0.000) (lit 0.999) in
  let rbyte := f64_as_u8 (lit 255.999 * Interval_clamp intensity r) in
  let gbyte := f64_as_u8 (lit 255.999 * Interval_clamp intensity g) in
  let bbyte := f64_as_u8 (lit 255.999 * Interval_clamp intensity b) in
  (rbyte, gbyte, bbyte).

(** The [{}] of a [u8]. *)
Definition u8_to_string (n : Z) : string :=
  DecimalString.NilZero.string_of_uint (N.to_uint (Z.to_N n)).

(** [write_color] into a sink that holds the text written so far. *)
Definition write_color (out : string) (pixel_color : Color) : string :=
  let '(rbyte, gbyte, bbyte) := write_color_bytes pixel_color in
  (out ++ u8_to_string rbyte ++ " " ++ u8_to_string gbyte ++ " "
       ++ u8_to_string bbyte ++ String (Ascii.ascii_of_nat 10) "")%string.

(** *** camera.rs *)

(** [ray_color], by recursion on the [u32] depth: [depth - 1] is taken
    only of a positive depth. *)
Fixpoint Camera_ray_color {W : Type} `{Hittable W} (self : Camera) (r : Ray)
    (depth : nat) (world : W) : Rand f64 Color :=
  match depth with
  | O => ret Vec3_zero
  | S depth' =>
      let hit_interval := Interval.new (lit 0.001) INFINITY in
      match hit world r hit_interval with
      | Some rec =>
          s <- dynMaterial_scatter (HitRecord.mat rec) r rec ;;
          match s with
          | Some (scattered, attenuation) =>
              c <- Camera_ray_color self scattered depth' world ;;
              ret (attenuation * c)%vec3
          | None => ret Vec3_zero
          end
      | None =>
          let unit_direction := Vec3_normalized (Ray.dir r) in
          let a := lit 0.5 * (Vec3.y unit_direction + lit 1) in
          ret ((lit 1 - a)%f64 .* Vec3.new (lit 1) (lit 1) (lit 1)
               + a .* Vec3.new (lit 0.5) (lit 0.7) (lit 1))%vec3
      end
  end.

(** [get_ray], [sample_square] and [defocus_disk_sample].  [i as f64] is
    exact for a [u32]. *)
Definition u32_as_f64 (n : N) : f64 := lit (inject_Z (Z.of_N n)).

Definition Camera_sample_square (self : Camera) : Rand f64 Vec3 :=
  if (Camera.samples_per_pixel self =? 1)%N then ret Vec3_zero
  else
    a <- random_f64 ;;
    b <- random_f64 ;;
    ret (Vec3.new (a - lit 0.5) (b - lit 0.5) (lit 0)).

Definition Camera_defocus_disk_sample (self : Camera) : Rand f64 Point3 :=
  p <- Vec3_random_in_unit_disk ;;
  ret (Camera.center self + (Vec3.x p .* Camera.defocus_disk_u self)
       + (Vec3.y p .* Camera.defocus_disk_v self))%vec3.

Definition Camera_get_ray (self : Camera) (i j : N) : Rand f64 Ray :=
  offset <- Camera_sample_square self ;;
  let pixel_sample :=
    (Camera.pixel00_loc self
     + ((u32_as_f64 i + Vec3.x offset)%f64 .* Camera.pixel_delta_u self)
     + ((u32_as_f64 j + Vec3.y offset)%f64 .* Camera.pixel_delta_v self))%vec3 in
  ray_origin <-
    (if Camera.defocus_angle self <=? lit 0 then ret (Camera.center self)
     else Camera_defocus_disk_sample self) ;;
  let ray_direction := (pixel_sample - ray_origin)%vec3 in
  ret (Ray.new ray_origin ray_direction).
End Program.

(** ** camera.rs: the set-up of the camera

    [Camera::initialize] needs three things beyond [Scalar]: [f64::tan],
    [f64::round] and the constant [PI]. *)

Class Libm (f64 : Type) : Type := {
  ftan : f64 -> f64;
  (** To the nearest integer, halves away from zero. *)
  fround : f64 -> f64;
  PI : f64
}.

(** In exact arithmetic the tangent has poles, which no binary64 argument
    hits; there it is [NaN], as it is of an infinity. *)
Definition etan (u : ereal) : ereal :=
  match u with
  | Fin a => if Req_dec_T (cos a) 0 then NaN else Fin (tan a)
  | _ => NaN
  end.

Definition eround (u : ereal) : ereal :=
  match u with
  | Fin a =>
      if Rle_dec 0 a then Fin (IZR (Int_part (a + / 2)))
      else Fin (- IZR (Int_part (- a + / 2)))
  | _ => u
  end.

#[export] Instance ereal_libm : Libm ereal := {
  ftan := etan;
  fround := eround;
  PI := Fin Rtrigo1.PI
}.

Section CameraSetup.
Context {f64 : Type} `{Scalar f64} `{Libm f64}.

Local Open Scope f64_scope.

(** [x as u32]: toward zero, saturating at 0 and [u32::MAX], [NaN] to 0. *)
Definition f64_as_u32 (a : f64) : N :=
  Z.to_N (Z.max 0 (Z.min 4294967295 (trunc a))).

Definition degrees_to_radians (degrees : f64) : f64 :=
  degrees * PI / lit 180.

(** [initialize]: the assignments to [self], in order; every later line
    reads the fields as the earlier lines left them. *)
Definition Camera_initialize (self : Camera.Self f64) : Camera.Self f64 :=
  let image_height :=
    f64_as_u32
      (f64_max (fround (u32_as_f64 (Camera.image_width self)
                        / Camera.aspect_ratio self)) (lit 1)) in
  let center := Camera.lookfrom self in
  let theta := degrees_to_radians (Camera.vfov self) in
  let h := ftan (theta / lit 2) in
  let viewport_height := lit 2 * h * Camera.focus_dist self in
  let viewport_width :=
    viewport_height
    * (u32_as_f64 (Camera.image_width self) / u32_as_f64 image_height) in
  let w := Vec3_normalized (Vec3_sub (Camera.lookfrom self) (Camera.lookat self)) in
  let u := Vec3_normalized (Vec3_cross (Camera.vup self) w) in
  let v := Vec3_cross w u in
  let viewport_u := f64_mul_Vec3 viewport_width u in
  let viewport_v := f64_mul_Vec3 viewport_height (Vec3_neg v) in
  let pixel_delta_u := Vec3_div viewport_u (u32_as_f64 (Camera.image_width self)) in
  let pixel_delta_v := Vec3_div viewport_v (u32_as_f64 image_height) in
  let viewport_upper_left :=
    Vec3_sub
      (Vec3_sub
         (Vec3_sub center (f64_mul_Vec3 (Camera.focus_dist self) w))
         (Vec3_div viewport_u (lit 2)))
      (Vec3_div viewport_v (lit 2)) in
  let pixel00_loc :=
    Vec3_add viewport_upper_left
             (f64_mul_Vec3 (lit 0.5) (Vec3_add pixel_delta_u pixel_delta_v)) in
  let defocus_radius :=
    Camera.focus_dist self
    * ftan (degrees_to_radians (Camera.defocus_angle self / lit 2)) in
  let defocus_disk_u := Vec3_mul_f64 u defocus_radius in
  let defocus_disk_v := Vec3_mul_f64 v defocus_radius in
  Camera.mk (Camera.aspect_ratio self) (Camera.image_width self)
            (Camera.samples_per_pixel self) (Camera.max_depth self)
            (Camera.vfov self) (Camera.lookfrom self) (Camera.lookat self)
            (Camera.vup self) (Camera.defocus_angle self) (Camera.focus_dist self)
            u v w (Camera.pixel_sample_scale self) image_height center
            pixel00_loc pixel_delta_u pixel_delta_v defocus_disk_u defocus_disk_v.

Definition Camera_new (aspect_ratio : f64) (image_width samples_per_pixel
    max_depth : N) (vfov : f64) (lookfrom lookat vup : Vec3.Self f64)
    (defocus_angle focus_dist : f64) : Camera.Self f64 :=
  let cam :=
    Camera.mk aspect_ratio image_width samples_per_pixel max_depth vfov
              lookfrom lookat vup defocus_angle focus_dist
              Vec3_default Vec3_default Vec3_default
              (lit 1 / u32_as_f64 samples_per_pixel)
              0%N
              Vec3_default Vec3_default Vec3_default Vec3_default
              Vec3_default Vec3_default in
  let cam := Camera_initialize cam in
  cam.
End CameraSetup.

(** ** camera.rs: [render] *)

Section Render.
Context {f64 : Type} `{Scalar f64}.

(** [n as u32] on a [usize]. *)
Definition usize_as_u32 (n : N) : N := (n mod 4294967296)%N.

(** [a * b] on [u32] when the product fits.  On overflow the program
    panics or wraps, as the build has it: that case is left open. *)
Definition u32_mul (a b : N) : option N :=
  if (a * b <? 4294967296)%N then Some (a * b)%N else None.

(** The [{}] of a [u32]. *)
Definition u32_to_string (n : N) : string :=
  DecimalString.NilZero.string_of_uint (N.to_uint n).

(** The loop [for _sample in 0..self.samples_per_pixel] of the closure,
    [samples] turns of it. *)
Fixpoint Camera_render_samples {W : Type} {world_hit : Hittable W}
    (self : Camera.Self f64) (world : W) (i j_for_ray : N) (samples : nat)
    (accumulated_color : Vec3.Self f64) : Rand f64 (Vec3.Self f64) :=
  match samples with
  | O => ret accumulated_color
  | S samples' =>
      r <- Camera_get_ray self i j_for_ray ;;
      c <- Camera_ray_color self r (N.to_nat (Camera.max_depth self)) world ;;
      Camera_render_samples self world i j_for_ray samples'
                            (Vec3_add_assign accumulated_color c)
  end.

(** The closure of the parallel map: the colour of the pixel [pixel_idx].
    It runs only for [pixel_idx < num_pixels], so never with an
    [image_width] of 0. *)
Definition Camera_render_pixel {W : Type} {world_hit : Hittable W}
    (self : Camera.Self f64) (world : W) (pixel_idx : N)
    : Rand f64 (Vec3.Self f64) :=
  let i := usize_as_u32 (pixel_idx mod Camera.image_width self) in
  let j_for_ray := usize_as_u32 (pixel_idx / Camera.image_width self) in
  accumulated_color <-
    Camera_render_samples self world i j_for_ray
                          (N.to_nat (Camera.samples_per_pixel self)) Vec3_zero ;;
  ret (Vec3_mul_f64 accumulated_color (Camera.pixel_sample_scale self)).

(** [collect()]: the results in the order of the indices, once every
    closure has returned. *)
Fixpoint collect {A : Type} (results : list (option A)) : option (list A) :=
  match results with
  | [] => Some []
  | Some a :: results' =>
      match collect results' with
      | Some l => Some (a :: l)
      | None => None
      end
  | None :: _ => None
  end.

(** The sequential part of [render]: the header and one [write_color]
    per pixel, into the text of standard output. *)
Definition Camera_render_write (self : Camera.Self f64)
    (pixel_colors : list (Vec3.Self f64)) : string :=
  let newline := String (Ascii.ascii_of_nat 10) "" in
  let output_buffer := ""%string in
  let output_buffer := (output_buffer ++ "P3" ++ newline)%string in
  let output_buffer :=
    (output_buffer ++ u32_to_string (Camera.image_width self) ++ " "
       ++ u32_to_string (Camera.image_height self) ++ newline)%string in
  let output_buffer := (output_buffer ++ "255" ++ newline)%string in
  fold_left write_color pixel_colors output_buffer.

(** [render].  Every call of the closure draws from the generator of the
    thread that runs it; [draws k] is the tape the call for pixel [k]
    reads.  The progress messages on standard error are left out.
    [None]: the number of pixels overflows, or a closure has not
    returned. *)
Definition Camera_render {W : Type} {world_hit : Hittable W}
    (self : Camera.Self f64) (world : W) (draws : N -> Rng f64)
    : option string :=
  match u32_mul (Camera.image_width self) (Camera.image_height self) with
  | Some num_pixels =>
      let results :=
        map (fun k : nat =>
               match Camera_render_pixel self world (N.of_nat k)
                                         (draws (N.of_nat k)) with
               | Some (color, _) => Some color
               | None => None
               end)
            (seq 0 (N.to_nat num_pixels)) in
      match collect results with
      | Some pixel_colors => Some (Camera_render_write self pixel_colors)
      | None => None
      end
  | None => None
  end.
End Render.

(** ** Specification-side definitions *)

Section Specification.
Context {f64 : Type} `{Scalar f64}.

Local Open Scope f64_scope.

(** The record the contract of [Sphere::hit] describes for the root
    [root]: the point of the ray at [root], the outward normal turned
    against the ray, and the sphere's material. *)
Definition Sphere_hit_record (self : Sphere.Self f64) (r : Ray.Self f64)
    (root : f64) : HitRecord.Self f64 :=
  let p := Ray_at r root in
  let outward_normal := Vec3_div (Vec3_sub p (Sphere.center self)) (Sphere.radius self) in
  let front_face := Vec3_dot (Ray.dir r) outward_normal <? lit 0 in
  HitRecord.mk p
               (if front_face then outward_normal else Vec3_neg outward_normal)
               root (Sphere.mat self) front_face.

(** The quantities of the quadratic [a t^2 - 2 h t + c = 0]. *)
Definition quadratic_a (r : Ray.Self f64) : f64 :=
  Vec3_length_squared (Ray.dir r).

Definition quadratic_h (self : Sphere.Self f64) (r : Ray.Self f64) : f64 :=
  Vec3_dot (Ray.dir r) (Vec3_sub (Sphere.center self) (Ray.orig r)).

Definition quadratic_c (self : Sphere.Self f64) (r : Ray.Self f64) : f64 :=
  Vec3_length_squared (Vec3_sub (Sphere.center self) (Ray.orig r))
  - Sphere.radius self * Sphere.radius self.

Definition quadratic_discriminant (self : Sphere.Self f64) (r : Ray.Self f64) : f64 :=
  quadratic_h self r * quadratic_h self r - quadratic_a r * quadratic_c self r.

Definition smaller_root (self : Sphere.Self f64) (r : Ray.Self f64) : f64 :=
  (quadratic_h self r - fsqrt (quadratic_discriminant self r)) / quadratic_a r.

Definition larger_root (self : Sphere.Self f64) (r : Ray.Self f64) : f64 :=
  (quadratic_h self r + fsqrt (quadratic_discriminant self r)) / quadratic_a r.

(** One turn of the rejection loop of [random_in_unit_sphere] on the
    draws [u1], [u2], [u3]: the candidate point, and whether it is kept. *)
Definition sphere_candidate (u1 u2 u3 : f64) : Vec3.Self f64 :=
  Vec3.new (- lit 1 + (lit 1 - - lit 1) * u1)
           (- lit 1 + (lit 1 - - lit 1) * u2)
           (- lit 1 + (lit 1 - - lit 1) * u3).

Definition sphere_candidate_kept (u1 u2 u3 : f64) : bool :=
  Vec3_length_squared (sphere_candidate u1 u2 u3) <? lit 1.

(** The tape holds a candidate that the rejection loop keeps. *)
Inductive tape_accepts : Rng f64 -> Prop :=
| accepts_here (u1 u2 u3 : f64) (rng : Rng f64) :
    sphere_candidate_kept u1 u2 u3 = true ->
    tape_accepts (u1 :: u2 :: u3 :: rng)
| accepts_later (u1 u2 u3 : f64) (rng : Rng f64) :
    tape_accepts rng ->
    tape_accepts (u1 :: u2 :: u3 :: rng).

(** The channel pipeline of [write_color], in the specification's words: gamma
    encoding, the clamp to [0, 0.999], the scaling by 255.999, and the
    cast to a byte. *)
Definition gamma_clamped (x : f64) : f64 :=
  Interval_clamp (Interval.new (lit 0.000) (lit 0.999)) (linear_to_gamma x).

Definition channel_byte (x : f64) : Z :=
  f64_as_u8 (lit 255.999 * gamma_clamped x).

(** The hits the members of a list report, each on the whole interval,
    in the order of the list. *)
Definition member_hits (objects : list (dynHittable f64)) (r : Ray.Self f64)
    (ray_t : Interval.Self f64) : list (HitRecord.Self f64) :=
  flat_map (fun object =>
              match dynHittable_hit object r ray_t with
              | Some rec => [rec]
              | None => []
              end) objects.

(** The better of the best record so far and a new one: the new one only
    when it is strictly closer. *)
Definition nearer (best : option (HitRecord.Self f64)) (rec : HitRecord.Self f64)
    : option (HitRecord.Self f64) :=
  match best with
  | None => Some rec
  | Some b => if HitRecord.t rec <? HitRecord.t b then Some rec else Some b
  end.

(** The first record of smallest [t]. *)
Definition first_nearest (hits : list (HitRecord.Self f64))
    : option (HitRecord.Self f64) :=
  fold_left nearer hits None.

(** A hit, kept only when it lies strictly below [c]. *)
Definition narrow (c : f64) (h : option (HitRecord.Self f64))
    : option (HitRecord.Self f64) :=
  match h with
  | Some rec => if HitRecord.t rec <? c then Some rec else None
  | None => None
  end.

(** One turn of the loop of [HittableList::hit], seen from the hit the
    object reports on the whole interval. *)
Definition loop_step (state : option (HitRecord.Self f64) * f64)
    (rec : HitRecord.Self f64) : option (HitRecord.Self f64) * f64 :=
  if HitRecord.t rec <? snd state then (Some rec, HitRecord.t rec) else state.
End Specification.

(** A vector of three real numbers, as [f64] values. *)
Definition Vec3_of_R (a b c : R) : Vec3.Self ereal :=
  Vec3.new (Fin a) (Fin b) (Fin c).

(** What [HittableList::hit] relies on in a member: a hit lies strictly
    inside the interval, at a real [t]; and on an interval cut down to
    [(min, gamma)] the member reports the hit it reports on [(min, max)]
    when that one lies below [gamma], and nothing otherwise. *)
Definition Hittable_contract (object : dynHittable ereal) : Prop :=
  forall (r : Ray.Self ereal) (mn mx : ereal),
    (forall rec,
        dynHittable_hit object r (Interval.new mn mx) = Some rec ->
        exists tau, HitRecord.t rec = Fin tau
                    /\ eltb mn (Fin tau) = true /\ eltb (Fin tau) mx = true)
    /\ (forall gamma,
           eltb (Fin gamma) mx = true ->
           dynHittable_hit object r (Interval.new mn (Fin gamma))
           = narrow (Fin gamma) (dynHittable_hit object r (Interval.new mn mx))).

(** A record whose [t] is a real number strictly inside [(mn, mx)]. *)
Definition hit_inside (mn mx : ereal) (rec : HitRecord.Self ereal) : Prop :=
  exists tau, HitRecord.t rec = Fin tau
              /\ eltb mn (Fin tau) = true /\ eltb (Fin tau) mx = true.

(** Induction on an [Arc<dyn Hittable>], with the property of a list's
    members at hand. *)
Fixpoint dynHittable_Forall_ind (f64 : Type) (P : dynHittable f64 -> Prop)
    (Hsphere : forall s, P (DynSphere s))
    (Hlist : forall objects, Forall P objects -> P (DynList objects))
    (object : dynHittable f64) : P object :=
  match object with
  | DynSphere s => Hsphere s
  | DynList objects =>
      Hlist objects
        ((fix members (l : list (dynHittable f64)) : Forall P l :=
            match l with
            | [] => Forall_nil P
            | o :: l' =>
                Forall_cons o (dynHittable_Forall_ind Hsphere Hlist o) (members l')
            end) objects)
  end.

Section Refraction.
Context {f64 : Type} `{Scalar f64}.
Local Open Scope f64_scope.

(** The quantities [ri], [cos_theta] and [cant_refract] of
    [Dielectric::scatter]. *)
Definition Dielectric_ri (self : Dielectric.Self f64) (rec : HitRecord.Self f64)
    : f64 :=
  if HitRecord.front_face rec then lit 1 / Dielectric.ir self
  else Dielectric.ir self.

Definition Dielectric_cos_theta (r_in : Ray.Self f64) (rec : HitRecord.Self f64)
    : f64 :=
  f64_min (Vec3_dot (HitRecord.normal rec)
                    (Vec3_neg (Vec3_normalized (Ray.dir r_in)))) (lit 1).

Definition Dielectric_cant_refract (self : Dielectric.Self f64)
    (r_in : Ray.Self f64) (rec : HitRecord.Self f64) : bool :=
  Dielectric_ri self rec
  * fsqrt (lit 1 - Dielectric_cos_theta r_in rec * Dielectric_cos_theta r_in rec)
  >? lit 1.
End Refraction.

(** A draw of [random_f64()]: a real number of [[0,1)]. *)
Definition unit_draw (u : ereal) : Prop :=
  exists a : R, u = Fin a /\ (0 <= a < 1)%R.

(** The attenuation a material reports is a triple of real numbers. *)
Definition real_albedo (mat : dynMaterial ereal) : Prop :=
  match mat with
  | DynLambertian m => exists a b c : R, Lambertian.albedo m = Vec3_of_R a b c
  | DynMetal m => exists a b c : R, Metal.albedo m = Vec3_of_R a b c
  | DynDielectric _ | NullMaterial => True
  end.

(** A camera at the origin that looks down the negative [z] axis, with a
    field of view of 90 degrees, an image of 2 by 2 pixels, one sample
    per pixel and no defocus blur. *)
Definition pinhole_camera : Camera.Self ereal :=
  Camera_new (Fin 1) 2 1 1 (Fin 90) (Vec3_of_R 0 0 0) (Vec3_of_R 0 0 (-1))
             (Vec3_of_R 0 1 0) (Fin 0) (Fin 1).

(** A camera of one pixel that looks down the negative [z] axis, in
    binary64. *)
Definition one_pixel_camera : Camera.Self PrimFloat.float :=
  @Camera.mk PrimFloat.float
    (lit 1) 1%N 1%N 1%N (lit 90)
    (Vec3.new (lit 0) (lit 0) (lit 0)) (Vec3.new (lit 0) (lit 0) (lit (-1)))
    (Vec3.new (lit 0) (lit 1) (lit 0))
    (lit 0) (lit 1)
    (Vec3.new (lit 1) (lit 0) (lit 0)) (Vec3.new (lit 0) (lit 1) (lit 0))
    (Vec3.new (lit 0) (lit 0) (lit 1))
    (lit 1) 1%N
    (Vec3.new (lit 0) (lit 0) (lit 0)) (Vec3.new (lit 0) (lit 0) (lit (-1)))
    (Vec3.new (lit 2) (lit 0) (lit 0)) (Vec3.new (lit 0) (lit (-2)) (lit 0))
    (Vec3.new (lit 0) (lit 0) (lit 0)) (Vec3.new (lit 0) (lit 0) (lit 0)).

(** The number of line ends in a text. *)
Fixpoint count_newlines (s : string) : nat :=
  match s with
  | EmptyString => 0
  | String c s' =>
      (if Ascii.eqb c (Ascii.ascii_of_nat 10) then 1 else 0) + count_newlines s'
  end.

(** ** Tactics *)

(** Literals become quotients of integer constants. *)
Ltac lits := unfold Q2R; cbn [Qnum Qden].

Ltac decide_R_step :=
  match goal with
  | |- context [Rlt_dec ?a ?b] => destruct (Rlt_dec a b)
  | |- context [Rle_dec ?a ?b] => destruct (Rle_dec a b)
  | |- context [Req_dec_T ?a ?b] => destruct (Req_dec_T a b)
  end.

(** Unfold the vector operations down to the components. *)
Ltac vec_unfold :=
  unfold Vec3_reflect, Vec3_normalized, Ray_at, Vec3_length, Vec3_div,
    f64_mul_Vec3, Vec3_mul_f64, Vec3_mul, Vec3_sub, Vec3_add, Vec3_neg, Vec3_dot,
    Vec3_length_squared, Vec3_of_R in *.

(** Evaluate the [ereal] operations, splitting on every comparison of
    reals and closing the branches that contradict each other. *)
Ltac ecases :=
  cbn; lits;
  repeat (first [decide_R_step | progress unfold sign_inf]; cbn);
  try congruence; try (exfalso; lra).

(** ** Theorems that hold in every number model *)

Section Generic.
Context {f64 : Type} `{Scalar f64}.

Local Open Scope f64_scope.

Lemma Sphere_hit_unfold (self : Sphere.Self f64) (r : Ray.Self f64)
    (ray_t : Interval.Self f64) :
  Sphere_hit self r ray_t =
    if quadratic_discriminant self r <? lit 0 then None
    else if Interval_surrounds ray_t (smaller_root self r)
         then Some (Sphere_hit_record self r (smaller_root self r))
    else if Interval_surrounds ray_t (larger_root self r)
         then Some (Sphere_hit_record self r (larger_root self r))
    else None.
Proof.
  unfold Sphere_hit, smaller_root, larger_root, quadratic_discriminant,
    quadratic_h, quadratic_a, quadratic_c.
  destruct (_ <? lit 0); [reflexivity|].
  cbv zeta.
  destruct (Interval_surrounds ray_t _); [reflexivity|].
  destruct (Interval_surrounds ray_t _); reflexivity.
Qed.


Lemma Vec3_random_interval_cons (mn mx u1 u2 u3 : f64) (rng : Rng f64) :
  Vec3_random_interval mn mx (u1 :: u2 :: u3 :: rng)
  = Some (Vec3.new (mn + (mx - mn) * u1) (mn + (mx - mn) * u2)
                   (mn + (mx - mn) * u3), rng).
Proof. reflexivity. Qed.

Lemma Vec3_random_in_unit_sphere_loop_returns (rng : Rng f64) :
  tape_accepts rng ->
  forall fuel, (length rng <= 3 * fuel)%nat ->
  exists p rng', Vec3_random_in_unit_sphere_loop fuel rng = Some (p, rng')
                 /\ (Vec3_length_squared p <? lit 1) = true.
Proof.
  induction 1 as [u1 u2 u3 rng Hk|u1 u2 u3 rng Hacc IH]; intros fuel Hfuel;
    (destruct fuel as [|fuel]; [simpl in Hfuel; lia|]);
    cbn [Vec3_random_in_unit_sphere_loop]; unfold bind at 1;
    rewrite Vec3_random_interval_cons; fold (sphere_candidate u1 u2 u3).
  - unfold sphere_candidate_kept in Hk. rewrite Hk.
    do 2 eexists. split; [reflexivity|exact Hk].
  - destruct (_ <? _) eqn:Hk; [do 2 eexists; split; [reflexivity|exact Hk]|].
    apply IH. simpl in Hfuel. lia.
Qed.


Lemma Sphere_hit_Some_record (self : Sphere.Self f64)
    (r : Ray.Self f64) (ray_t : Interval.Self f64) (rec : HitRecord.Self f64) :
  Sphere_hit self r ray_t = Some rec ->
  rec = Sphere_hit_record self r (HitRecord.t rec)
  /\ Interval_surrounds ray_t (HitRecord.t rec) = true.
Proof.
  rewrite Sphere_hit_unfold.
  destruct (flt _ _); [discriminate|].
  destruct (Interval_surrounds ray_t (smaller_root self r)) eqn:H1.
  - intros [= <-]. split; [reflexivity|exact H1].
  - destruct (Interval_surrounds ray_t (larger_root self r)) eqn:H2; [|discriminate].
    intros [= <-]. split; [reflexivity|exact H2].
Qed.

Lemma Metal_scatter_unfold (self : Metal.Self f64)
    (r_in : Ray.Self f64) (rec : HitRecord.Self f64) (rng : Rng f64) :
  Metal_scatter self r_in rec rng
  = match Vec3_random_unit_vector rng with
    | Some (u, rng') =>
        Some (Some (Ray.new (HitRecord.p rec)
                      (Vec3_add
                         (Vec3_normalized
                            (Vec3_reflect (Ray.dir r_in) (HitRecord.normal rec)))
                         (f64_mul_Vec3
                            (f64_max (f64_min (Metal.fuzz self) (lit 1)) (lit 0))
                            u)),
                    Metal.albedo self), rng')
    | None => None
    end.
Proof.
  unfold Metal_scatter, bind.
  destruct (Vec3_random_unit_vector rng) as [[u rng']|]; reflexivity.
Qed.

Lemma HittableList_hit_loop_Some
    (object_hit : dynHittable f64 -> Ray.Self f64 -> Interval.Self f64
                  -> option (HitRecord.Self f64))
    (r : Ray.Self f64) (ray_t : Interval.Self f64)
    (objects : list (dynHittable f64)) :
  forall (b : HitRecord.Self f64) (c : f64),
    HittableList_hit_loop object_hit r ray_t objects (Some b) c <> None.
Proof.
  induction objects as [|o objects IH]; intros b c; cbn [HittableList_hit_loop];
    [discriminate|].
  destruct (object_hit o r _); apply IH.
Qed.

(** What the loop of [HittableList::hit] does with one more object at the
    end: it tests it against the upper bound the earlier objects left. *)
Lemma HittableList_hit_loop_snoc
    (object_hit : dynHittable f64 -> Ray.Self f64 -> Interval.Self f64
                  -> option (HitRecord.Self f64))
    (r : Ray.Self f64) (ray_t : Interval.Self f64)
    (objects : list (dynHittable f64)) (object : dynHittable f64) :
  forall (best : option (HitRecord.Self f64)) (c : f64),
    (forall b, best = Some b -> c = HitRecord.t b) ->
    HittableList_hit_loop object_hit r ray_t (objects ++ [object]) best c
    = match object_hit object r
              (Interval.new (Interval.min ray_t)
                 match HittableList_hit_loop object_hit r ray_t objects best c with
                 | Some b => HitRecord.t b
                 | None => c
                 end) with
      | Some rec => Some rec
      | None => HittableList_hit_loop object_hit r ray_t objects best c
      end.
Proof.
  induction objects as [|o objects IH]; intros best c Hinv.
  - cbn [app HittableList_hit_loop].
    destruct best as [b|]; [rewrite <- (Hinv b eq_refl)|]; reflexivity.
  - cbn [app HittableList_hit_loop].
    destruct (object_hit o r _) as [rec|]; [|apply IH; exact Hinv].
    rewrite IH by (now intros b [= <-]).
    destruct (HittableList_hit_loop object_hit r ray_t objects (Some rec) _) eqn:E;
      [reflexivity|].
    now apply HittableList_hit_loop_Some in E.
Qed.

Lemma HittableList_hit_add (self : HittableList.Self f64)
    (object : dynHittable f64) (r : Ray.Self f64) (ray_t : Interval.Self f64) :
  HittableList_hit (HittableList_add self object) r ray_t
  = match dynHittable_hit object r
            (Interval.new (Interval.min ray_t)
               match HittableList_hit self r ray_t with
               | Some best => HitRecord.t best
               | None => Interval.max ray_t
               end) with
    | Some rec => Some rec
    | None => HittableList_hit self r ray_t
    end.
Proof.
  unfold HittableList_hit, HittableList_add. cbn [HittableList.objects].
  apply HittableList_hit_loop_snoc. discriminate.
Qed.
End Generic.

(** C3. [ray_color] with remaining depth 0 returns the black colour
    [(0,0,0)], whatever the ray and the scene, and draws nothing from the
    random source: the scene's [hit] is any function at all. *)
Theorem ray_color_depth_zero_is_black :
  forall (f64 : Type) (S : Scalar f64) (W : Type) (world_hit : Hittable W)
         (self : Camera.Self f64) (r : Ray.Self f64) (world : W)
         (rng : Rng f64),
    Camera_ray_color self r 0 world rng
    = Some (Vec3.new (lit 0) (lit 0) (lit 0), rng).
Proof.
  intros. reflexivity.
Qed.

(** C8. Indexing a [Vec3] with 0, 1 or 2 gives [x], [y] or [z], for a
    read and for a mutable access (which reads that component and writes
    only it); every larger index, [3 + k], panics with the out-of-bounds
    message and gives no value. *)
Theorem Vec3_index_in_and_out_of_range :
  forall (f64 : Type) (self : Vec3.Self f64) (k : N) (a : f64),
    (Vec3_index self 0 = Returned (Vec3.x self)
     /\ Vec3_index self 1 = Returned (Vec3.y self)
     /\ Vec3_index self 2 = Returned (Vec3.z self))
    /\ (exists rx ry rz,
          Vec3_index_mut self 0 = Returned rx
          /\ Vec3_index_mut self 1 = Returned ry
          /\ Vec3_index_mut self 2 = Returned rz
          /\ deref rx = Vec3.x self /\ deref ry = Vec3.y self
          /\ deref rz = Vec3.z self
          /\ assign rx a = Vec3.new a (Vec3.y self) (Vec3.z self)
          /\ assign ry a = Vec3.new (Vec3.x self) a (Vec3.z self)
          /\ assign rz a = Vec3.new (Vec3.x self) (Vec3.y self) a)
    /\ Vec3_index self (3 + k) = Panicked "Index out of bounds for Vec3"%string
    /\ Vec3_index_mut self (3 + k) = Panicked "Index out of bounds for Vec3"%string.
Proof.
  intros f64 self k a.
  split; [repeat split|].
  split; [do 3 eexists; repeat split|].
  assert (Hk : exists q, (3 + k)%N = N.pos q /\ q <> 1%positive /\ q <> 2%positive).
  { destruct k as [|q]; [exists 3%positive; repeat split; discriminate|].
    exists (3 + q)%positive. repeat split; lia. }
  destruct Hk as (q & -> & H1 & H2).
  unfold Vec3_index, Vec3_index_mut.
  destruct q as [q|q|]; try destruct q; try congruence; split; reflexivity.
Qed.

(** ** Theorems in exact arithmetic *)

Local Open Scope R_scope.







Lemma f64_is_nan_ereal (u : ereal) :
  f64_is_nan u = match u with NaN => true | _ => false end.
Proof. unfold f64_is_nan. destruct u; ecases; reflexivity. Qed.

(** *** color.rs *)

Lemma Int_part_bounds (a : R) (n : Z) :
  0 <= a < IZR n + 1 -> (0 <= Int_part a <= n)%Z.
Proof.
  intros [H0 Hn]. destruct (base_Int_part a) as [Hl Hu].
  split; apply Z.lt_succ_r; apply lt_IZR; rewrite succ_IZR; lra.
Qed.



Lemma channel_byte_of_zero : channel_byte (Fin 0) = 0%Z.
Proof.
  unfold channel_byte, gamma_clamped, Interval_clamp, linear_to_gamma, f64_as_u8.
  ecases.
  replace (255999 * / 1000 * (0 * / 1)) with 0 by lra.
  rewrite <- (Int_part_spec 0 0); [reflexivity|]. simpl. lra.
Qed.

Lemma channel_byte_of_one : channel_byte (Fin 1) = 255%Z.
Proof.
  unfold channel_byte, gamma_clamped, Interval_clamp, linear_to_gamma, f64_as_u8.
  cbn. lits. destruct (Rlt_dec (0 * / 1) 1); [|exfalso; lra]. cbn. rewrite sqrt_1.
  ecases.
  rewrite <- (Int_part_spec _ 255); [reflexivity|]. simpl. lra.
Qed.


(** *** vec3.rs *)

Lemma Vec3_reflect_of_R (vx vy vz nx ny nz : R) :
  Vec3_reflect (Vec3_of_R vx vy vz) (Vec3_of_R nx ny nz)
  = Vec3_of_R (vx - 2 * (vx * nx + vy * ny + vz * nz) * nx)
              (vy - 2 * (vx * nx + vy * ny + vz * nz) * ny)
              (vz - 2 * (vx * nx + vy * ny + vz * nz) * nz).
Proof.
  vec_unfold. cbn. lits. f_equal; f_equal; field.
Qed.



(** *** material.rs *)




(** *** hittable.rs and sphere.rs *)

Lemma Interval_surrounds_Fin (mn mx u : ereal) :
  Interval_surrounds (Interval.new mn mx) u = true ->
  exists tau, u = Fin tau /\ eltb mn (Fin tau) = true /\ eltb (Fin tau) mx = true.
Proof.
  unfold Interval_surrounds. cbn [Interval.min Interval.max flt ereal_scalar].
  intros [H1 H2]%andb_prop.
  destruct u as [tau| | |].
  - exists tau. auto.
  - destruct mx; discriminate.
  - destruct mn; discriminate.
  - destruct mn; discriminate.
Qed.


(** [Sphere::hit] on real data, from the real numbers of the quadratic:
    [A = |dir|^2], [Hh = dir . oc], [D] the discriminant and [sq] its
    square root. *)
Lemma Sphere_hit_exact (cx cy cz rho ox oy oz dx dy dz A Hh D sq : R)
    (mat : dynMaterial ereal) (ray_t : Interval.Self ereal) :
  A = dx * dx + dy * dy + dz * dz ->
  Hh = dx * (cx - ox) + dy * (cy - oy) + dz * (cz - oz) ->
  D = Hh * Hh
      - A * ((cx - ox) * (cx - ox) + (cy - oy) * (cy - oy) + (cz - oz) * (cz - oz)
             - rho * rho) ->
  A <> 0 -> 0 <= sq -> sq * sq = D ->
  forall self r,
    self = Sphere.new (Vec3_of_R cx cy cz) (Fin rho) mat ->
    r = Ray.new (Vec3_of_R ox oy oz) (Vec3_of_R dx dy dz) ->
    Sphere_hit self r ray_t
    = if Interval_surrounds ray_t (Fin ((Hh - sq) / A))
      then Some (Sphere_hit_record self r (Fin ((Hh - sq) / A)))
      else if Interval_surrounds ray_t (Fin ((Hh + sq) / A))
           then Some (Sphere_hit_record self r (Fin ((Hh + sq) / A)))
           else None.
Proof.
  intros HA HH HD HA0 Hsq0 Hsq self r -> ->.
  rewrite Sphere_hit_unfold.
  assert (Hdisc : quadratic_discriminant
                    (Sphere.new (Vec3_of_R cx cy cz) (Fin rho) mat)
                    (Ray.new (Vec3_of_R ox oy oz) (Vec3_of_R dx dy dz)) = Fin D).
  { unfold quadratic_discriminant, quadratic_h, quadratic_a, quadratic_c.
    vec_unfold. cbn. f_equal. subst. ring. }
  assert (HD0 : 0 <= D) by nra.
  assert (Hsqrt : sqrt D = sq) by (apply sqrt_lem_1; lra).
  assert (Hs : smaller_root
                 (Sphere.new (Vec3_of_R cx cy cz) (Fin rho) mat)
                 (Ray.new (Vec3_of_R ox oy oz) (Vec3_of_R dx dy dz))
               = Fin ((Hh - sq) / A)).
  { unfold smaller_root. rewrite Hdisc.
    unfold quadratic_h, quadratic_a. vec_unfold. cbn.
    destruct (Rlt_dec D 0); [exfalso; lra|]. cbn.
    destruct (Req_dec_T _ 0) as [E|E]; [exfalso; apply HA0; rewrite HA; exact E|].
    f_equal. rewrite Hsqrt. subst A Hh. unfold Rminus, Rdiv. reflexivity. }
  assert (Hl : larger_root
                 (Sphere.new (Vec3_of_R cx cy cz) (Fin rho) mat)
                 (Ray.new (Vec3_of_R ox oy oz) (Vec3_of_R dx dy dz))
               = Fin ((Hh + sq) / A)).
  { unfold larger_root. rewrite Hdisc.
    unfold quadratic_h, quadratic_a. vec_unfold. cbn.
    destruct (Rlt_dec D 0); [exfalso; lra|]. cbn.
    destruct (Req_dec_T _ 0) as [E|E]; [exfalso; apply HA0; rewrite HA; exact E|].
    f_equal. rewrite Hsqrt. subst A Hh. unfold Rminus, Rdiv. reflexivity. }
  rewrite Hdisc, Hs, Hl. cbn [flt lit ereal_scalar eltb]. lits.
  destruct (Rlt_dec D _); [exfalso; lra|]. reflexivity.
Qed.

Lemma flt_Fin_0 (a : R) :
  flt (Fin a) (lit 0) = if Rlt_dec a 0 then true else false.
Proof. ecases; reflexivity. Qed.

(** The record of [Sphere::hit] on real data with a non-zero radius, from
    the real coordinates of the point and of the outward normal. *)
Lemma Sphere_hit_record_exact
    (cx cy cz rho ox oy oz dx dy dz t px py pz nx ny nz : R)
    (mat : dynMaterial ereal) :
  rho <> 0 ->
  px = ox + t * dx -> py = oy + t * dy -> pz = oz + t * dz ->
  nx = (px - cx) / rho -> ny = (py - cy) / rho -> nz = (pz - cz) / rho ->
  Sphere_hit_record (Sphere.new (Vec3_of_R cx cy cz) (Fin rho) mat)
                    (Ray.new (Vec3_of_R ox oy oz) (Vec3_of_R dx dy dz)) (Fin t)
  = HitRecord.mk (Vec3_of_R px py pz)
      (if Rlt_dec (dx * nx + dy * ny + dz * nz) 0 then Vec3_of_R nx ny nz
       else Vec3_of_R (- nx) (- ny) (- nz))
      (Fin t) mat
      (if Rlt_dec (dx * nx + dy * ny + dz * nz) 0 then true else false).
Proof.
  intros Hrho Hpx Hpy Hpz Hnx Hny Hnz.
  unfold Sphere_hit_record.
  cbn [Ray.orig Ray.dir Sphere.center Sphere.radius Sphere.mat].
  assert (Hp : Ray_at (Ray.new (Vec3_of_R ox oy oz) (Vec3_of_R dx dy dz)) (Fin t)
               = Vec3_of_R px py pz).
  { vec_unfold. cbn. subst px py pz. f_equal; f_equal; ring. }
  rewrite Hp.
  assert (Hn : Vec3_div (Vec3_sub (Vec3_of_R px py pz) (Vec3_of_R cx cy cz)) (Fin rho)
               = Vec3_of_R nx ny nz).
  { vec_unfold. cbn. lits. destruct (Req_dec_T rho 0); [contradiction|]. cbn.
    subst nx ny nz. f_equal; f_equal; field; assumption. }
  rewrite Hn.
  assert (Hd : Vec3_dot (Vec3_of_R dx dy dz) (Vec3_of_R nx ny nz)
               = Fin (dx * nx + dy * ny + dz * nz)) by reflexivity.
  rewrite Hd, flt_Fin_0.
  destruct (Rlt_dec _ 0); reflexivity.
Qed.

(** The unit sphere centred at [(0, 0, -3)], hit head-on from the
    origin; and the same on an interval that ends at the hit. *)
Lemma unit_sphere_hit_head_on (mat : dynMaterial ereal) :
  Sphere_hit (Sphere.new (Vec3_of_R 0 0 (-3)) (Fin 1) mat)
             (Ray.new (Vec3_of_R 0 0 0) (Vec3_of_R 0 0 (-1)))
             (Interval.new (lit 0.001) INFINITY)
  = Some (HitRecord.mk (Vec3_of_R 0 0 (-2)) (Vec3_of_R 0 0 1) (Fin 2) mat true).
Proof.
  rewrite (@Sphere_hit_exact 0 0 (-3) 1 0 0 0 0 0 (-1) 1 3 1 1 mat
             (Interval.new (lit 0.001) INFINITY)); try reflexivity; try lra.
  replace ((3 - 1) / 1) with 2 by lra.
  assert (Hs : Interval_surrounds (Interval.new (lit 0.001) INFINITY) (Fin 2) = true)
    by (unfold Interval_surrounds; ecases; reflexivity).
  rewrite Hs. f_equal.
  rewrite (@Sphere_hit_record_exact 0 0 (-3) 1 0 0 0 0 0 (-1) 2 0 0 (-2) 0 0 1);
    try lra.
  destruct (Rlt_dec _ 0); [reflexivity|exfalso; lra].
Qed.

Lemma unit_sphere_hit_cut (mat : dynMaterial ereal) :
  Sphere_hit (Sphere.new (Vec3_of_R 0 0 (-3)) (Fin 1) mat)
             (Ray.new (Vec3_of_R 0 0 0) (Vec3_of_R 0 0 (-1)))
             (Interval.new (lit 0.001) (Fin 2))
  = None.
Proof.
  rewrite (@Sphere_hit_exact 0 0 (-3) 1 0 0 0 0 0 (-1) 1 3 1 1 mat
             (Interval.new (lit 0.001) (Fin 2))); try reflexivity; try lra.
  replace ((3 - 1) / 1) with 2 by lra. replace ((3 + 1) / 1) with 4 by lra.
  assert (H2 : Interval_surrounds (Interval.new (lit 0.001) (Fin 2)) (Fin 2) = false)
    by (unfold Interval_surrounds; ecases; reflexivity).
  assert (H4 : Interval_surrounds (Interval.new (lit 0.001) (Fin 2)) (Fin 4) = false)
    by (unfold Interval_surrounds; ecases; reflexivity).
  now rewrite H2, H4.
Qed.






Lemma quadratic_discriminant_exact (cx cy cz rho ox oy oz dx dy dz : R)
    (mat : dynMaterial ereal) :
  quadratic_discriminant (Sphere.new (Vec3_of_R cx cy cz) (Fin rho) mat)
                         (Ray.new (Vec3_of_R ox oy oz) (Vec3_of_R dx dy dz))
  = Fin ((dx * (cx - ox) + dy * (cy - oy) + dz * (cz - oz))
         * (dx * (cx - ox) + dy * (cy - oy) + dz * (cz - oz))
         - (dx * dx + dy * dy + dz * dz)
           * ((cx - ox) * (cx - ox) + (cy - oy) * (cy - oy) + (cz - oz) * (cz - oz)
              - rho * rho)).
Proof.
  unfold quadratic_discriminant, quadratic_h, quadratic_a, quadratic_c.
  vec_unfold. cbn. f_equal.
Qed.

Lemma Interval_surrounds_NaN (ray_t : Interval.Self ereal) :
  Interval_surrounds ray_t NaN = false.
Proof.
  unfold Interval_surrounds. cbn [flt ereal_scalar].
  destruct (Interval.min ray_t); reflexivity.
Qed.

(** A ray with the zero direction hits nothing: both roots are [0 / 0]. *)
Lemma Sphere_hit_zero_direction (cx cy cz rho ox oy oz dx dy dz : R)
    (mat : dynMaterial ereal) (ray_t : Interval.Self ereal) :
  dx * dx + dy * dy + dz * dz = 0 ->
  Sphere_hit (Sphere.new (Vec3_of_R cx cy cz) (Fin rho) mat)
             (Ray.new (Vec3_of_R ox oy oz) (Vec3_of_R dx dy dz)) ray_t
  = None.
Proof.
  intros HA.
  assert (dx = 0 /\ dy = 0 /\ dz = 0) as (-> & -> & ->) by (repeat split; nra).
  set (self := Sphere.new (Vec3_of_R cx cy cz) (Fin rho) mat).
  set (r := Ray.new (Vec3_of_R ox oy oz) (Vec3_of_R 0 0 0)).
  assert (Ha : quadratic_a r = Fin 0).
  { unfold quadratic_a, r. vec_unfold. cbn. f_equal. ring. }
  assert (Hh : quadratic_h self r = Fin 0).
  { unfold quadratic_h, self, r. vec_unfold. cbn. f_equal. ring. }
  assert (Hd : quadratic_discriminant self r = Fin 0).
  { unfold self, r. rewrite quadratic_discriminant_exact. f_equal. ring. }
  assert (Hsq : esqrt (Fin 0) = Fin 0).
  { cbn. destruct (Rlt_dec 0 0); [exfalso; lra|]. now rewrite sqrt_0. }
  assert (Hs : smaller_root self r = NaN).
  { unfold smaller_root. rewrite Hd, Hh, Ha. cbn [fsqrt fsub fdiv ereal_scalar].
    rewrite Hsq. unfold sign_inf. ecases; reflexivity. }
  assert (Hl : larger_root self r = NaN).
  { unfold larger_root. rewrite Hd, Hh, Ha. cbn [fsqrt fadd fdiv ereal_scalar].
    rewrite Hsq. unfold sign_inf. ecases; reflexivity. }
  rewrite Sphere_hit_unfold, Hd, Hs, Hl, !Interval_surrounds_NaN.
  now destruct (flt _ _).
Qed.

(** On real data, the [t] of a hit is a root of
    [A t^2 - 2 Hh t + C = 0]. *)
Lemma Sphere_hit_root_of_quadratic (cx cy cz rho ox oy oz dx dy dz : R)
    (mat : dynMaterial ereal) (ray_t : Interval.Self ereal)
    (rec : HitRecord.Self ereal) :
  Sphere_hit (Sphere.new (Vec3_of_R cx cy cz) (Fin rho) mat)
             (Ray.new (Vec3_of_R ox oy oz) (Vec3_of_R dx dy dz)) ray_t
  = Some rec ->
  exists tau,
    HitRecord.t rec = Fin tau
    /\ (dx * dx + dy * dy + dz * dz) * (tau * tau)
       - 2 * (dx * (cx - ox) + dy * (cy - oy) + dz * (cz - oz)) * tau
       + ((cx - ox) * (cx - ox) + (cy - oy) * (cy - oy) + (cz - oz) * (cz - oz)
          - rho * rho)
       = 0.
Proof.
  intros Hhit.
  destruct (Req_dec_T (dx * dx + dy * dy + dz * dz) 0) as [HA|HA];
    [now rewrite (Sphere_hit_zero_direction _ _ _ _ _ _ _ _ _ HA) in Hhit|].
  set (A := dx * dx + dy * dy + dz * dz) in *.
  set (Hh := dx * (cx - ox) + dy * (cy - oy) + dz * (cz - oz)).
  set (C := (cx - ox) * (cx - ox) + (cy - oy) * (cy - oy) + (cz - oz) * (cz - oz)
            - rho * rho).
  destruct (Rlt_dec (Hh * Hh - A * C) 0) as [Hneg|Hpos].
  - exfalso. revert Hhit.
    rewrite Sphere_hit_unfold, quadratic_discriminant_exact, flt_Fin_0.
    fold A Hh C. destruct (Rlt_dec _ 0); [discriminate|contradiction].
  - assert (HD : 0 <= Hh * Hh - A * C) by lra.
    pose proof (sqrt_sqrt _ HD) as Hss. pose proof (sqrt_pos (Hh * Hh - A * C)) as Hs0.
    set (s := sqrt (Hh * Hh - A * C)) in *.
    assert (HC : C = (Hh * Hh - s * s) / A) by (rewrite Hss; field; exact HA).
    rewrite (@Sphere_hit_exact cx cy cz rho ox oy oz dx dy dz A Hh
               (Hh * Hh - A * C) s mat ray_t) in Hhit;
      try reflexivity; try assumption.
    destruct (Interval_surrounds ray_t (Fin ((Hh - s) / A)));
      [|destruct (Interval_surrounds ray_t (Fin ((Hh + s) / A))); [|discriminate]];
      injection Hhit as <-; cbn [Sphere_hit_record HitRecord.t];
      eexists; (split; [reflexivity|]); rewrite HC; field; exact HA.
Qed.

(** C2. [Sphere::hit] takes [a = |dir|^2], [h = dir . oc] and
    [c = |oc|^2 - r^2] with [oc = center - origin]; it returns nothing when
    the discriminant [h^2 - a c] is negative; otherwise it returns the
    record of the smaller root [(h - sqrt disc) / a] when the interval
    surrounds it, else the record of the larger root [(h + sqrt disc) / a]
    when the interval surrounds that one, else nothing.  The test is
    [surrounds], strict at both ends.  This holds in every number model.
    On real data, the [t] returned solves [a t^2 - 2 h t + c = 0]. *)
Theorem Sphere_hit_solves_quadratic :
  (forall (f64 : Type) (S : Scalar f64) (self : Sphere.Self f64)
          (r : Ray.Self f64) (ray_t : Interval.Self f64),
      let oc := Vec3_sub (Sphere.center self) (Ray.orig r) in
      let a := Vec3_length_squared (Ray.dir r) in
      let h := Vec3_dot (Ray.dir r) oc in
      let c := fsub (Vec3_length_squared oc)
                    (fmul (Sphere.radius self) (Sphere.radius self)) in
      let discriminant := fsub (fmul h h) (fmul a c) in
      let root1 := fdiv (fsub h (fsqrt discriminant)) a in
      let root2 := fdiv (fadd h (fsqrt discriminant)) a in
      let inside x :=
        andb (flt (Interval.min ray_t) x) (flt x (Interval.max ray_t)) in
      Sphere_hit self r ray_t
      = if flt discriminant (lit 0) then None
        else if inside root1 then Some (Sphere_hit_record self r root1)
        else if inside root2 then Some (Sphere_hit_record self r root2)
        else None)
  /\ (forall (cx cy cz rho ox oy oz dx dy dz : R) (mat : dynMaterial ereal)
             (ray_t : Interval.Self ereal) (rec : HitRecord.Self ereal),
         Sphere_hit (Sphere.new (Vec3_of_R cx cy cz) (Fin rho) mat)
                    (Ray.new (Vec3_of_R ox oy oz) (Vec3_of_R dx dy dz)) ray_t
         = Some rec ->
         exists tau,
           HitRecord.t rec = Fin tau
           /\ (dx * dx + dy * dy + dz * dz) * (tau * tau)
              - 2 * (dx * (cx - ox) + dy * (cy - oy) + dz * (cz - oz)) * tau
              + ((cx - ox) * (cx - ox) + (cy - oy) * (cy - oy)
                 + (cz - oz) * (cz - oz) - rho * rho)
              = 0).
Proof.
  split.
  - intros. rewrite Sphere_hit_unfold. reflexivity.
  - exact Sphere_hit_root_of_quadratic.
Qed.

(** The hit at [t = 2] on the unit sphere centred at [(0, 0, -3)] solves
    [t^2 - 6 t + 8 = 0]. *)
Lemma Sphere_hit_solves_quadratic_witness :
  exists tau,
    Fin 2 = Fin tau
    /\ (0 * 0 + 0 * 0 + -1 * -1) * (tau * tau)
       - 2 * (0 * (0 - 0) + 0 * (0 - 0) + -1 * (-3 - 0)) * tau
       + ((0 - 0) * (0 - 0) + (0 - 0) * (0 - 0) + (-3 - 0) * (-3 - 0) - 1 * 1)
       = 0.
Proof.
  apply (proj2 Sphere_hit_solves_quadratic 0 0 (-3) 1 0 0 0 0 0 (-1)
               NullMaterial (Interval.new (lit 0.001) INFINITY)
               (HitRecord.mk (Vec3_of_R 0 0 (-2)) (Vec3_of_R 0 0 1) (Fin 2)
                             NullMaterial true)).
  apply unit_sphere_hit_head_on.
Defined.






(** *** material.rs: the direction of the scattered ray *)

Lemma Vec3_length_squared_exact (a b c : R) :
  Vec3_length_squared (Vec3_of_R a b c) = Fin (a * a + b * b + c * c).
Proof. reflexivity. Qed.

Lemma Vec3_length_exact (a b c : R) :
  Vec3_length (Vec3_of_R a b c) = Fin (sqrt (a * a + b * b + c * c)).
Proof.
  unfold Vec3_length. rewrite Vec3_length_squared_exact. cbn.
  destruct (Rlt_dec _ 0); [exfalso; nra|reflexivity].
Qed.

(** [normalized] of a non-zero real vector. *)
Lemma Vec3_normalized_exact (a b c : R) :
  a * a + b * b + c * c <> 0 ->
  Vec3_normalized (Vec3_of_R a b c)
  = Vec3_of_R (a / sqrt (a * a + b * b + c * c))
              (b / sqrt (a * a + b * b + c * c))
              (c / sqrt (a * a + b * b + c * c)).
Proof.
  intros Hnz. unfold Vec3_normalized. rewrite Vec3_length_exact.
  assert (Hs : 0 < sqrt (a * a + b * b + c * c)) by (apply sqrt_lt_R0; nra).
  vec_unfold. cbn. lits.
  destruct (Req_dec_T _ 0); [exfalso; lra|].
  f_equal; f_equal; field; lra.
Qed.

Lemma Vec3_normalized_is_unit (a b c : R) :
  a * a + b * b + c * c <> 0 ->
  (a / sqrt (a * a + b * b + c * c)) * (a / sqrt (a * a + b * b + c * c))
  + (b / sqrt (a * a + b * b + c * c)) * (b / sqrt (a * a + b * b + c * c))
  + (c / sqrt (a * a + b * b + c * c)) * (c / sqrt (a * a + b * b + c * c))
  = 1.
Proof.
  intros Hnz.
  assert (H0 : 0 <= a * a + b * b + c * c) by nra.
  assert (Hs : 0 < sqrt (a * a + b * b + c * c)) by (apply sqrt_lt_R0; nra).
  pose proof (sqrt_sqrt _ H0) as Hss.
  set (s := sqrt (a * a + b * b + c * c)) in *.
  transitivity ((a * a + b * b + c * c) / (s * s)).
  - field. lra.
  - rewrite Hss. field. exact Hnz.
Qed.




(** The first candidate of the rejection loop, when it is kept. *)
Lemma Vec3_random_in_unit_sphere_first (u1 u2 u3 a b c : R) (rng : Rng ereal) :
  a = 2 * u1 - 1 -> b = 2 * u2 - 1 -> c = 2 * u3 - 1 ->
  a * a + b * b + c * c < 1 ->
  Vec3_random_in_unit_sphere (Fin u1 :: Fin u2 :: Fin u3 :: rng)
  = Some (Vec3_of_R a b c, rng).
Proof.
  intros Ha Hb Hc Hlt.
  unfold Vec3_random_in_unit_sphere.
  cbn [length Vec3_random_in_unit_sphere_loop]. unfold bind at 1.
  rewrite Vec3_random_interval_cons.
  assert (Hp : Vec3.new (fadd (fneg (lit 1)) (fmul (fsub (lit 1) (fneg (lit 1))) (Fin u1)))
                        (fadd (fneg (lit 1)) (fmul (fsub (lit 1) (fneg (lit 1))) (Fin u2)))
                        (fadd (fneg (lit 1)) (fmul (fsub (lit 1) (fneg (lit 1))) (Fin u3)))
               = Vec3_of_R a b c).
  { cbn. lits. unfold Vec3_of_R. subst a b c. f_equal; f_equal; lra. }
  rewrite Hp, Vec3_length_squared_exact.
  cbn [flt lit ereal_scalar eltb]. lits.
  destruct (Rlt_dec _ _); [reflexivity|exfalso; lra].
Qed.



(** *** hittable_list.rs *)

Lemma eltb_trans (a b c : ereal) :
  eltb a b = true -> eltb b c = true -> eltb a c = true.
Proof. destruct a, b, c; ecases; reflexivity. Qed.

Lemma Vec3_length_squared_nonneg (v : Vec3.Self ereal) (a : R) :
  Vec3_length_squared v = Fin a -> 0 <= a.
Proof.
  destruct v as [x y z]. unfold Vec3_length_squared.
  cbn [Vec3.x Vec3.y Vec3.z fadd fmul ereal_scalar].
  destruct x, y, z; cbn; try discriminate. intros [= <-]. nra.
Qed.

Lemma esqrt_nonneg (d : ereal) (s : R) : esqrt d = Fin s -> 0 <= s.
Proof.
  destruct d; cbn; try discriminate.
  destruct (Rlt_dec a 0); [discriminate|]. intros [= <-]. apply sqrt_pos.
Qed.

(** The root tried first is the smaller one. *)
Lemma roots_ordered (h sq a : ereal) (r1 r2 : R) :
  (forall a', a = Fin a' -> 0 <= a') -> (forall s', sq = Fin s' -> 0 <= s') ->
  ediv (esub h sq) a = Fin r1 -> ediv (eadd h sq) a = Fin r2 -> r1 <= r2.
Proof.
  intros Ha Hs.
  destruct h as [h'| | |], sq as [s| | |], a as [a0| | |]; cbn;
    try discriminate; unfold sign_inf;
    repeat (decide_R_step; cbn); try discriminate.
  all: intros [= <-] [= <-]; try lra.
  all: pose proof (Ha _ eq_refl); pose proof (Hs _ eq_refl).
  all: assert (Hi : 0 < / a0) by (apply Rinv_0_lt_compat; lra).
  all: unfold Rdiv; nra.
Qed.

Lemma Interval_surrounds_narrow (mn mx u : ereal) (gamma : R) :
  eltb (Fin gamma) mx = true ->
  Interval_surrounds (Interval.new mn (Fin gamma)) u
  = Interval_surrounds (Interval.new mn mx) u && eltb u (Fin gamma).
Proof.
  intros Hg. unfold Interval_surrounds.
  cbn [Interval.min Interval.max flt ereal_scalar].
  destruct (eltb mn u); [|reflexivity]. cbn [andb].
  destruct (eltb u (Fin gamma)) eqn:Hu.
  - now rewrite (eltb_trans _ _ _ Hu Hg).
  - now rewrite andb_false_r.
Qed.

Lemma Sphere_roots_ordered (self : Sphere.Self ereal) (r : Ray.Self ereal)
    (r1 r2 : R) :
  smaller_root self r = Fin r1 -> larger_root self r = Fin r2 -> r1 <= r2.
Proof.
  unfold smaller_root, larger_root. cbn [fdiv fsub fadd fsqrt ereal_scalar].
  apply roots_ordered.
  - intros a'. apply Vec3_length_squared_nonneg.
  - intros s'. apply esqrt_nonneg.
Qed.

(** A sphere honours the contract. *)
Lemma Sphere_contract (s : Sphere.Self ereal) : Hittable_contract (DynSphere s).
Proof.
  intros r mn mx. cbn [dynHittable_hit]. split.
  - intros rec Hhit.
    destruct (Sphere_hit_Some_record _ _ _ Hhit) as [_ Hs].
    apply Interval_surrounds_Fin in Hs. destruct Hs as (tau & Ht & H1 & H2).
    exists tau. auto.
  - intros gamma Hg. rewrite !Sphere_hit_unfold.
    destruct (flt _ _); [reflexivity|].
    rewrite !(fun u => @Interval_surrounds_narrow mn mx u gamma Hg).
    destruct (Interval_surrounds (Interval.new mn mx) (smaller_root s r)) eqn:S1;
      cbn [andb narrow Sphere_hit_record HitRecord.t flt ereal_scalar].
    + destruct (eltb (smaller_root s r) (Fin gamma)) eqn:L1; [reflexivity|].
      destruct (Interval_surrounds (Interval.new mn mx) (larger_root s r)) eqn:S2;
        cbn [andb]; [|reflexivity].
      destruct (eltb (larger_root s r) (Fin gamma)) eqn:L2; [|reflexivity].
      exfalso.
      apply Interval_surrounds_Fin in S1. destruct S1 as (t1 & E1 & _ & _).
      apply Interval_surrounds_Fin in S2. destruct S2 as (t2 & E2 & _ & _).
      pose proof (Sphere_roots_ordered _ _ E1 E2) as Hord.
      rewrite E1 in L1. rewrite E2 in L2. revert L1 L2. ecases.
    + destruct (Interval_surrounds (Interval.new mn mx) (larger_root s r)) eqn:S2;
        cbn [andb narrow Sphere_hit_record HitRecord.t flt ereal_scalar];
        [|reflexivity].
      destruct (eltb (larger_root s r) (Fin gamma)); reflexivity.
Qed.

(** The loop of [HittableList::hit] over members that honour the
    contract is a fold of [loop_step] over the hits they report on the
    whole interval. *)
Lemma HittableList_hit_loop_fold (r : Ray.Self ereal) (mn mx : ereal)
    (objects : list (dynHittable ereal)) :
  Forall Hittable_contract objects ->
  forall (ray_t : Interval.Self ereal) (best : option (HitRecord.Self ereal))
         (c : ereal),
    Interval.min ray_t = mn ->
    c = mx \/ (exists gamma, c = Fin gamma /\ eltb (Fin gamma) mx = true) ->
    HittableList_hit_loop dynHittable_hit r ray_t objects best c
    = fst (fold_left loop_step (member_hits objects r (Interval.new mn mx)) (best, c)).
Proof.
  induction 1 as [|object objects Hc _ IH]; intros ray_t best c Hmin Hb;
    [reflexivity|].
  cbn [HittableList_hit_loop member_hits flat_map]. rewrite fold_left_app, Hmin.
  destruct (Hc r mn mx) as [K1 K2].
  destruct Hb as [->|(gamma & -> & Hg)].
  - destruct (dynHittable_hit object r (Interval.new mn mx)) as [rec|] eqn:E;
      cbn [fold_left]; [|apply IH; auto].
    destruct (K1 rec eq_refl) as (tau & Ht & H1 & H2).
    unfold loop_step at 2. cbn [snd flt ereal_scalar]. rewrite Ht, H2, <- Ht.
    apply IH; [exact Hmin|]. right. exists tau. rewrite Ht. auto.
  - rewrite (K2 gamma Hg).
    destruct (dynHittable_hit object r (Interval.new mn mx)) as [rec|] eqn:E;
      cbn [narrow fold_left]; [|apply IH; eauto].
    unfold loop_step at 2. cbn [snd].
    destruct (flt (HitRecord.t rec) (Fin gamma)); [|apply IH; eauto].
    destruct (K1 rec eq_refl) as (tau & Ht & H1 & H2).
    apply IH; [exact Hmin|]. right. exists tau. rewrite Ht. auto.
Qed.

Lemma member_hits_inside (r : Ray.Self ereal) (mn mx : ereal)
    (objects : list (dynHittable ereal)) :
  Forall Hittable_contract objects ->
  Forall (hit_inside mn mx) (member_hits objects r (Interval.new mn mx)).
Proof.
  induction 1 as [|object objects Hc _ IH]; [constructor|].
  cbn [member_hits flat_map]. apply Forall_app. split; [|exact IH].
  destruct (dynHittable_hit object r (Interval.new mn mx)) as [rec|] eqn:E;
    constructor; [|constructor].
  exact (proj1 (Hc r mn mx) rec E).
Qed.

(** From the whole interval, the fold of [loop_step] keeps the first
    record of smallest [t]. *)
Lemma fold_loop_step_nearer (mn mx : ereal) (hits : list (HitRecord.Self ereal)) :
  Forall (hit_inside mn mx) hits ->
  forall best c,
    match best with Some b => c = HitRecord.t b | None => c = mx end ->
    fst (fold_left loop_step hits (best, c)) = fold_left nearer hits best.
Proof.
  induction 1 as [|rec hits (tau & Ht & H1 & H2) _ IH]; intros best c Hs;
    [reflexivity|].
  cbn [fold_left]. unfold loop_step at 2, nearer at 2. cbn [snd].
  destruct best as [b|]; subst c.
  - destruct (flt (HitRecord.t rec) (HitRecord.t b)); apply IH; reflexivity.
  - cbn [flt ereal_scalar]. rewrite Ht, H2, <- Ht. apply IH. reflexivity.
Qed.

(** Started below, at [gamma], the fold keeps what the fold from the
    whole interval keeps, when that lies below [gamma]. *)
Lemma fold_loop_step_narrow (mn mx : ereal) (gamma : R)
    (hits : list (HitRecord.Self ereal)) :
  Forall (hit_inside mn mx) hits ->
  forall s1 s2 : option (HitRecord.Self ereal) * ereal,
    (s1 = (None, Fin gamma)
     /\ (s2 = (None, mx)
         \/ exists b tau, s2 = (Some b, Fin tau) /\ HitRecord.t b = Fin tau
                          /\ gamma <= tau))
    \/ (exists b tau, s1 = (Some b, Fin tau) /\ s2 = (Some b, Fin tau)
                      /\ HitRecord.t b = Fin tau /\ tau < gamma) ->
    fst (fold_left loop_step hits s1)
    = narrow (Fin gamma) (fst (fold_left loop_step hits s2)).
Proof.
  induction 1 as [|rec hits (t' & Ht & H1 & H2) _ IH]; intros s1 s2 HR.
  - cbn [fold_left].
    destruct HR as [(-> & [->|(b & tau & -> & Hb & Hle)])
                   |(b & tau & -> & -> & Hb & Hlt)];
      cbn [narrow fst]; rewrite ?Hb; ecases; reflexivity.
  - cbn [fold_left]. apply IH. unfold loop_step.
    destruct HR as [(-> & [->|(b & tau & -> & Hb & Hle)])
                   |(b & tau & -> & -> & Hb & Hlt)];
      cbn [snd flt ereal_scalar]; rewrite Ht, ?H2; cbn [eltb].
    + destruct (Rlt_dec t' gamma).
      * right. exists rec, t'. rewrite Ht. auto.
      * left. split; [reflexivity|]. right.
        exists rec, t'. rewrite Ht. repeat split; auto. lra.
    + destruct (Rlt_dec t' gamma), (Rlt_dec t' tau); try (exfalso; lra).
      * right. exists rec, t'. rewrite Ht. auto.
      * left. split; [reflexivity|]. right.
        exists rec, t'. rewrite Ht. repeat split; auto. lra.
      * left. split; [reflexivity|]. right. exists b, tau. auto.
    + destruct (Rlt_dec t' tau).
      * right. exists rec, t'. rewrite Ht. repeat split; auto. lra.
      * right. exists b, tau. auto.
Qed.

Lemma HittableList_hit_loop_first_nearest (r : Ray.Self ereal) (mn mx : ereal)
    (objects : list (dynHittable ereal)) :
  Forall Hittable_contract objects ->
  HittableList_hit_loop dynHittable_hit r (Interval.new mn mx) objects None mx
  = first_nearest (member_hits objects r (Interval.new mn mx)).
Proof.
  intros Hall.
  rewrite HittableList_hit_loop_fold with (mn := mn) (mx := mx); auto.
  apply fold_loop_step_nearer with (mn := mn) (mx := mx); [|reflexivity].
  apply member_hits_inside. exact Hall.
Qed.

Lemma fold_nearer_In (hits : list (HitRecord.Self ereal))
    (best : option (HitRecord.Self ereal)) (rec : HitRecord.Self ereal) :
  fold_left nearer hits best = Some rec -> best = Some rec \/ In rec hits.
Proof.
  revert best. induction hits as [|h hits IH]; intros best; cbn [fold_left]; [auto|].
  intros Hf. destruct (IH _ Hf) as [Hn|Hn]; [|right; right; exact Hn].
  unfold nearer in Hn. destruct best as [b|].
  - destruct (flt _ _); injection Hn as <-; [right|left]; cbn; auto.
  - injection Hn as <-. right. left. reflexivity.
Qed.

Lemma first_nearest_In (hits : list (HitRecord.Self ereal))
    (rec : HitRecord.Self ereal) :
  first_nearest hits = Some rec -> In rec hits.
Proof.
  intros Hf. destruct (fold_nearer_In _ _ Hf) as [Hn|Hn]; [discriminate|exact Hn].
Qed.

(** A list of members that honour the contract honours it. *)
Lemma HittableList_contract (objects : list (dynHittable ereal)) :
  Forall Hittable_contract objects -> Hittable_contract (DynList objects).
Proof.
  intros Hall r mn mx. cbn [dynHittable_hit Interval.max].
  pose proof (member_hits_inside r mn mx Hall) as Hin.
  split.
  - rewrite (HittableList_hit_loop_first_nearest r mn mx Hall).
    intros rec Hrec. apply first_nearest_In in Hrec.
    rewrite Forall_forall in Hin. exact (Hin rec Hrec).
  - intros gamma Hg.
    rewrite !HittableList_hit_loop_fold with (mn := mn) (mx := mx); eauto.
    apply fold_loop_step_narrow with (mn := mn) (mx := mx); [exact Hin|].
    left. auto.
Qed.

(** Every object of the program honours the contract. *)
Lemma dynHittable_contract (object : dynHittable ereal) : Hittable_contract object.
Proof.
  induction object as [s|objects IH] using dynHittable_Forall_ind.
  - apply Sphere_contract.
  - apply HittableList_contract. exact IH.
Qed.

Lemma fold_nearer_Some (hits : list (HitRecord.Self ereal))
    (b : HitRecord.Self ereal) :
  fold_left nearer hits (Some b) <> None.
Proof.
  revert b. induction hits as [|h hits IH]; intros b; cbn [fold_left nearer];
    [discriminate|].
  destruct (flt _ _); apply IH.
Qed.

Lemma fold_nearer_None (hits : list (HitRecord.Self ereal))
    (best : option (HitRecord.Self ereal)) :
  fold_left nearer hits best = None -> best = None /\ hits = [].
Proof.
  destruct hits as [|h hits]; cbn [fold_left]; [auto|].
  intros Hf. exfalso. revert Hf. unfold nearer.
  destruct best as [b|]; [destruct (flt _ _)|]; apply fold_nearer_Some.
Qed.

(** The record the fold keeps is at most as far as the record it started
    from and as every record of the list. *)
Lemma fold_nearer_min (mn mx : ereal) (hits : list (HitRecord.Self ereal)) :
  Forall (hit_inside mn mx) hits ->
  forall best rec,
    (forall b, best = Some b -> hit_inside mn mx b) ->
    fold_left nearer hits best = Some rec ->
    exists rho, HitRecord.t rec = Fin rho
                /\ (forall b beta, best = Some b -> HitRecord.t b = Fin beta
                                   -> rho <= beta)
                /\ (forall h eta, In h hits -> HitRecord.t h = Fin eta
                                  -> rho <= eta).
Proof.
  induction 1 as [|h hits Hh _ IH]; intros best rec Hbest Hf.
  - cbn [fold_left] in Hf. subst best.
    destruct (Hbest rec eq_refl) as (rho & Hr & _).
    exists rho. split; [exact Hr|]. split.
    + intros b beta [= <-] Hb. rewrite Hr in Hb. injection Hb as <-. lra.
    + intros h eta [].
  - cbn [fold_left] in Hf.
    assert (Hn : forall b, nearer best h = Some b -> hit_inside mn mx b).
    { unfold nearer. destruct best as [b0|].
      - destruct (flt _ _); intros b [= <-]; [exact Hh|apply Hbest; reflexivity].
      - intros b [= <-]. exact Hh. }
    destruct (IH _ _ Hn Hf) as (rho & Hr & Hb & Hall).
    exists rho. split; [exact Hr|].
    destruct Hh as (tau & Ht & _).
    assert (Hrh : rho <= tau /\ (forall b beta, best = Some b
                                   -> HitRecord.t b = Fin beta -> rho <= beta)).
    { unfold nearer in Hb. destruct best as [b0|].
      - destruct (Hbest b0 eq_refl) as (beta0 & Hb0 & _).
        destruct (flt (HitRecord.t h) (HitRecord.t b0)) eqn:Hlt.
        + pose proof (Hb h tau eq_refl Ht) as Hle.
          rewrite Ht, Hb0 in Hlt. revert Hlt. ecases. intros _.
          split; [exact Hle|]. intros b beta [= <-] Hbb.
          rewrite Hb0 in Hbb. injection Hbb as <-. lra.
        + pose proof (Hb b0 beta0 eq_refl Hb0) as Hle.
          rewrite Ht, Hb0 in Hlt. revert Hlt. ecases. intros _.
          split; [lra|]. intros b beta [= <-] Hbb.
          rewrite Hb0 in Hbb. injection Hbb as <-. lra.
      - split; [exact (Hb h tau eq_refl Ht)|]. intros b beta [=]. }
    destruct Hrh as [Hrt Hrb]. split; [exact Hrb|].
    intros h' eta [<-|Hin] He.
    + rewrite Ht in He. injection He as <-. exact Hrt.
    + exact (Hall h' eta Hin He).
Qed.

Lemma first_nearest_min (mn mx : ereal) (hits : list (HitRecord.Self ereal))
    (rec : HitRecord.Self ereal) :
  Forall (hit_inside mn mx) hits ->
  first_nearest hits = Some rec ->
  In rec hits /\ forall h, In h hits -> fle (HitRecord.t rec) (HitRecord.t h) = true.
Proof.
  intros Hin Hf. split; [exact (first_nearest_In _ Hf)|].
  destruct (fold_nearer_min Hin (best := None) (rec := rec)) as (rho & Hr & _ & Hall);
    [discriminate|exact Hf|].
  intros h Hh. rewrite Forall_forall in Hin.
  destruct (Hin h Hh) as (eta & He & _).
  pose proof (Hall h eta Hh He). rewrite Hr, He. ecases; reflexivity.
Qed.

(** The smallest [t] does not depend on the order of the hits. *)
Lemma first_nearest_Permutation (mn mx : ereal)
    (hits hits' : list (HitRecord.Self ereal)) :
  Forall (hit_inside mn mx) hits ->
  Permutation hits hits' ->
  option_map (@HitRecord.t ereal) (first_nearest hits')
  = option_map (@HitRecord.t ereal) (first_nearest hits).
Proof.
  intros Hin Hp.
  assert (Hin' : Forall (hit_inside mn mx) hits').
  { rewrite Forall_forall in *. intros h Hh. apply Hin.
    exact (Permutation_in _ (Permutation_sym Hp) Hh). }
  destruct (first_nearest hits) as [rec|] eqn:E, (first_nearest hits') as [rec'|] eqn:E';
    cbn [option_map].
  - destruct (fold_nearer_min Hin (best := None) (rec := rec))
      as (rho & Hr & _ & Hall); [discriminate|exact E|].
    destruct (fold_nearer_min Hin' (best := None) (rec := rec'))
      as (rho' & Hr' & _ & Hall'); [discriminate|exact E'|].
    pose proof (first_nearest_In _ E) as Hm.
    pose proof (first_nearest_In _ E') as Hm'.
    pose proof (Hall rec' rho' (Permutation_in _ (Permutation_sym Hp) Hm') Hr').
    pose proof (Hall' rec rho (Permutation_in _ Hp Hm) Hr).
    rewrite Hr, Hr'. do 2 f_equal. lra.
  - apply fold_nearer_None in E'. destruct E' as [_ ->].
    apply Permutation_sym, Permutation_nil in Hp. subst hits. discriminate.
  - apply fold_nearer_None in E. destruct E as [_ ->].
    apply Permutation_nil in Hp. subst hits'. discriminate.
  - reflexivity.
Qed.

Lemma member_hits_Permutation (objects objects' : list (dynHittable ereal))
    (r : Ray.Self ereal) (ray_t : Interval.Self ereal) :
  Permutation objects objects' ->
  Permutation (member_hits objects r ray_t) (member_hits objects' r ray_t).
Proof. intros Hp. unfold member_hits. now apply Permutation_flat_map. Qed.

Lemma member_hits_nil (objects : list (dynHittable ereal))
    (r : Ray.Self ereal) (ray_t : Interval.Self ereal) :
  member_hits objects r ray_t = []
  <-> forall object, In object objects -> dynHittable_hit object r ray_t = None.
Proof.
  induction objects as [|o objects IH]; cbn [member_hits flat_map].
  - split; [intros _ object []|reflexivity].
  - split.
    + intros [H1 H2]%app_eq_nil object [<-|Hin].
      * destruct (dynHittable_hit o r ray_t); [discriminate|reflexivity].
      * now apply IH.
    + intros Hall. rewrite (Hall o (or_introl eq_refl)). cbn [app].
      apply IH. intros object Hin. apply Hall. now right.
Qed.

Lemma HittableList_hit_first_nearest (self : HittableList.Self ereal)
    (r : Ray.Self ereal) (ray_t : Interval.Self ereal) :
  HittableList_hit self r ray_t
  = first_nearest (member_hits (HittableList.objects self) r ray_t).
Proof.
  destruct ray_t as [mn mx]. unfold HittableList_hit. cbn [Interval.max].
  apply HittableList_hit_loop_first_nearest.
  rewrite Forall_forall. intros object _. apply dynHittable_contract.
Qed.

Lemma member_hits_all_inside (objects : list (dynHittable ereal))
    (r : Ray.Self ereal) (mn mx : ereal) :
  Forall (hit_inside mn mx) (member_hits objects r (Interval.new mn mx)).
Proof.
  apply member_hits_inside. rewrite Forall_forall.
  intros object _. apply dynHittable_contract.
Qed.

(** C1 (as the code has it).  [HittableList::hit] returns the first record
    of smallest [t] among the hits its members report on the whole
    interval: nothing exactly when no member reports a hit; otherwise a
    record of that list whose [t] is at most the [t] of every other.
    Under a permutation of the objects the [t] of the result stays the
    same, and so does the whole record when no two reported hits share
    their [t].  An object added at the end is tested on the interval
    whose upper bound is the best [t] so far, and is accepted only
    strictly below it. *)
Theorem HittableList_hit_nearest :
  forall (self : HittableList.Self ereal) (r : Ray.Self ereal)
         (ray_t : Interval.Self ereal),
    HittableList_hit self r ray_t
    = first_nearest (member_hits (HittableList.objects self) r ray_t)
    /\ (HittableList_hit self r ray_t = None
        <-> forall object, In object (HittableList.objects self)
                           -> dynHittable_hit object r ray_t = None)
    /\ (forall rec,
           HittableList_hit self r ray_t = Some rec ->
           In rec (member_hits (HittableList.objects self) r ray_t)
           /\ forall h, In h (member_hits (HittableList.objects self) r ray_t)
                        -> fle (HitRecord.t rec) (HitRecord.t h) = true)
    /\ (forall objects',
           Permutation (HittableList.objects self) objects' ->
           option_map (@HitRecord.t ereal)
                      (HittableList_hit (HittableList.mk objects') r ray_t)
           = option_map (@HitRecord.t ereal) (HittableList_hit self r ray_t))
    /\ (forall objects',
           Permutation (HittableList.objects self) objects' ->
           (forall h h', In h (member_hits (HittableList.objects self) r ray_t)
                         -> In h' (member_hits (HittableList.objects self) r ray_t)
                         -> HitRecord.t h = HitRecord.t h' -> h = h') ->
           HittableList_hit (HittableList.mk objects') r ray_t
           = HittableList_hit self r ray_t)
    /\ (forall object,
           HittableList_hit (HittableList_add self object) r ray_t
           = match dynHittable_hit object r
                     (Interval.new (Interval.min ray_t)
                        match HittableList_hit self r ray_t with
                        | Some best => HitRecord.t best
                        | None => Interval.max ray_t
                        end) with
             | Some rec => Some rec
             | None => HittableList_hit self r ray_t
             end)
    /\ (forall object best rec,
           HittableList_hit self r ray_t = Some best ->
           dynHittable_hit object r
             (Interval.new (Interval.min ray_t) (HitRecord.t best)) = Some rec ->
           flt (HitRecord.t rec) (HitRecord.t best) = true).
Proof.
  intros self r ray_t.
  pose proof (HittableList_hit_first_nearest self r ray_t) as Hfirst.
  destruct ray_t as [mn mx].
  pose proof (member_hits_all_inside (HittableList.objects self) r mn mx) as Hin.
  assert (Hperm : forall objects',
             Permutation (HittableList.objects self) objects' ->
             option_map (@HitRecord.t ereal)
                        (HittableList_hit (HittableList.mk objects') r (Interval.new mn mx))
             = option_map (@HitRecord.t ereal)
                          (HittableList_hit self r (Interval.new mn mx))).
  { intros objects' Hp. rewrite !HittableList_hit_first_nearest.
    cbn [HittableList.objects].
    apply first_nearest_Permutation with (mn := mn) (mx := mx); [exact Hin|].
    now apply member_hits_Permutation. }
  split; [exact Hfirst|]. split; [|split; [|split; [exact Hperm|split; [|split]]]].
  - rewrite Hfirst, <- member_hits_nil. split.
    + intros Hn. now apply fold_nearer_None in Hn.
    + intros ->. reflexivity.
  - intros rec Hrec. rewrite Hfirst in Hrec.
    now apply first_nearest_min with (mn := mn) (mx := mx).
  - intros objects' Hp Huniq. specialize (Hperm objects' Hp).
    rewrite !HittableList_hit_first_nearest in *. cbn [HittableList.objects] in *.
    destruct (first_nearest (member_hits (HittableList.objects self) r _))
      as [rec|] eqn:E,
      (first_nearest (member_hits objects' r _)) as [rec'|] eqn:E';
      cbn [option_map] in Hperm; try discriminate; [|reflexivity].
    injection Hperm as Ht. f_equal. apply Huniq.
    + apply Permutation_in with (l := member_hits objects' r (Interval.new mn mx)).
      * apply Permutation_sym. now apply member_hits_Permutation.
      * exact (first_nearest_In _ E').
    + exact (first_nearest_In _ E).
    + exact Ht.
  - intros object. apply HittableList_hit_add.
  - intros object best rec Hbest Hrec. cbn [Interval.min] in Hrec.
    destruct (proj1 (dynHittable_contract object r mn (HitRecord.t best)) rec Hrec)
      as (tau & Ht & _ & Hlt).
    cbn [flt ereal_scalar]. rewrite Ht. exact Hlt.
Qed.

(** Two unit spheres at distances 3 and 5 on the ray, in both orders. *)
Lemma HittableList_hit_nearest_witness :
  option_map (@HitRecord.t ereal)
    (HittableList_hit
       (HittableList.mk
          [DynSphere (Sphere.new (Vec3_of_R 0 0 (-5)) (Fin 1) NullMaterial);
           DynSphere (Sphere.new (Vec3_of_R 0 0 (-3)) (Fin 1) NullMaterial)])
       (Ray.new (Vec3_of_R 0 0 0) (Vec3_of_R 0 0 (-1)))
       (Interval.new (lit 0.001) INFINITY))
  = option_map (@HitRecord.t ereal)
      (HittableList_hit
         (HittableList.mk
            [DynSphere (Sphere.new (Vec3_of_R 0 0 (-3)) (Fin 1) NullMaterial);
             DynSphere (Sphere.new (Vec3_of_R 0 0 (-5)) (Fin 1) NullMaterial)])
         (Ray.new (Vec3_of_R 0 0 0) (Vec3_of_R 0 0 (-1)))
         (Interval.new (lit 0.001) INFINITY)).
Proof.
  apply (proj1 (proj2 (proj2 (proj2
           (HittableList_hit_nearest
              (HittableList.mk
                 [DynSphere (Sphere.new (Vec3_of_R 0 0 (-3)) (Fin 1) NullMaterial);
                  DynSphere (Sphere.new (Vec3_of_R 0 0 (-5)) (Fin 1) NullMaterial)])
              (Ray.new (Vec3_of_R 0 0 0) (Vec3_of_R 0 0 (-1)))
              (Interval.new (lit 0.001) INFINITY)))))).
  apply perm_swap.
Defined.

Lemma tie_list_hit (mat1 mat2 : dynMaterial ereal) :
  HittableList_hit
    (HittableList.mk
       [DynSphere (Sphere.new (Vec3_of_R 0 0 (-3)) (Fin 1) mat1);
        DynSphere (Sphere.new (Vec3_of_R 0 0 (-3)) (Fin 1) mat2)])
    (Ray.new (Vec3_of_R 0 0 0) (Vec3_of_R 0 0 (-1)))
    (Interval.new (lit 0.001) INFINITY)
  = Some (HitRecord.mk (Vec3_of_R 0 0 (-2)) (Vec3_of_R 0 0 1) (Fin 2) mat1 true).
Proof.
  unfold HittableList_hit.
  cbn [HittableList.objects HittableList_hit_loop dynHittable_hit
       Interval.min Interval.max].
  rewrite unit_sphere_hit_head_on. cbn [HitRecord.t].
  now rewrite unit_sphere_hit_cut.
Qed.

(** C1 as stated fails on a tie: two spheres at the same place, one
    diffuse and one metal, report the same [t]; the list returns the
    record of the one inserted first, so the material of the result
    changes with the order of insertion.  The same runs in binary64
    follow. *)
Lemma HittableList_hit_tie_depends_on_order :
  (Permutation
     [DynSphere (Sphere.new (Vec3_of_R 0 0 (-3)) (Fin 1)
                            (DynLambertian (Lambertian.new (Vec3_of_R 0.5 0.5 0.5))));
      DynSphere (Sphere.new (Vec3_of_R 0 0 (-3)) (Fin 1)
                            (DynMetal (Metal.new (Vec3_of_R 0.5 0.5 0.5) (Fin 0))))]
     [DynSphere (Sphere.new (Vec3_of_R 0 0 (-3)) (Fin 1)
                            (DynMetal (Metal.new (Vec3_of_R 0.5 0.5 0.5) (Fin 0))));
      DynSphere (Sphere.new (Vec3_of_R 0 0 (-3)) (Fin 1)
                            (DynLambertian (Lambertian.new (Vec3_of_R 0.5 0.5 0.5))))]
   /\ HittableList_hit
        (HittableList.mk
           [DynSphere (Sphere.new (Vec3_of_R 0 0 (-3)) (Fin 1)
                                  (DynLambertian (Lambertian.new (Vec3_of_R 0.5 0.5 0.5))));
            DynSphere (Sphere.new (Vec3_of_R 0 0 (-3)) (Fin 1)
                                  (DynMetal (Metal.new (Vec3_of_R 0.5 0.5 0.5) (Fin 0))))])
        (Ray.new (Vec3_of_R 0 0 0) (Vec3_of_R 0 0 (-1)))
        (Interval.new (lit 0.001) INFINITY)
      <> HittableList_hit
           (HittableList.mk
              [DynSphere (Sphere.new (Vec3_of_R 0 0 (-3)) (Fin 1)
                                     (DynMetal (Metal.new (Vec3_of_R 0.5 0.5 0.5) (Fin 0))));
               DynSphere (Sphere.new (Vec3_of_R 0 0 (-3)) (Fin 1)
                                     (DynLambertian (Lambertian.new (Vec3_of_R 0.5 0.5 0.5))))])
           (Ray.new (Vec3_of_R 0 0 0) (Vec3_of_R 0 0 (-1)))
           (Interval.new (lit 0.001) INFINITY))
  /\ HittableList_hit
       (HittableList.mk
          [DynSphere (Sphere.new (Vec3.new (lit 0) (lit 0) (lit (-3))) (lit 1)
                        (DynLambertian
                           (Lambertian.new (Vec3.new (lit 0.5) (lit 0.5) (lit 0.5)))));
           DynSphere (Sphere.new (Vec3.new (lit 0) (lit 0) (lit (-3))) (lit 1)
                        (DynMetal
                           (Metal.new (Vec3.new (lit 0.5) (lit 0.5) (lit 0.5)) (lit 0))))])
       (Ray.new (Vec3.new (lit 0) (lit 0) (lit 0))
                (Vec3.new (lit 0) (lit 0) (lit (-1))))
       (Interval.new (lit 0.001) (INFINITY : PrimFloat.float))
     <> HittableList_hit
          (HittableList.mk
             [DynSphere (Sphere.new (Vec3.new (lit 0) (lit 0) (lit (-3))) (lit 1)
                           (DynMetal
                              (Metal.new (Vec3.new (lit 0.5) (lit 0.5) (lit 0.5)) (lit 0))));
              DynSphere (Sphere.new (Vec3.new (lit 0) (lit 0) (lit (-3))) (lit 1)
                           (DynLambertian
                              (Lambertian.new (Vec3.new (lit 0.5) (lit 0.5) (lit 0.5)))))])
          (Ray.new (Vec3.new (lit 0) (lit 0) (lit 0))
                   (Vec3.new (lit 0) (lit 0) (lit (-1))))
          (Interval.new (lit 0.001) INFINITY).
Proof.
  split; [split|].
  - apply perm_swap.
  - rewrite !tie_list_hit. discriminate.
  - vm_compute. discriminate.
Qed.

(** ** The rest of the kernel

    Properties of the functions the claims above leave out, or touch only
    in part, file by file. *)

(** *** vec3.rs: products, lengths and directions *)

(** X1. The cross product of two vectors of real numbers is orthogonal
    to both, changes sign when the operands are swapped, and has the
    squared length [|u|^2 |v|^2 - (u.v)^2]. *)
Theorem Vec3_cross_is_orthogonal :
  forall ux uy uz vx vy vz : R,
    Vec3_dot (Vec3_cross (Vec3_of_R ux uy uz) (Vec3_of_R vx vy vz))
             (Vec3_of_R ux uy uz) = Fin 0
    /\ Vec3_dot (Vec3_cross (Vec3_of_R ux uy uz) (Vec3_of_R vx vy vz))
                (Vec3_of_R vx vy vz) = Fin 0
    /\ Vec3_cross (Vec3_of_R vx vy vz) (Vec3_of_R ux uy uz)
       = Vec3_neg (Vec3_cross (Vec3_of_R ux uy uz) (Vec3_of_R vx vy vz))
    /\ Vec3_length_squared (Vec3_cross (Vec3_of_R ux uy uz) (Vec3_of_R vx vy vz))
       = Fin ((ux * ux + uy * uy + uz * uz) * (vx * vx + vy * vy + vz * vz)
              - (ux * vx + uy * vy + uz * vz) * (ux * vx + uy * vy + uz * vz)).
Proof.
  intros. unfold Vec3_cross. vec_unfold. cbn.
  split; [f_equal; ring|]. split; [f_equal; ring|].
  split; [f_equal; f_equal; ring|f_equal; ring].
Qed.

Lemma Vec3_normalized_zero :
  Vec3_normalized (Vec3_of_R 0 0 0) = Vec3.new NaN NaN NaN.
Proof.
  unfold Vec3_normalized. rewrite Vec3_length_exact.
  replace (0 * 0 + 0 * 0 + 0 * 0) with 0 by lra. rewrite sqrt_0.
  vec_unfold. ecases; reflexivity.
Qed.

Lemma norm_pos (a b c : R) :
  a * a + b * b + c * c <> 0 -> 0 < sqrt (a * a + b * b + c * c).
Proof.
  intros Hnz. apply sqrt_lt_R0.
  pose proof (Rle_0_sqr a). pose proof (Rle_0_sqr b). pose proof (Rle_0_sqr c).
  unfold Rsqr in *. lra.
Qed.

(** X2. [normalized] of a non-zero vector of real numbers has length 1,
    is the vector scaled by [1 / length], and is left unchanged by a second
    [normalized]; of the zero vector it is [(NaN, NaN, NaN)], the division
    [1.0 / 0.0] being multiplied by zeros. *)
Theorem Vec3_normalized_has_unit_length :
  forall a b c : R,
    (a * a + b * b + c * c <> 0 ->
     Vec3_length (Vec3_normalized (Vec3_of_R a b c)) = Fin 1
     /\ Vec3_normalized (Vec3_of_R a b c)
        = f64_mul_Vec3 (Fin (/ sqrt (a * a + b * b + c * c))) (Vec3_of_R a b c)
     /\ Vec3_normalized (Vec3_normalized (Vec3_of_R a b c))
        = Vec3_normalized (Vec3_of_R a b c))
    /\ (a * a + b * b + c * c = 0 ->
        Vec3_normalized (Vec3_of_R a b c) = Vec3.new NaN NaN NaN).
Proof.
  intros a b c. split.
  - intros Hnz. pose proof (norm_pos Hnz) as HL.
    pose proof (Vec3_normalized_is_unit Hnz) as Hu.
    rewrite Vec3_normalized_exact by exact Hnz.
    set (L := sqrt (a * a + b * b + c * c)) in *.
    split; [|split].
    + rewrite Vec3_length_exact, Hu, sqrt_1. reflexivity.
    + vec_unfold. cbn. unfold Rdiv. reflexivity.
    + rewrite Vec3_normalized_exact by (rewrite Hu; lra).
      rewrite Hu, sqrt_1. unfold Vec3_of_R. f_equal; f_equal; field; lra.
  - intros Hz.
    assert (a = 0 /\ b = 0 /\ c = 0) as (-> & -> & ->) by (repeat split; nra).
    apply Vec3_normalized_zero.
Qed.

(** The vector [(3, 4, 0)]. *)
Lemma Vec3_normalized_has_unit_length_witness :
  Vec3_length (Vec3_normalized (Vec3_of_R 3 4 0)) = Fin 1.
Proof.
  apply (proj1 (Vec3_normalized_has_unit_length 3 4 0)). lra.
Defined.

(** X3. About a unit normal, [reflect] keeps the length of the vector
    and undoes itself: reflecting twice gives the vector back. *)
Theorem Vec3_reflect_preserves_length :
  forall vx vy vz nx ny nz : R,
    nx * nx + ny * ny + nz * nz = 1 ->
    Vec3_length_squared (Vec3_reflect (Vec3_of_R vx vy vz) (Vec3_of_R nx ny nz))
    = Vec3_length_squared (Vec3_of_R vx vy vz)
    /\ Vec3_reflect (Vec3_reflect (Vec3_of_R vx vy vz) (Vec3_of_R nx ny nz))
                    (Vec3_of_R nx ny nz)
       = Vec3_of_R vx vy vz.
Proof.
  intros vx vy vz nx ny nz Hn.
  rewrite !Vec3_reflect_of_R, !Vec3_length_squared_exact.
  set (d := vx * nx + vy * ny + vz * nz).
  split.
  - f_equal.
    transitivity (vx * vx + vy * vy + vz * vz
                  - 4 * d * d + 4 * d * d * (nx * nx + ny * ny + nz * nz));
      [unfold d; ring|rewrite Hn; ring].
  - unfold Vec3_of_R.
    assert (Hd : (vx - 2 * d * nx) * nx + (vy - 2 * d * ny) * ny
                 + (vz - 2 * d * nz) * nz = - d).
    { transitivity (d - 2 * d * (nx * nx + ny * ny + nz * nz));
        [unfold d; ring|rewrite Hn; ring]. }
    rewrite Hd. f_equal; f_equal; ring.
Qed.

(** The vector [(1, 2, 3)] and the normal [(0, 0, 1)]. *)
Lemma Vec3_reflect_preserves_length_witness :
  Vec3_reflect (Vec3_reflect (Vec3_of_R 1 2 3) (Vec3_of_R 0 0 1)) (Vec3_of_R 0 0 1)
  = Vec3_of_R 1 2 3.
Proof.
  apply (@Vec3_reflect_preserves_length 1 2 3 0 0 1). lra.
Defined.

Lemma f64_min_exact (a b : R) :
  f64_min (Fin a) (Fin b) = Fin (Rmin a b).
Proof.
  unfold f64_min. rewrite !f64_is_nan_ereal. unfold Rmin.
  cbn [flt ereal_scalar eltb].
  destruct (Rlt_dec a b), (Rle_dec a b); try reflexivity; try (exfalso; lra).
  f_equal. lra.
Qed.

Lemma unit_dot_le_1 (ux uy uz nx ny nz : R) :
  ux * ux + uy * uy + uz * uz = 1 ->
  nx * nx + ny * ny + nz * nz = 1 ->
  - 1 <= ux * nx + uy * ny + uz * nz <= 1.
Proof.
  intros Hu Hn.
  pose proof (Rle_0_sqr (ux - nx)). pose proof (Rle_0_sqr (uy - ny)).
  pose proof (Rle_0_sqr (uz - nz)). pose proof (Rle_0_sqr (ux + nx)).
  pose proof (Rle_0_sqr (uy + ny)). pose proof (Rle_0_sqr (uz + nz)).
  unfold Rsqr in *. lra.
Qed.

(** X4. For unit vectors [uv] and [n] and a real ratio [eta], with
    [c = -uv.n] and [s2 = eta^2 (1 - c^2)] the squared length of the
    perpendicular part: when [s2 <= 1], [refract] returns a unit vector
    whose component along [n] is [-sqrt (1 - s2)]; when [s2 > 1] (total
    internal reflection, which the caller is to rule out) the square root
    of a negative number makes every component [NaN]. *)
Theorem Vec3_refract_is_unit_or_NaN :
  forall ux uy uz nx ny nz eta : R,
    ux * ux + uy * uy + uz * uz = 1 ->
    nx * nx + ny * ny + nz * nz = 1 ->
    let c := - (ux * nx + uy * ny + uz * nz) in
    let s2 := eta * eta * (1 - c * c) in
    (s2 <= 1 ->
     Vec3_refract (Vec3_of_R ux uy uz) (Vec3_of_R nx ny nz) (Fin eta)
     = Vec3_of_R (eta * (ux + c * nx) - sqrt (1 - s2) * nx)
                 (eta * (uy + c * ny) - sqrt (1 - s2) * ny)
                 (eta * (uz + c * nz) - sqrt (1 - s2) * nz)
     /\ Vec3_length_squared
          (Vec3_refract (Vec3_of_R ux uy uz) (Vec3_of_R nx ny nz) (Fin eta))
        = Fin 1
     /\ Vec3_dot (Vec3_refract (Vec3_of_R ux uy uz) (Vec3_of_R nx ny nz) (Fin eta))
                 (Vec3_of_R nx ny nz)
        = Fin (- sqrt (1 - s2)))
    /\ (1 < s2 ->
        Vec3_refract (Vec3_of_R ux uy uz) (Vec3_of_R nx ny nz) (Fin eta)
        = Vec3.new NaN NaN NaN).
Proof.
  intros ux uy uz nx ny nz eta Hu Hn c s2.
  pose proof (unit_dot_le_1 Hu Hn) as Hc.
  assert (Hcos : f64_min (Vec3_dot (Vec3_neg (Vec3_of_R ux uy uz)) (Vec3_of_R nx ny nz))
                         (lit 1) = Fin c).
  { vec_unfold. cbn. lits. rewrite f64_min_exact. f_equal. unfold c, Rmin.
    destruct (Rle_dec _ _); lra. }
  assert (Hd : ux * nx + uy * ny + uz * nz = - c) by (unfold c; lra).
  assert (Hs2 : s2 = eta * eta * (1 - c * c)) by reflexivity.
  unfold Vec3_refract. cbv zeta. rewrite Hcos. clear Hcos. clearbody s2 c.
  vec_unfold. cbn. lits.
  match goal with
  | |- context [Rlt_dec ?e 0] =>
      replace e with (1 - s2)
        by (transitivity
              (1 - eta * eta
                   * ((ux * ux + uy * uy + uz * uz)
                      + 2 * c * (ux * nx + uy * ny + uz * nz)
                      + c * c * (nx * nx + ny * ny + nz * nz)));
            [rewrite Hu, Hn, Hd, Hs2; ring|field])
  end.
  split; intros Hs; destruct (Rlt_dec (1 - s2) 0) as [Hneg|Hpos];
    try (exfalso; lra); cbn; [|reflexivity].
  set (q := sqrt (1 - s2)).
  assert (Hq : q * q = 1 - s2) by (apply sqrt_def; lra).
  split; [unfold Vec3_of_R; f_equal; f_equal; ring|].
  split; f_equal.
  - transitivity
      (eta * eta
       * ((ux * ux + uy * uy + uz * uz)
          + 2 * c * (ux * nx + uy * ny + uz * nz)
          + c * c * (nx * nx + ny * ny + nz * nz))
       - 2 * eta * q * ((ux * nx + uy * ny + uz * nz)
                        + c * (nx * nx + ny * ny + nz * nz))
       + q * q * (nx * nx + ny * ny + nz * nz)); [ring|].
    rewrite Hu, Hn, Hd, Hq, Hs2. ring.
  - transitivity
      (eta * ((ux * nx + uy * ny + uz * nz) + c * (nx * nx + ny * ny + nz * nz))
       - q * (nx * nx + ny * ny + nz * nz)); [ring|].
    rewrite Hn, Hd. ring.
Qed.

(** The direction [(0, 0.6, -0.8)] on the normal [(0, 0, 1)], with the ratios 0.5 and 2. *)
Lemma Vec3_refract_is_unit_or_NaN_witness :
  Vec3_length_squared
    (Vec3_refract (Vec3_of_R 0 0.6 (-0.8)) (Vec3_of_R 0 0 1) (Fin 0.5))
  = Fin 1
  /\ Vec3_refract (Vec3_of_R 0 0.6 (-0.8)) (Vec3_of_R 0 0 1) (Fin 2)
     = Vec3.new NaN NaN NaN.
Proof.
  split.
  - apply (proj1 (@Vec3_refract_is_unit_or_NaN 0 0.6 (-0.8) 0 0 1 0.5
                    ltac:(lra) ltac:(lra))).
    lra.
  - apply (proj2 (@Vec3_refract_is_unit_or_NaN 0 0.6 (-0.8) 0 0 1 2
                    ltac:(lra) ltac:(lra))).
    lra.
Defined.

(** X5. A write through [index_mut] at an index in range is read back
    by [index] at that index, and leaves the other components as they
    were; the reference reads what [index] reads. *)
Theorem Vec3_index_mut_write_then_read :
  forall (f64 : Type) (self : Vec3.Self f64) (i j : N) (a : f64)
         (cell : @RefMut f64),
    Vec3_index_mut self i = Returned cell ->
    Vec3_index self i = Returned (deref cell)
    /\ Vec3_index (assign cell a) i = Returned a
    /\ (j <> i -> Vec3_index (assign cell a) j = Vec3_index self j).
Proof.
  intros f64 self i j a cell.
  destruct i as [|[[|[]|]|[|[]|]|]]; cbn; try discriminate; intros [= <-]; cbn;
    (split; [reflexivity|]); (split; [reflexivity|]); intros Hj;
    destruct j as [|[[|[]|]|[|[]|]|]]; cbn; congruence.
Qed.

(** The component 1 of [(1, 2, 3)], over the integers. *)
Lemma Vec3_index_mut_write_then_read_witness :
  Vec3_index (Vec3.new 1%Z 2%Z 3%Z) 1 = Returned 2%Z
  /\ Vec3_index (Vec3.new 1%Z 7%Z 3%Z) 1 = Returned 7%Z
  /\ (2%N <> 1%N -> Vec3_index (Vec3.new 1%Z 7%Z 3%Z) 2
                    = Vec3_index (Vec3.new 1%Z 2%Z 3%Z) 2).
Proof.
  apply (@Vec3_index_mut_write_then_read Z (Vec3.new 1%Z 2%Z 3%Z) 1 2 7%Z
           {| deref := 2%Z; assign := fun a => Vec3.new 1%Z a 3%Z |}).
  reflexivity.
Defined.

(** *** rtweekend.rs and vec3.rs: the random vectors *)

Section RandomLoops.
Context {f64 : Type} `{Scalar f64}.

Local Open Scope f64_scope.

Lemma Vec3_random_in_unit_sphere_loop_inv (fuel : nat) :
  forall (rng : Rng f64) (p : Vec3.Self f64) (rng' : Rng f64),
    Vec3_random_in_unit_sphere_loop fuel rng = Some (p, rng') ->
    (Vec3_length_squared p <? lit 1) = true
    /\ tape_accepts rng
    /\ exists used, rng = (used ++ rng')%list
                    /\ exists k, (0 < k)%nat /\ length used = (3 * k)%nat.
Proof.
  induction fuel as [|fuel IH]; intros rng p rng'; [discriminate|].
  cbn [Vec3_random_in_unit_sphere_loop]. unfold bind at 1.
  destruct rng as [|u1 [|u2 [|u3 rng]]]; try discriminate.
  rewrite Vec3_random_interval_cons. fold (sphere_candidate u1 u2 u3).
  destruct (_ <? _) eqn:Hk.
  - intros [= <- <-]. split; [exact Hk|]. split; [now apply accepts_here|].
    exists [u1; u2; u3]. split; [reflexivity|]. exists 1%nat. split; [lia|reflexivity].
  - intros Hrec. destruct (IH _ _ _ Hrec) as (Hin & Hacc & used & -> & k & Hk0 & Hlen).
    split; [exact Hin|]. split; [now apply accepts_later|].
    exists (u1 :: u2 :: u3 :: used). split; [reflexivity|].
    exists (S k). split; [lia|]. cbn [length]. lia.
Qed.

Lemma Vec3_random_in_unit_disk_loop_cons (fuel : nat) (u1 u2 : f64) (rng : Rng f64) :
  Vec3_random_in_unit_disk_loop (S fuel) (u1 :: u2 :: rng)
  = let p := Vec3.new (- lit 1 + (lit 1 - - lit 1) * u1)
                      (- lit 1 + (lit 1 - - lit 1) * u2) (lit 0) in
    if Vec3_length_squared p <? lit 1 then Some (p, rng)
    else Vec3_random_in_unit_disk_loop fuel rng.
Proof.
  cbn [Vec3_random_in_unit_disk_loop]. unfold bind, random_f64_range, bind, random_f64, ret.
  cbv zeta. destruct (_ <? _); reflexivity.
Qed.

Lemma Vec3_random_in_unit_disk_loop_inv (fuel : nat) :
  forall (rng : Rng f64) (p : Vec3.Self f64) (rng' : Rng f64),
    Vec3_random_in_unit_disk_loop fuel rng = Some (p, rng') ->
    (Vec3_length_squared p <? lit 1) = true
    /\ Vec3.z p = lit 0
    /\ exists used, rng = (used ++ rng')%list
                    /\ exists k, (0 < k)%nat /\ length used = (2 * k)%nat.
Proof.
  induction fuel as [|fuel IH]; intros rng p rng'; [discriminate|].
  destruct rng as [|u1 [|u2 rng]]; try discriminate.
  rewrite Vec3_random_in_unit_disk_loop_cons. cbv zeta.
  destruct (Vec3_length_squared (Vec3.new _ _ _) <? _) eqn:Hk.
  - intros [= <- <-]. split; [exact Hk|]. split; [reflexivity|].
    exists [u1; u2]. split; [reflexivity|]. exists 1%nat. split; [lia|reflexivity].
  - intros Hrec. destruct (IH _ _ _ Hrec) as (Hin & Hz & used & -> & k & Hk0 & Hlen).
    split; [exact Hin|]. split; [exact Hz|].
    exists (u1 :: u2 :: used). split; [reflexivity|].
    exists (S k). split; [lia|]. cbn [length]. lia.
Qed.
End RandomLoops.

Lemma unit_draws_example :
  Forall unit_draw [Fin 0.5; Fin 0.5; Fin 0.25].
Proof. repeat constructor; eexists; (split; [reflexivity|lra]). Qed.





(** X7. In every number model, [random_in_unit_sphere] returns exactly
    on the tapes that hold a candidate the loop keeps; the point it returns
    has a squared length below 1, and the loop has used a positive multiple
    of three draws, from the front of the tape. *)
Theorem Vec3_random_in_unit_sphere_returns_inside :
  forall (f64 : Type) (S : Scalar f64) (rng : Rng f64),
    ((exists p rng', Vec3_random_in_unit_sphere rng = Some (p, rng'))
     <-> tape_accepts rng)
    /\ (forall (p : Vec3.Self f64) (rng' : Rng f64),
           Vec3_random_in_unit_sphere rng = Some (p, rng') ->
           flt (Vec3_length_squared p) (lit 1) = true
           /\ exists (used : list f64) (k : nat),
                rng = (used ++ rng')%list /\ (0 < k)%nat
                /\ length used = (3 * k)%nat).
Proof.
  intros f64 S rng. split; [split|].
  - intros (p & rng' & Hp). now apply Vec3_random_in_unit_sphere_loop_inv in Hp.
  - intros Hacc.
    destruct (@Vec3_random_in_unit_sphere_loop_returns _ _ rng Hacc (length rng))
      as (p & rng' & Hp & _); [lia|].
    now exists p, rng'.
  - intros p rng' Hp.
    apply Vec3_random_in_unit_sphere_loop_inv in Hp.
    destruct Hp as (Hin & _ & used & Hu & k & Hk & Hlen).
    split; [exact Hin|]. now exists used, k.
Qed.

(** In binary64, the tape [0.75, 0.25, 0.5, 0.125]: the first candidate [(0.5, -0.5, 0)] is kept. *)
Lemma Vec3_random_in_unit_sphere_returns_inside_witness :
  flt (Vec3_length_squared
         (Vec3.new (lit 0.5) (lit (-0.5)) (lit 0) : Vec3.Self PrimFloat.float))
      (lit 1) = true
  /\ exists (used : list PrimFloat.float) (k : nat),
       [lit 0.75; lit 0.25; lit 0.5; lit 0.125]%list = (used ++ [lit 0.125])%list
       /\ (0 < k)%nat /\ length used = (3 * k)%nat.
Proof.
  apply (proj2 (@Vec3_random_in_unit_sphere_returns_inside PrimFloat.float _
                  [lit 0.75; lit 0.25; lit 0.5; lit 0.125]%list)).
  vm_compute. reflexivity.
Defined.

(** X8. In every number model, the point [random_in_unit_disk] returns
    has a squared length below 1 and a [z] of [0.0], and the loop has used
    a positive multiple of two draws, from the front of the tape. *)
Theorem Vec3_random_in_unit_disk_returns_inside :
  forall (f64 : Type) (S : Scalar f64) (rng rng' : Rng f64) (p : Vec3.Self f64),
    Vec3_random_in_unit_disk rng = Some (p, rng') ->
    flt (Vec3_length_squared p) (lit 1) = true
    /\ Vec3.z p = lit 0
    /\ exists (used : list f64) (k : nat),
         rng = (used ++ rng')%list /\ (0 < k)%nat
         /\ length used = (2 * k)%nat.
Proof.
  intros f64 S rng rng' p Hp.
  apply Vec3_random_in_unit_disk_loop_inv in Hp.
  destruct Hp as (Hin & Hz & used & Hu & k & Hk & Hlen).
  split; [exact Hin|]. split; [exact Hz|]. now exists used, k.
Qed.

(** In binary64, the tape [0.875, 0.875, 0.75, 0.25, 0.5]: the first
    candidate is rejected, the second kept. *)
Lemma Vec3_random_in_unit_disk_returns_inside_witness :
  flt (Vec3_length_squared
         (Vec3.new (lit 0.5) (lit (-0.5)) (lit 0) : Vec3.Self PrimFloat.float))
      (lit 1) = true
  /\ Vec3.z (Vec3.new (lit 0.5) (lit (-0.5)) (lit 0) : Vec3.Self PrimFloat.float)
     = lit 0
  /\ exists (used : list PrimFloat.float) (k : nat),
       [lit 0.875; lit 0.875; lit 0.75; lit 0.25; lit 0.5]%list = (used ++ [lit 0.5])%list
       /\ (0 < k)%nat /\ length used = (2 * k)%nat.
Proof.
  apply (@Vec3_random_in_unit_disk_returns_inside PrimFloat.float _
            [lit 0.875; lit 0.875; lit 0.75; lit 0.25; lit 0.5]%list).
  vm_compute. reflexivity.
Defined.

Lemma Vec3_random_in_unit_sphere_real (fuel : nat) :
  forall (rng rng' : Rng ereal) (p : Vec3.Self ereal),
    Forall unit_draw rng ->
    Vec3_random_in_unit_sphere_loop fuel rng = Some (p, rng') ->
    exists px py pz : R,
      p = Vec3_of_R px py pz /\ px * px + py * py + pz * pz < 1
      /\ Forall unit_draw rng'.
Proof.
  induction fuel as [|fuel IH]; intros rng rng' p Hdraws; [discriminate|].
  cbn [Vec3_random_in_unit_sphere_loop]. unfold bind at 1.
  destruct rng as [|u1 [|u2 [|u3 rng1]]]; try discriminate.
  rewrite Vec3_random_interval_cons.
  inversion Hdraws as [|? ? (a & -> & Ha) Hr1]; subst.
  inversion Hr1 as [|? ? (b & -> & Hb) Hr2]; subst.
  inversion Hr2 as [|? ? (c & -> & Hc) Hr3]; subst.
  assert (Hp : Vec3.new (fadd (fneg (lit 1)) (fmul (fsub (lit 1) (fneg (lit 1))) (Fin a)))
                        (fadd (fneg (lit 1)) (fmul (fsub (lit 1) (fneg (lit 1))) (Fin b)))
                        (fadd (fneg (lit 1)) (fmul (fsub (lit 1) (fneg (lit 1))) (Fin c)))
               = Vec3_of_R (2 * a - 1) (2 * b - 1) (2 * c - 1)).
  { cbn. lits. unfold Vec3_of_R. f_equal; f_equal; lra. }
  rewrite Hp, Vec3_length_squared_exact.
  cbn [flt lit ereal_scalar eltb]. lits.
  destruct (Rlt_dec _ _) as [Hlt|Hge].
  - intros [= <- <-]. exists (2 * a - 1), (2 * b - 1), (2 * c - 1).
    repeat split; try lra; assumption.
  - intros Hrec. exact (IH _ _ _ Hr3 Hrec).
Qed.

Lemma Vec3_random_in_unit_disk_real (fuel : nat) :
  forall (rng rng' : Rng ereal) (p : Vec3.Self ereal),
    Forall unit_draw rng ->
    Vec3_random_in_unit_disk_loop fuel rng = Some (p, rng') ->
    exists px py : R,
      p = Vec3_of_R px py 0 /\ px * px + py * py < 1
      /\ -1 <= px < 1 /\ -1 <= py < 1 /\ Forall unit_draw rng'.
Proof.
  induction fuel as [|fuel IH]; intros rng rng' p Hdraws; [discriminate|].
  destruct rng as [|u1 [|u2 rng1]]; try discriminate.
  rewrite Vec3_random_in_unit_disk_loop_cons. cbv zeta.
  inversion Hdraws as [|? ? (a & -> & Ha) Hrest]; subst.
  inversion Hrest as [|? ? (b & -> & Hb) Hrest']; subst.
  assert (Hp : Vec3.new (fadd (fneg (lit 1)) (fmul (fsub (lit 1) (fneg (lit 1))) (Fin a)))
                        (fadd (fneg (lit 1)) (fmul (fsub (lit 1) (fneg (lit 1))) (Fin b)))
                        (lit 0)
               = Vec3_of_R (2 * a - 1) (2 * b - 1) 0).
  { cbn. lits. unfold Vec3_of_R. f_equal; f_equal; lra. }
  rewrite Hp, Vec3_length_squared_exact.
  cbn [flt lit ereal_scalar eltb]. lits.
  destruct (Rlt_dec _ _) as [Hlt|Hge].
  - intros [= <- <-]. exists (2 * a - 1), (2 * b - 1).
    repeat split; try lra; assumption.
  - intros Hrec. exact (IH _ _ _ Hrest' Hrec).
Qed.

Lemma Vec3_random_unit_vector_real (rng rng' : Rng ereal) (u : Vec3.Self ereal) :
  Forall unit_draw rng ->
  Vec3_random_unit_vector rng = Some (u, rng') ->
  exists px py pz : R,
    Vec3_random_in_unit_sphere rng = Some (Vec3_of_R px py pz, rng')
    /\ px * px + py * py + pz * pz < 1
    /\ u = Vec3_normalized (Vec3_of_R px py pz)
    /\ Forall unit_draw rng'.
Proof.
  intros Hdraws. unfold Vec3_random_unit_vector, bind.
  destruct (Vec3_random_in_unit_sphere rng) as [[p rng1]|] eqn:Hp; [|discriminate].
  destruct (Vec3_random_in_unit_sphere_real _ Hdraws Hp) as (px & py & pz & -> & Hin & Hr).
  intros [= <- <-]. now exists px, py, pz.
Qed.

Lemma Vec3_random_unit_vector_example :
  Vec3_random_unit_vector [Fin 0.5; Fin 0.5; Fin 0.25]
  = Some (Vec3_normalized (Vec3_of_R 0 0 (-0.5)), []).
Proof.
  unfold Vec3_random_unit_vector, bind.
  rewrite (@Vec3_random_in_unit_sphere_first 0.5 0.5 0.25 0 0 (-0.5)); try lra.
  reflexivity.
Qed.

(** X9. On draws from [[0,1)], [random_unit_vector] returns a vector
    of length 1, unless the point the rejection loop kept is the origin:
    then it returns [(NaN, NaN, NaN)]. *)
Theorem Vec3_random_unit_vector_is_unit :
  forall (rng rng' : Rng ereal) (u : Vec3.Self ereal),
    Forall unit_draw rng ->
    Vec3_random_unit_vector rng = Some (u, rng') ->
    (exists a b c : R, u = Vec3_of_R a b c /\ a * a + b * b + c * c = 1
                       /\ Vec3_length u = Fin 1)
    \/ (u = Vec3.new NaN NaN NaN
        /\ Vec3_random_in_unit_sphere rng = Some (Vec3_of_R 0 0 0, rng')).
Proof.
  intros rng rng' u Hdraws Hu.
  destruct (Vec3_random_unit_vector_real Hdraws Hu)
    as (px & py & pz & Hp & _ & -> & _).
  destruct (Req_dec_T (px * px + py * py + pz * pz) 0) as [Hz|Hnz].
  - right.
    assert (px = 0 /\ py = 0 /\ pz = 0) as (-> & -> & ->) by (repeat split; nra).
    split; [apply Vec3_normalized_zero|exact Hp].
  - left. rewrite Vec3_normalized_exact by exact Hnz.
    pose proof (Vec3_normalized_is_unit Hnz) as Hunit.
    do 3 eexists. split; [reflexivity|]. split; [exact Hunit|].
    rewrite Vec3_length_exact, Hunit, sqrt_1. reflexivity.
Qed.

(** The tape [0.5, 0.5, 0.25], whose candidate is [(0, 0, -0.5)]. *)
Lemma Vec3_random_unit_vector_is_unit_witness :
  (exists a b c : R,
      Vec3_normalized (Vec3_of_R 0 0 (-0.5)) = Vec3_of_R a b c
      /\ a * a + b * b + c * c = 1
      /\ Vec3_length (Vec3_normalized (Vec3_of_R 0 0 (-0.5))) = Fin 1)
  \/ (Vec3_normalized (Vec3_of_R 0 0 (-0.5)) = Vec3.new NaN NaN NaN
      /\ Vec3_random_in_unit_sphere [Fin 0.5; Fin 0.5; Fin 0.25]
         = Some (Vec3_of_R 0 0 0, [])).
Proof.
  exact (@Vec3_random_unit_vector_is_unit _ _ _ unit_draws_example
           Vec3_random_unit_vector_example).
Defined.



(** *** interval.rs *)

(** X11. [clamp] returns [NaN] for [NaN]; it returns [x] itself when the
    interval contains [x]; and for [min <= max] and any other [x] it
    returns a number the interval contains, which a second [clamp] leaves
    unchanged. *)
Theorem Interval_clamp_lands_inside :
  forall (mn mx x : ereal),
    Interval_clamp (Interval.new mn mx) NaN = NaN
    /\ (Interval_contains (Interval.new mn mx) x = true ->
        Interval_clamp (Interval.new mn mx) x = x)
    /\ (fle mn mx = true -> f64_is_nan x = false ->
        Interval_contains (Interval.new mn mx)
                          (Interval_clamp (Interval.new mn mx) x) = true
        /\ Interval_clamp (Interval.new mn mx)
                          (Interval_clamp (Interval.new mn mx) x)
           = Interval_clamp (Interval.new mn mx) x).
Proof.
  intros mn mx x. unfold Interval_clamp, Interval_contains.
  cbn [Interval.min Interval.max]. rewrite f64_is_nan_ereal.
  split; [destruct mn, mx; reflexivity|]. split.
  - destruct mn, mx, x; ecases; reflexivity.
  - destruct mn, mx, x; ecases; intros; ecases; split; ecases; reflexivity.
Qed.

(** The interval [[0, 1]] with 0.5 and with 2. *)
Lemma Interval_clamp_lands_inside_witness :
  Interval_clamp (Interval.new (Fin 0) (Fin 1)) (Fin 0.5) = Fin 0.5
  /\ Interval_contains (Interval.new (Fin 0) (Fin 1))
                       (Interval_clamp (Interval.new (Fin 0) (Fin 1)) (Fin 2)) = true
  /\ Interval_clamp (Interval.new (Fin 0) (Fin 1))
                    (Interval_clamp (Interval.new (Fin 0) (Fin 1)) (Fin 2))
     = Interval_clamp (Interval.new (Fin 0) (Fin 1)) (Fin 2).
Proof.
  split.
  - apply (proj1 (proj2 (Interval_clamp_lands_inside (Fin 0) (Fin 1) (Fin 0.5)))).
    unfold Interval_contains. ecases; reflexivity.
  - apply (proj2 (proj2 (Interval_clamp_lands_inside (Fin 0) (Fin 1) (Fin 2)))).
    + ecases; reflexivity.
    + apply f64_is_nan_ereal.
Defined.

(** X12. What an interval surrounds it contains.  [EMPTY], and so
    [default()], contains and surrounds nothing; [UNIVERSE] contains every
    number but [NaN], and surrounds exactly the finite ones. *)
Theorem Interval_EMPTY_and_UNIVERSE :
  forall (self : Interval.Self ereal) (x : ereal),
    (Interval_surrounds self x = true -> Interval_contains self x = true)
    /\ Interval_contains Interval_EMPTY x = false
    /\ Interval_surrounds Interval_EMPTY x = false
    /\ Interval_contains Interval_default x = false
    /\ Interval_contains Interval_UNIVERSE x = negb (f64_is_nan x)
    /\ Interval_surrounds Interval_UNIVERSE x
       = match x with Fin _ => true | _ => false end.
Proof.
  intros [mn mx] x. rewrite f64_is_nan_ereal.
  unfold Interval_default, Interval_EMPTY, Interval_UNIVERSE,
    Interval_surrounds, Interval_contains.
  cbn [Interval.min Interval.max].
  split; [destruct mn, mx, x; ecases; reflexivity|].
  destruct x; repeat split; reflexivity.
Qed.

(** The interval [[0, 1]] and the number 0.5. *)
Lemma Interval_EMPTY_and_UNIVERSE_witness :
  Interval_contains (Interval.new (Fin 0) (Fin 1)) (Fin 0.5) = true.
Proof.
  apply (proj1 (Interval_EMPTY_and_UNIVERSE (Interval.new (Fin 0) (Fin 1)) (Fin 0.5))).
  unfold Interval_surrounds. ecases; reflexivity.
Defined.

(** *** sphere.rs: where the hit lies *)

(** X13. For real data and a radius other than 0, the record of a hit
    has a real [t] strictly inside the interval, a point [p] on the sphere
    ([|p - center|^2 = radius^2]), a normal of length 1 and the material of
    the sphere. *)
Theorem Sphere_hit_point_on_surface :
  forall (cx cy cz rho ox oy oz dx dy dz : R) (mat : dynMaterial ereal)
         (ray_t : Interval.Self ereal) (rec : HitRecord.Self ereal),
    rho <> 0 ->
    Sphere_hit (Sphere.new (Vec3_of_R cx cy cz) (Fin rho) mat)
               (Ray.new (Vec3_of_R ox oy oz) (Vec3_of_R dx dy dz)) ray_t
    = Some rec ->
    exists tau px py pz nx ny nz : R,
      HitRecord.t rec = Fin tau
      /\ Interval_surrounds ray_t (Fin tau) = true
      /\ HitRecord.p rec = Vec3_of_R px py pz
      /\ (px - cx) * (px - cx) + (py - cy) * (py - cy) + (pz - cz) * (pz - cz)
         = rho * rho
      /\ HitRecord.normal rec = Vec3_of_R nx ny nz
      /\ nx * nx + ny * ny + nz * nz = 1
      /\ HitRecord.mat rec = mat.
Proof.
  intros cx cy cz rho ox oy oz dx dy dz mat ray_t rec Hrho Hhit.
  destruct (Sphere_hit_root_of_quadratic _ _ _ _ _ _ _ _ _ _ _ _ Hhit)
    as (tau & Ht & Hq).
  destruct (Sphere_hit_Some_record _ _ _ Hhit) as [Hrec Hs].
  rewrite Ht in Hrec, Hs.
  rewrite (@Sphere_hit_record_exact cx cy cz rho ox oy oz dx dy dz tau
             (ox + tau * dx) (oy + tau * dy) (oz + tau * dz)
             ((ox + tau * dx - cx) / rho) ((oy + tau * dy - cy) / rho)
             ((oz + tau * dz - cz) / rho) mat Hrho) in Hrec by reflexivity.
  assert (Hsurf : (ox + tau * dx - cx) * (ox + tau * dx - cx)
                  + (oy + tau * dy - cy) * (oy + tau * dy - cy)
                  + (oz + tau * dz - cz) * (oz + tau * dz - cz) = rho * rho)
    by (ring_simplify in Hq; ring_simplify; lra).
  assert (Hunit : (ox + tau * dx - cx) / rho * ((ox + tau * dx - cx) / rho)
                  + (oy + tau * dy - cy) / rho * ((oy + tau * dy - cy) / rho)
                  + (oz + tau * dz - cz) / rho * ((oz + tau * dz - cz) / rho) = 1).
  { transitivity (((ox + tau * dx - cx) * (ox + tau * dx - cx)
                   + (oy + tau * dy - cy) * (oy + tau * dy - cy)
                   + (oz + tau * dz - cz) * (oz + tau * dz - cz)) / (rho * rho));
      [field; exact Hrho|rewrite Hsurf; field; exact Hrho]. }
  exists tau, (ox + tau * dx), (oy + tau * dy), (oz + tau * dz).
  destruct (Rlt_dec _ 0) in Hrec; subst rec; cbn [HitRecord.t HitRecord.p
    HitRecord.normal HitRecord.mat]; do 3 eexists;
    (split; [reflexivity|]); (split; [exact Hs|]); (split; [reflexivity|]);
    (split; [exact Hsurf|]); (split; [reflexivity|]); (split; [|reflexivity]);
    lra.
Qed.

(** The unit sphere at [(0, 0, -3)], from the origin along [-z]. *)
Lemma Sphere_hit_point_on_surface_witness :
  exists tau px py pz nx ny nz : R,
    Fin 2 = Fin tau
    /\ Interval_surrounds (Interval.new (lit 0.001) INFINITY) (Fin tau) = true
    /\ Vec3_of_R 0 0 (-2) = Vec3_of_R px py pz
    /\ (px - 0) * (px - 0) + (py - 0) * (py - 0) + (pz - -3) * (pz - -3) = 1 * 1
    /\ Vec3_of_R 0 0 1 = Vec3_of_R nx ny nz
    /\ nx * nx + ny * ny + nz * nz = 1
    /\ @NullMaterial ereal = NullMaterial.
Proof.
  apply (@Sphere_hit_point_on_surface 0 0 (-3) 1 0 0 0 0 0 (-1) NullMaterial
           (Interval.new (lit 0.001) INFINITY)
           (HitRecord.mk (Vec3_of_R 0 0 (-2)) (Vec3_of_R 0 0 1) (Fin 2)
                         NullMaterial true)).
  - lra.
  - apply unit_sphere_hit_head_on.
Defined.

Lemma Sphere_hit_radius_sign (cx cy cz rho ox oy oz dx dy dz : R)
    (mat : dynMaterial ereal) (ray_t : Interval.Self ereal) :
  Sphere_hit (Sphere.new (Vec3_of_R cx cy cz) (Fin (- rho)) mat)
             (Ray.new (Vec3_of_R ox oy oz) (Vec3_of_R dx dy dz)) ray_t
  = match Sphere_hit (Sphere.new (Vec3_of_R cx cy cz) (Fin rho) mat)
                     (Ray.new (Vec3_of_R ox oy oz) (Vec3_of_R dx dy dz)) ray_t with
    | Some rec =>
        Some (Sphere_hit_record (Sphere.new (Vec3_of_R cx cy cz) (Fin (- rho)) mat)
                (Ray.new (Vec3_of_R ox oy oz) (Vec3_of_R dx dy dz))
                (HitRecord.t rec))
    | None => None
    end.
Proof.
  rewrite !Sphere_hit_unfold.
  set (s := Sphere.new (Vec3_of_R cx cy cz) (Fin rho) mat).
  set (s' := Sphere.new (Vec3_of_R cx cy cz) (Fin (- rho)) mat).
  set (r := Ray.new (Vec3_of_R ox oy oz) (Vec3_of_R dx dy dz)).
  assert (Hc : quadratic_c s' r = quadratic_c s r).
  { unfold quadratic_c, s, s'.
    cbn [Sphere.radius Sphere.center fsub fmul ereal_scalar emul].
    replace (- rho * - rho) with (rho * rho) by ring. reflexivity. }
  assert (Hd : quadratic_discriminant s' r = quadratic_discriminant s r).
  { unfold quadratic_discriminant. rewrite Hc. reflexivity. }
  assert (H1 : smaller_root s' r = smaller_root s r).
  { unfold smaller_root. rewrite Hd. reflexivity. }
  assert (H2 : larger_root s' r = larger_root s r).
  { unfold larger_root. rewrite Hd. reflexivity. }
  rewrite Hd, H1, H2.
  destruct (flt _ _); [reflexivity|].
  destruct (Interval_surrounds ray_t (smaller_root s r)); [reflexivity|].
  destruct (Interval_surrounds ray_t (larger_root s r)); reflexivity.
Qed.

(** X14. A sphere of radius [-rho] is hit where the sphere of radius
    [rho] is: same [t], same point, same material.  Unless the ray is
    tangent there, the stored normal is the same too and [front_face] is
    the opposite: the sphere is seen from inside out. *)
Theorem Sphere_hit_negative_radius_flips_face :
  forall (cx cy cz rho ox oy oz dx dy dz : R) (mat : dynMaterial ereal)
         (ray_t : Interval.Self ereal) (rec : HitRecord.Self ereal),
    rho <> 0 ->
    Sphere_hit (Sphere.new (Vec3_of_R cx cy cz) (Fin rho) mat)
               (Ray.new (Vec3_of_R ox oy oz) (Vec3_of_R dx dy dz)) ray_t
    = Some rec ->
    exists rec',
      Sphere_hit (Sphere.new (Vec3_of_R cx cy cz) (Fin (- rho)) mat)
                 (Ray.new (Vec3_of_R ox oy oz) (Vec3_of_R dx dy dz)) ray_t
      = Some rec'
      /\ HitRecord.t rec' = HitRecord.t rec
      /\ HitRecord.p rec' = HitRecord.p rec
      /\ HitRecord.mat rec' = HitRecord.mat rec
      /\ (Vec3_dot (Vec3_of_R dx dy dz) (HitRecord.normal rec) <> Fin 0 ->
          HitRecord.front_face rec' = negb (HitRecord.front_face rec)
          /\ HitRecord.normal rec' = HitRecord.normal rec).
Proof.
  intros cx cy cz rho ox oy oz dx dy dz mat ray_t rec Hrho Hhit.
  rewrite Sphere_hit_radius_sign, Hhit. eexists. split; [reflexivity|].
  destruct (Sphere_hit_Some_record _ _ _ Hhit) as [Hrec Hs].
  destruct ray_t as [mn mx].
  apply Interval_surrounds_Fin in Hs. destruct Hs as (tau & Ht & _).
  rewrite Ht in *.
  set (nx := (ox + tau * dx - cx) / rho). set (ny := (oy + tau * dy - cy) / rho).
  set (nz := (oz + tau * dz - cz) / rho).
  rewrite (@Sphere_hit_record_exact cx cy cz rho ox oy oz dx dy dz tau
             (ox + tau * dx) (oy + tau * dy) (oz + tau * dz) nx ny nz mat Hrho)
    in Hrec by reflexivity.
  rewrite (@Sphere_hit_record_exact cx cy cz (- rho) ox oy oz dx dy dz tau
             (ox + tau * dx) (oy + tau * dy) (oz + tau * dz)
             (- nx) (- ny) (- nz) mat)
    by first [reflexivity | lra | (unfold nx, ny, nz; field; lra)].
  clearbody nx ny nz. subst rec.
  cbn [HitRecord.t HitRecord.p HitRecord.mat HitRecord.normal HitRecord.front_face].
  do 3 (split; [reflexivity|]).
  destruct (Rlt_dec (dx * nx + dy * ny + dz * nz) 0) as [Hf|Hf];
    destruct (Rlt_dec (dx * - nx + dy * - ny + dz * - nz) 0) as [Hb|Hb];
    try (exfalso; lra); vec_unfold; cbn; intros Hne.
  - split; [reflexivity|]. f_equal; f_equal; ring.
  - split; reflexivity.
  - exfalso. apply Hne. f_equal. lra.
Qed.

(** The unit sphere at [(0, 0, -3)] and the sphere of radius -1 in its place. *)
Lemma Sphere_hit_negative_radius_flips_face_witness :
  exists rec',
    Sphere_hit (Sphere.new (Vec3_of_R 0 0 (-3)) (Fin (- 1)) (@NullMaterial ereal))
               (Ray.new (Vec3_of_R 0 0 0) (Vec3_of_R 0 0 (-1)))
               (Interval.new (lit 0.001) INFINITY)
    = Some rec'
    /\ HitRecord.t rec' = Fin 2
    /\ HitRecord.p rec' = Vec3_of_R 0 0 (-2)
    /\ HitRecord.mat rec' = NullMaterial
    /\ (Vec3_dot (Vec3_of_R 0 0 (-1)) (Vec3_of_R 0 0 1) <> Fin 0 ->
        HitRecord.front_face rec' = negb true
        /\ HitRecord.normal rec' = Vec3_of_R 0 0 1).
Proof.
  apply (@Sphere_hit_negative_radius_flips_face 0 0 (-3) 1 0 0 0 0 0 (-1)
           NullMaterial (Interval.new (lit 0.001) INFINITY)
           (HitRecord.mk (Vec3_of_R 0 0 (-2)) (Vec3_of_R 0 0 1) (Fin 2)
                         NullMaterial true)).
  - lra.
  - apply unit_sphere_hit_head_on.
Defined.

(** *** hittable.rs and hittable_list.rs: every [hit] and its interval *)

(** X15. For a sphere, a list, or any nesting of them: a hit has a real
    [t] strictly inside [(min, max)]; on the interval cut down to
    [(min, gamma)] the object reports the same hit when its [t] is below
    [gamma], and nothing otherwise; and on an interval with [max <= min],
    such as [EMPTY], it reports nothing. *)
Theorem dynHittable_hit_respects_interval :
  forall (object : dynHittable ereal) (r : Ray.Self ereal) (mn mx : ereal),
    (forall rec,
        dynHittable_hit object r (Interval.new mn mx) = Some rec ->
        exists tau, HitRecord.t rec = Fin tau
                    /\ flt mn (Fin tau) = true /\ flt (Fin tau) mx = true)
    /\ (forall gamma,
           flt (Fin gamma) mx = true ->
           dynHittable_hit object r (Interval.new mn (Fin gamma))
           = match dynHittable_hit object r (Interval.new mn mx) with
             | Some rec => if flt (HitRecord.t rec) (Fin gamma) then Some rec
                           else None
             | None => None
             end)
    /\ (fle mx mn = true ->
        dynHittable_hit object r (Interval.new mn mx) = None)
    /\ dynHittable_hit object r Interval_EMPTY = None.
Proof.
  intros object r mn mx.
  destruct (dynHittable_contract object r mn mx) as [K1 K2].
  split; [exact K1|]. split; [exact K2|].
  assert (Hempty : forall a b, fle b a = true ->
                     dynHittable_hit object r (Interval.new a b) = None).
  { intros a b Hle.
    destruct (dynHittable_hit object r (Interval.new a b)) as [rec|] eqn:E;
      [|reflexivity].
    destruct (proj1 (dynHittable_contract object r a b) rec E)
      as (tau & _ & H1 & H2).
    exfalso. revert Hle H1 H2. cbn [fle ereal_scalar].
    destruct a, b; ecases. }
  split; [apply Hempty|]. apply Hempty. reflexivity.
Qed.

(** The unit sphere at [(0, 0, -3)], on [(0.001, inf)] and on [(5, 1)]. *)
Lemma dynHittable_hit_respects_interval_witness :
  (exists tau, Fin 2 = Fin tau
               /\ flt (lit 0.001) (Fin tau) = true
               /\ flt (Fin tau) (INFINITY : ereal) = true)
  /\ dynHittable_hit
       (DynSphere (Sphere.new (Vec3_of_R 0 0 (-3)) (Fin 1) (@NullMaterial ereal)))
       (Ray.new (Vec3_of_R 0 0 0) (Vec3_of_R 0 0 (-1)))
       (Interval.new (Fin 5) (Fin 1))
     = None.
Proof.
  split.
  - apply (proj1 (dynHittable_hit_respects_interval
                    (DynSphere (Sphere.new (Vec3_of_R 0 0 (-3)) (Fin 1) NullMaterial))
                    (Ray.new (Vec3_of_R 0 0 0) (Vec3_of_R 0 0 (-1)))
                    (lit 0.001) INFINITY)
                 (HitRecord.mk (Vec3_of_R 0 0 (-2)) (Vec3_of_R 0 0 1) (Fin 2)
                               NullMaterial true)).
    apply unit_sphere_hit_head_on.
  - apply (proj1 (proj2 (proj2 (dynHittable_hit_respects_interval
                    (DynSphere (Sphere.new (Vec3_of_R 0 0 (-3)) (Fin 1) NullMaterial))
                    (Ray.new (Vec3_of_R 0 0 0) (Vec3_of_R 0 0 (-1)))
                    (Fin 5) (Fin 1))))).
    ecases; reflexivity.
Defined.

Lemma nearer_Some (b x : HitRecord.Self ereal) (beta xi : R) :
  HitRecord.t b = Fin beta -> HitRecord.t x = Fin xi ->
  nearer (Some b) x = if Rlt_dec xi beta then Some x else Some b.
Proof.
  intros Hb Hx. unfold nearer. cbn [flt ereal_scalar]. rewrite Hb, Hx.
  cbn [eltb]. destruct (Rlt_dec xi beta); reflexivity.
Qed.

(** Started from a record, the fold keeps the better of that record and
    the first nearest of the list. *)
Lemma fold_nearer_from (mn mx : ereal) (hits : list (HitRecord.Self ereal)) :
  Forall (hit_inside mn mx) hits ->
  forall b, hit_inside mn mx b ->
    fold_left nearer hits (Some b)
    = match first_nearest hits with
      | Some x => nearer (Some b) x
      | None => Some b
      end.
Proof.
  unfold first_nearest.
  induction 1 as [|h hits (eta & He & Hh1 & Hh2) Hall IH];
    intros b Hb; [reflexivity|].
  assert (Hh : hit_inside mn mx h) by (exists eta; auto).
  pose proof Hb as (beta & Hbeta & Hb1 & Hb2).
  cbn [fold_left]. change (nearer None h) with (Some h).
  rewrite (nearer_Some b h Hbeta He).
  assert (Hy : forall y, fold_left nearer hits None = Some y ->
                 exists ups, HitRecord.t y = Fin ups).
  { intros y Ey. apply fold_nearer_In in Ey. destruct Ey as [Ey|Ey]; [discriminate|].
    rewrite Forall_forall in Hall. destruct (Hall y Ey) as (ups & Hy & _).
    now exists ups. }
  destruct (Rlt_dec eta beta) as [Hlt|Hge].
  - rewrite (IH h Hh).
    destruct (fold_left nearer hits None) as [y|] eqn:Ey.
    + destruct (Hy y eq_refl) as (ups & Hups).
      rewrite (nearer_Some h y He Hups).
      destruct (Rlt_dec ups eta).
      * rewrite (nearer_Some b y Hbeta Hups).
        destruct (Rlt_dec ups beta); [reflexivity|exfalso; lra].
      * rewrite (nearer_Some b h Hbeta He).
        destruct (Rlt_dec eta beta); [reflexivity|exfalso; lra].
    + rewrite (nearer_Some b h Hbeta He).
      destruct (Rlt_dec eta beta); [reflexivity|exfalso; lra].
  - rewrite (IH b Hb), (IH h Hh).
    destruct (fold_left nearer hits None) as [y|] eqn:Ey.
    + destruct (Hy y eq_refl) as (ups & Hups).
      rewrite (nearer_Some h y He Hups), (nearer_Some b y Hbeta Hups).
      destruct (Rlt_dec ups eta).
      * rewrite (nearer_Some b y Hbeta Hups). reflexivity.
      * rewrite (nearer_Some b h Hbeta He).
        destruct (Rlt_dec ups beta), (Rlt_dec eta beta);
          try reflexivity; exfalso; lra.
    + rewrite (nearer_Some b h Hbeta He).
      destruct (Rlt_dec eta beta); [exfalso; lra|reflexivity].
Qed.

Lemma fold_nearer_first_nearest (mn mx : ereal)
    (hits : list (HitRecord.Self ereal)) (best : option (HitRecord.Self ereal)) :
  Forall (hit_inside mn mx) hits ->
  (forall b, best = Some b -> hit_inside mn mx b) ->
  fold_left nearer
    (match first_nearest hits with Some x => [x] | None => [] end) best
  = fold_left nearer hits best.
Proof.
  intros Hall Hbest. destruct best as [b|].
  - rewrite (fold_nearer_from Hall (Hbest b eq_refl)).
    destruct (first_nearest hits); reflexivity.
  - unfold first_nearest. destruct (fold_left nearer hits None); reflexivity.
Qed.

Lemma fold_nearer_inside (mn mx : ereal) (hits : list (HitRecord.Self ereal)) :
  Forall (hit_inside mn mx) hits ->
  forall best,
    (forall b, best = Some b -> hit_inside mn mx b) ->
    forall b, fold_left nearer hits best = Some b -> hit_inside mn mx b.
Proof.
  intros Hall best Hbest b Hf.
  destruct (fold_nearer_In _ _ Hf) as [Hn|Hn]; [now apply Hbest|].
  rewrite Forall_forall in Hall. now apply Hall.
Qed.

(** X16. A list that holds another list as one of its objects reports
    what the list with that object replaced by its members reports. *)
Theorem HittableList_hit_nested_list_is_flat :
  forall (before inner after : list (dynHittable ereal))
         (r : Ray.Self ereal) (ray_t : Interval.Self ereal),
    HittableList_hit
      (HittableList.mk (before ++ DynList inner :: after)) r ray_t
    = HittableList_hit (HittableList.mk (before ++ inner ++ after)) r ray_t.
Proof.
  intros before inner after r [mn mx].
  rewrite !HittableList_hit_first_nearest. cbn [HittableList.objects].
  unfold first_nearest, member_hits.
  rewrite !flat_map_app, !fold_left_app. cbn [flat_map]. rewrite fold_left_app.
  f_equal.
  change (dynHittable_hit (DynList inner) r (Interval.new mn mx))
    with (HittableList_hit (HittableList.mk inner) r (Interval.new mn mx)).
  rewrite HittableList_hit_first_nearest. cbn [HittableList.objects].
  apply fold_nearer_first_nearest with (mn := mn) (mx := mx).
  - apply member_hits_all_inside.
  - apply fold_nearer_inside; [apply member_hits_all_inside|discriminate].
Qed.

(** X17. In every number model, the list [new()] and a cleared list are
    hit by nothing, and the list [new_with(object)], a cleared list with
    [object] added, and the list object of one member report exactly what
    [object] reports. *)
Theorem HittableList_hit_empty_and_single :
  forall (f64 : Type) (S : Scalar f64) (self : HittableList.Self f64)
         (object : dynHittable f64) (r : Ray.Self f64) (ray_t : Interval.Self f64),
    HittableList_hit HittableList_new r ray_t = None
    /\ HittableList_hit (HittableList_clear self) r ray_t = None
    /\ HittableList_hit (HittableList_new_with object) r ray_t
       = dynHittable_hit object r ray_t
    /\ HittableList_hit (HittableList_add (HittableList_clear self) object) r ray_t
       = dynHittable_hit object r ray_t
    /\ dynHittable_hit (DynList [object]) r ray_t = dynHittable_hit object r ray_t.
Proof.
  intros f64 S self object r [mn mx].
  repeat split; try reflexivity; cbn;
    destruct (dynHittable_hit object r _); reflexivity.
Qed.

(** *** material.rs *)

Section ScatterEquations.
Context {f64 : Type} `{Scalar f64}.

Local Open Scope f64_scope.

Lemma Lambertian_scatter_unfold (self : Lambertian.Self f64)
    (r_in : Ray.Self f64) (rec : HitRecord.Self f64) (rng : Rng f64) :
  Lambertian_scatter self r_in rec rng
  = match Vec3_random_unit_vector rng with
    | Some (u, rng') =>
        Some (Some (Ray.new (HitRecord.p rec)
                      (if Vec3_near_zero (Vec3_add (HitRecord.normal rec) u)
                       then HitRecord.normal rec
                       else Vec3_add (HitRecord.normal rec) u),
                    Lambertian.albedo self), rng')
    | None => None
    end.
Proof.
  unfold Lambertian_scatter, bind.
  destruct (Vec3_random_unit_vector rng) as [[u rng']|]; reflexivity.
Qed.

Lemma Dielectric_scatter_unfold (self : Dielectric.Self f64)
    (r_in : Ray.Self f64) (rec : HitRecord.Self f64) (rng : Rng f64) :
  Dielectric_scatter self r_in rec rng
  = if Dielectric_cant_refract self r_in rec
    then Some (Some (Ray.new (HitRecord.p rec)
                       (Vec3_reflect (Vec3_normalized (Ray.dir r_in))
                                     (HitRecord.normal rec)),
                     Vec3.new (lit 1) (lit 1) (lit 1)), rng)
    else match rng with
         | [] => None
         | u :: rng' =>
             Some (Some (Ray.new (HitRecord.p rec)
                           (if Dielectric_reflanctance
                                 (Dielectric_cos_theta r_in rec)
                                 (Dielectric_ri self rec) >? u
                            then Vec3_reflect (Vec3_normalized (Ray.dir r_in))
                                              (HitRecord.normal rec)
                            else Vec3_refract (Vec3_normalized (Ray.dir r_in))
                                              (HitRecord.normal rec)
                                              (Dielectric_ri self rec)),
                         Vec3.new (lit 1) (lit 1) (lit 1)), rng')
         end.
Proof.
  unfold Dielectric_scatter, Dielectric_cant_refract, Dielectric_cos_theta,
    Dielectric_ri, bind.
  destruct (_ >? lit 1); [reflexivity|].
  destruct rng as [|u rng']; reflexivity.
Qed.
End ScatterEquations.



(** X19. In every number model, [Dielectric::scatter] returns on every
    tape that holds a draw, always with a ray from the hit point and the
    attenuation [(1, 1, 1)]; the direction is the reflection or the
    refraction of the unit direction; and it takes no draw when
    [cant_refract] holds (the [||] stops there), one draw otherwise. *)
Theorem Dielectric_scatter_never_absorbs :
  forall (f64 : Type) (S : Scalar f64) (self : Dielectric.Self f64)
         (r_in : Ray.Self f64) (rec : HitRecord.Self f64) (rng : Rng f64),
    (forall u rng0, rng = u :: rng0 ->
       exists res rng', Dielectric_scatter self r_in rec rng = Some (res, rng'))
    /\ (forall res rng',
          Dielectric_scatter self r_in rec rng = Some (res, rng') ->
          (exists direction,
              res = Some (Ray.new (HitRecord.p rec) direction,
                          Vec3.new (lit 1) (lit 1) (lit 1))
              /\ (direction = Vec3_reflect (Vec3_normalized (Ray.dir r_in))
                                           (HitRecord.normal rec)
                  \/ direction = Vec3_refract (Vec3_normalized (Ray.dir r_in))
                                              (HitRecord.normal rec)
                                              (Dielectric_ri self rec)))
          /\ (if Dielectric_cant_refract self r_in rec then rng' = rng
              else exists u, rng = u :: rng')).
Proof.
  intros f64 S self r_in rec rng. rewrite Dielectric_scatter_unfold.
  split.
  - intros u rng0 ->. destruct (Dielectric_cant_refract self r_in rec);
      do 2 eexists; reflexivity.
  - intros res rng'.
    destruct (Dielectric_cant_refract self r_in rec).
    + intros [= <- <-]. split; [|reflexivity]. eexists. split; [reflexivity|now left].
    + destruct rng as [|u rng0]; [discriminate|]. intros [= <- <-].
      split; [|now exists u].
      destruct (flt u _); eexists; (split; [reflexivity|]); [now left|now right].
Qed.

(** In binary64, glass of index 1.5 hit head on from outside, with the draw 0.5. *)
Lemma Dielectric_scatter_never_absorbs_witness :
  exists res rng',
    Dielectric_scatter (Dielectric.new (lit 1.5 : PrimFloat.float))
      (Ray.new (Vec3.new (lit 0) (lit 0) (lit 0))
               (Vec3.new (lit 0) (lit 0) (lit (-1))))
      (HitRecord.mk (Vec3.new (lit 0) (lit 0) (lit (-2)))
                    (Vec3.new (lit 0) (lit 0) (lit 1)) (lit 2)
                    NullMaterial true)
      [lit 0.5]%list
    = Some (res, rng')
    /\ (exists direction,
           res = Some (Ray.new (Vec3.new (lit 0) (lit 0) (lit (-2))) direction,
                       Vec3.new (lit 1) (lit 1) (lit 1)))
    /\ rng' = []%list.
Proof.
  pose proof (@Dielectric_scatter_never_absorbs PrimFloat.float _
                (Dielectric.new (lit 1.5))
                (Ray.new (Vec3.new (lit 0) (lit 0) (lit 0))
                         (Vec3.new (lit 0) (lit 0) (lit (-1))))
                (HitRecord.mk (Vec3.new (lit 0) (lit 0) (lit (-2)))
                              (Vec3.new (lit 0) (lit 0) (lit 1)) (lit 2)
                              NullMaterial true)
                [lit 0.5]%list) as [Hret Hres].
  destruct (Hret _ _ eq_refl) as (res & rng' & E).
  exists res, rng'. split; [exact E|].
  destruct (Hres _ _ E) as [(direction & Hd & _) Hdraw].
  split; [now exists direction|].
  vm_compute in Hdraw. destruct Hdraw as (u & [= _ <-]). reflexivity.
Defined.

Lemma Dielectric_reflanctance_exact (cosine n : R) :
  1 + n <> 0 ->
  Dielectric_reflanctance (Fin cosine) (Fin n)
  = Fin ((1 - n) / (1 + n) * ((1 - n) / (1 + n))
         + (1 - (1 - n) / (1 + n) * ((1 - n) / (1 + n))) * (1 - cosine) ^ 5).
Proof.
  intros Hn. unfold Dielectric_reflanctance. cbn. lits.
  destruct (Req_dec_T _ _) as [E|E]; [exfalso; lra|].
  cbn. f_equal. field. lra.
Qed.

(** X20. For a cosine of [[0, 1]] and a real refraction index [n > 0],
    [reflanctance] lies between [r0 = ((1 - n) / (1 + n))^2] and 1; it is
    [r0] at cosine 1 and 1 at cosine 0; and it is the same for the index
    [1 / n], so that entering and leaving the material reflect alike. *)
Theorem Dielectric_reflanctance_is_a_probability :
  forall cosine n : R,
    0 <= cosine <= 1 ->
    0 < n ->
    exists r0 k : R,
      r0 = (1 - n) / (1 + n) * ((1 - n) / (1 + n))
      /\ Dielectric_reflanctance (Fin cosine) (Fin n) = Fin k
      /\ 0 <= r0 < 1 /\ r0 <= k <= 1
      /\ (cosine = 1 -> k = r0)
      /\ (cosine = 0 -> k = 1)
      /\ Dielectric_reflanctance (Fin cosine) (fdiv (lit 1) (Fin n)) = Fin k.
Proof.
  intros cosine n Hc Hn.
  set (q := (1 - n) / (1 + n)).
  assert (Hq : -1 < q < 1).
  { unfold q. split.
    - apply (Rmult_lt_reg_r (1 + n)); [lra|]. unfold Rdiv.
      rewrite Rmult_assoc, Rinv_l by lra. lra.
    - apply (Rmult_lt_reg_r (1 + n)); [lra|]. unfold Rdiv.
      rewrite Rmult_assoc, Rinv_l by lra. lra. }
  assert (Hr0 : 0 <= q * q < 1) by nra.
  set (w := 1 - cosine).
  assert (Hw : 0 <= w <= 1) by (unfold w; lra).
  assert (Hw5 : 0 <= w ^ 5 <= 1).
  { split; [apply pow_le; lra|]. rewrite <- (pow1 5). apply pow_incr. lra. }
  exists (q * q), (q * q + (1 - q * q) * w ^ 5).
  split; [reflexivity|]. split; [apply Dielectric_reflanctance_exact; lra|].
  split; [exact Hr0|]. split; [nra|].
  split; [intros ->; unfold w; replace (1 - 1) with 0 by lra; simpl; lra|].
  split; [intros ->; unfold w; replace (1 - 0) with 1 by lra; simpl; lra|].
  cbn [fdiv lit ereal_scalar ediv]. lits.
  destruct (Req_dec_T n 0) as [E|E]; [exfalso; lra|].
  assert (Hin : 0 < / n) by (apply Rinv_0_lt_compat; lra).
  rewrite Dielectric_reflanctance_exact by (unfold Rdiv; nra).
  f_equal.
  assert (Hq' : (1 - 1 * / 1 / n) / (1 + 1 * / 1 / n) = - q)
    by (unfold q; field; split; lra).
  rewrite Hq'. fold w. ring.
Qed.

(** The cosine 0.5 and the index 1.5. *)
Lemma Dielectric_reflanctance_is_a_probability_witness :
  exists r0 k : R,
    r0 = (1 - 1.5) / (1 + 1.5) * ((1 - 1.5) / (1 + 1.5))
    /\ Dielectric_reflanctance (Fin 0.5) (Fin 1.5) = Fin k
    /\ 0 <= r0 < 1 /\ r0 <= k <= 1
    /\ (0.5 = 1 -> k = r0)
    /\ (0.5 = 0 -> k = 1)
    /\ Dielectric_reflanctance (Fin 0.5) (fdiv (lit 1) (Fin 1.5)) = Fin k.
Proof.
  apply (@Dielectric_reflanctance_is_a_probability 0.5 1.5); lra.
Defined.

Lemma dynMaterial_scatter_cases (f64 : Type) (S : Scalar f64)
    (mat : dynMaterial f64) (r_in : Ray.Self f64) (rec : HitRecord.Self f64)
    (rng rng' : Rng f64) (res : option (Ray.Self f64 * Vec3.Self f64)) :
    dynMaterial_scatter mat r_in rec rng = Some (res, rng') ->
    match mat with
    | NullMaterial => res = None /\ rng' = rng
    | DynLambertian m =>
        exists direction,
          res = Some (Ray.new (HitRecord.p rec) direction, Lambertian.albedo m)
    | DynMetal m =>
        exists direction,
          res = Some (Ray.new (HitRecord.p rec) direction, Metal.albedo m)
    | DynDielectric m =>
        exists direction,
          res = Some (Ray.new (HitRecord.p rec) direction,
                      Vec3.new (lit 1) (lit 1) (lit 1))
    end.
Proof.
  destruct mat as [|m|m|m]; cbn [dynMaterial_scatter].
  - intros [= <- <-]. now split.
  - rewrite Lambertian_scatter_unfold.
    destruct (Vec3_random_unit_vector rng) as [[u rng1]|]; [|discriminate].
    intros [= <- <-]. eexists. reflexivity.
  - rewrite Metal_scatter_unfold.
    destruct (Vec3_random_unit_vector rng) as [[u rng1]|]; [|discriminate].
    intros [= <- <-]. eexists. reflexivity.
  - rewrite Dielectric_scatter_unfold.
    destruct (Dielectric_cant_refract m r_in rec).
    + intros [= <- <-]. eexists. reflexivity.
    + destruct rng as [|u rng0]; [discriminate|]. intros [= <- <-].
      eexists. reflexivity.
Qed.

(** X21. In every number model, whatever [scatter] returns through an
    [Arc<dyn Material>]: [NullMaterial] absorbs and takes no draw; the
    three others scatter a ray that starts at the hit point, attenuated by
    the albedo (Lambertian, Metal) or by [(1, 1, 1)] (Dielectric). *)
Theorem dynMaterial_scatter_origin_and_attenuation :
  forall (f64 : Type) (S : Scalar f64) (mat : dynMaterial f64)
         (r_in : Ray.Self f64) (rec : HitRecord.Self f64) (rng rng' : Rng f64)
         (res : option (Ray.Self f64 * Vec3.Self f64)),
    dynMaterial_scatter mat r_in rec rng = Some (res, rng') ->
    match mat with
    | NullMaterial => res = None /\ rng' = rng
    | DynLambertian m =>
        exists direction,
          res = Some (Ray.new (HitRecord.p rec) direction, Lambertian.albedo m)
    | DynMetal m =>
        exists direction,
          res = Some (Ray.new (HitRecord.p rec) direction, Metal.albedo m)
    | DynDielectric m =>
        exists direction,
          res = Some (Ray.new (HitRecord.p rec) direction,
                      Vec3.new (lit 1) (lit 1) (lit 1))
    end.
Proof.
  intros f64 S mat r_in rec rng rng' res. apply dynMaterial_scatter_cases.
Qed.

(** In binary64, glass of index 1.5 hit head on, with the draw 0.5: the
    ray is refracted straight on. *)
Lemma dynMaterial_scatter_origin_and_attenuation_witness :
  exists direction,
    Some (Ray.new (Vec3.new (lit 0) (lit 0) (lit (-2)))
                  (Vec3.new (lit 0) (lit 0) (lit (-1))),
          Vec3.new (lit 1) (lit 1) (lit 1))
    = Some (Ray.new (Vec3.new (lit 0) (lit 0) (lit (-2)) : Vec3.Self PrimFloat.float)
                    direction,
            Vec3.new (lit 1) (lit 1) (lit 1)).
Proof.
  apply (@dynMaterial_scatter_origin_and_attenuation PrimFloat.float _
           (DynDielectric (Dielectric.new (lit 1.5)))
           (Ray.new (Vec3.new (lit 0) (lit 0) (lit 0))
                    (Vec3.new (lit 0) (lit 0) (lit (-1))))
           (HitRecord.mk (Vec3.new (lit 0) (lit 0) (lit (-2)))
                         (Vec3.new (lit 0) (lit 0) (lit 1)) (lit 2)
                         NullMaterial true)
           [lit 0.5]%list []%list).
  vm_compute. reflexivity.
Defined.

(** *** color.rs: the gamma encoding *)

(** X22. [linear_to_gamma] of a positive real number is the positive
    number whose square it is; of a number that is not positive, and of
    [NaN], it is 0; of [+inf] it is [+inf].  It is never [NaN] and never
    negative. *)
Theorem linear_to_gamma_is_a_square_root :
  forall x : ereal,
    (forall a : R, x = Fin a -> 0 < a ->
       exists k, linear_to_gamma x = Fin k /\ 0 < k /\ k * k = a)
    /\ (fle x (lit 0) = true -> linear_to_gamma x = Fin 0)
    /\ linear_to_gamma NaN = Fin 0
    /\ linear_to_gamma PInf = PInf
    /\ f64_is_nan (linear_to_gamma x) = false
    /\ fle (lit 0) (linear_to_gamma x) = true.
Proof.
  intros x. unfold linear_to_gamma. rewrite f64_is_nan_ereal.
  split; [|split; [|split; [|split; [|split]]]].
  - intros a -> Ha. exists (sqrt a). cbn. lits.
    destruct (Rlt_dec _ _); [|exfalso; lra]. cbn.
    destruct (Rlt_dec a 0); [exfalso; lra|].
    split; [reflexivity|]. split; [now apply sqrt_lt_R0|apply sqrt_def; lra].
  - destruct x; ecases; intros; f_equal; lra.
  - cbn. lits. f_equal. lra.
  - reflexivity.
  - destruct x; ecases; reflexivity.
  - destruct x; ecases; try reflexivity.
    all: pose proof (sqrt_pos a); exfalso; lra.
Qed.

(** The component 4. *)
Lemma linear_to_gamma_is_a_square_root_witness :
  exists k, linear_to_gamma (Fin 4) = Fin k /\ 0 < k /\ k * k = 4.
Proof.
  apply (proj1 (linear_to_gamma_is_a_square_root (Fin 4)) 4 eq_refl). lra.
Defined.

Lemma Int_part_monotone (a b : R) : a <= b -> (Int_part a <= Int_part b)%Z.
Proof.
  intros Hab.
  destruct (base_Int_part a) as [Ha1 Ha2]. destruct (base_Int_part b) as [Hb1 Hb2].
  assert (H : IZR (Int_part a) < IZR (Int_part b + 1)).
  { rewrite plus_IZR. lra. }
  apply lt_IZR in H. lia.
Qed.

Lemma gamma_clamped_exact (x : R) :
  gamma_clamped (Fin x)
  = Fin (if Rlt_dec 0 x then Rmin (sqrt x) 0.999 else 0).
Proof.
  unfold gamma_clamped, linear_to_gamma, Interval_clamp, Rmin.
  cbn. lits.
  destruct (Rlt_dec (0 * / 1) x) as [Hp|Hn]; destruct (Rlt_dec 0 x);
    try (exfalso; lra); cbn.
  - destruct (Rlt_dec x 0); [exfalso; lra|]. cbn.
    pose proof (sqrt_pos x).
    destruct (Rle_dec (sqrt x) 0.999); ecases; f_equal; lra.
  - ecases; f_equal; lra.
Qed.

(** X23. The byte [write_color] computes for a channel does not
    decrease when the channel grows; [NaN] and [-inf] give 0, [+inf] gives
    255, and every real number gives a byte between those. *)
Theorem channel_byte_is_monotone :
  forall x y : R,
    x <= y ->
    (channel_byte (Fin x) <= channel_byte (Fin y))%Z
    /\ (channel_byte NInf <= channel_byte (Fin x))%Z
    /\ (channel_byte (Fin y) <= channel_byte PInf)%Z
    /\ channel_byte NaN = 0%Z
    /\ channel_byte NInf = 0%Z
    /\ channel_byte PInf = 255%Z.
Proof.
  intros x y Hxy.
  assert (Hmono : forall a b, a <= b ->
            (if Rlt_dec 0 a then Rmin (sqrt a) 0.999 else 0)
            <= (if Rlt_dec 0 b then Rmin (sqrt b) 0.999 else 0)).
  { intros a b Hab. destruct (Rlt_dec 0 a), (Rlt_dec 0 b); try lra.
    - apply Rle_min_compat_r. apply sqrt_le_1_alt. exact Hab.
    - apply Rmin_glb; [apply sqrt_pos|lra]. }
  assert (Hbyte : forall k, 0 <= k <= 0.999 ->
            f64_as_u8 (fmul (lit 255.999) (Fin k)) = Int_part (255.999 * k)).
  { intros k Hk. unfold f64_as_u8. cbn. lits.
    destruct (Rle_dec _ _) as [_|Hn]; [|exfalso; nra].
    assert (0 <= Int_part (255999 * / 1000 * k) <= 255)%Z
      by (apply Int_part_bounds; simpl; nra).
    replace (255.999 * k) with (255999 * / 1000 * k) by lra. lia. }
  assert (Hrange : forall a, 0 <= (if Rlt_dec 0 a then Rmin (sqrt a) 0.999 else 0)
                             <= 0.999).
  { intros a. destruct (Rlt_dec 0 a); [|lra]. split.
    - apply Rmin_glb; [apply sqrt_pos|lra].
    - apply Rmin_r. }
  assert (Hch : forall a, channel_byte (Fin a)
            = Int_part (255.999 * (if Rlt_dec 0 a then Rmin (sqrt a) 0.999 else 0))).
  { intros a. unfold channel_byte. rewrite gamma_clamped_exact. apply Hbyte, Hrange. }
  assert (Hg0 : gamma_clamped (Fin 0) = Fin 0).
  { rewrite gamma_clamped_exact. destruct (Rlt_dec 0 0); [exfalso; lra|reflexivity]. }
  assert (Hg1 : gamma_clamped (Fin 1) = Fin 0.999).
  { rewrite gamma_clamped_exact. destruct (Rlt_dec 0 1); [|exfalso; lra].
    rewrite sqrt_1. unfold Rmin. destruct (Rle_dec 1 0.999); [exfalso; lra|reflexivity]. }
  assert (HgN : gamma_clamped NaN = Fin 0).
  { unfold gamma_clamped, linear_to_gamma, Interval_clamp. ecases; f_equal; lra. }
  assert (HgNI : gamma_clamped NInf = Fin 0).
  { unfold gamma_clamped, linear_to_gamma, Interval_clamp. ecases; f_equal; lra. }
  assert (HgPI : gamma_clamped PInf = Fin 0.999).
  { unfold gamma_clamped, linear_to_gamma, Interval_clamp. ecases; f_equal; lra. }
  assert (HN : channel_byte NaN = 0%Z).
  { rewrite <- channel_byte_of_zero. unfold channel_byte. now rewrite HgN, Hg0. }
  assert (HNI : channel_byte NInf = 0%Z).
  { rewrite <- channel_byte_of_zero. unfold channel_byte. now rewrite HgNI, Hg0. }
  assert (HPI : channel_byte PInf = 255%Z).
  { rewrite <- channel_byte_of_one. unfold channel_byte. now rewrite HgPI, Hg1. }
  rewrite HN, HNI, HPI, !Hch.
  split; [apply Int_part_monotone; pose proof (Hmono x y Hxy); nra|].
  pose proof (Hrange x) as Hx. pose proof (Hrange y) as Hy.
  split; [apply Int_part_bounds with (n := 255%Z); simpl; lra|].
  split; [apply Int_part_bounds with (n := 255%Z); simpl; nra|].
  auto.
Qed.

(** The channels 0.25 and 0.5. *)
Lemma channel_byte_is_monotone_witness :
  (channel_byte (Fin 0.25) <= channel_byte (Fin 0.5))%Z.
Proof.
  apply (@channel_byte_is_monotone 0.25 0.5). lra.
Defined.

(** *** camera.rs: [ray_color] *)

Lemma abs_le_norm (a b c : R) : Rabs b <= sqrt (a * a + b * b + c * c).
Proof.
  rewrite <- (sqrt_Rsqr_abs b). apply sqrt_le_1_alt. unfold Rsqr.
  pose proof (Rle_0_sqr a) as Ha. pose proof (Rle_0_sqr c) as Hc.
  unfold Rsqr in *. lra.
Qed.

(** X24. When the scene reports no hit on [(0.001, inf)] and the ray
    has a non-zero direction of real numbers, [ray_color] with a positive
    depth takes no draw and returns the blend [(1 - a) white + a (0.5, 0.7,
    1)] with [a = (y / |dir| + 1) / 2] in [[0, 1]]: red is [1 - 0.5 a],
    green [1 - 0.3 a], blue 1. *)
Theorem Camera_ray_color_miss_is_sky :
  forall (W : Type) (world_hit : Hittable W) (self : Camera.Self ereal)
         (r : Ray.Self ereal) (depth : nat) (world : W) (rng : Rng ereal)
         (dx dy dz : R),
    hit world r (Interval.new (lit 0.001) INFINITY) = None ->
    Ray.dir r = Vec3_of_R dx dy dz ->
    dx * dx + dy * dy + dz * dz <> 0 ->
    exists a : R,
      a = 0.5 * (dy / sqrt (dx * dx + dy * dy + dz * dz) + 1)
      /\ 0 <= a <= 1
      /\ Camera_ray_color self r (S depth) world rng
         = Some (Vec3_of_R (1 - 0.5 * a) (1 - 0.3 * a) 1, rng).
Proof.
  intros W world_hit self r depth world rng dx dy dz Hmiss Hdir Hnz.
  set (L := sqrt (dx * dx + dy * dy + dz * dz)).
  assert (HL : 0 < L).
  { apply sqrt_lt_R0. pose proof (Rle_0_sqr dx). pose proof (Rle_0_sqr dy).
    pose proof (Rle_0_sqr dz). unfold Rsqr in *. lra. }
  assert (Hy : -1 <= dy / L <= 1).
  { pose proof (abs_le_norm dx dy dz) as Hab. fold L in Hab.
    assert (Hb : - L <= dy <= L)
      by (unfold Rabs in Hab; destruct (Rcase_abs dy); lra).
    split; apply (Rmult_le_reg_r L); try exact HL;
      unfold Rdiv; rewrite ?Rmult_assoc, Rinv_l by lra; lra. }
  exists (0.5 * (dy / L + 1)). split; [reflexivity|]. split; [lra|].
  cbn [Camera_ray_color]. rewrite Hmiss, Hdir, Vec3_normalized_exact by exact Hnz.
  fold L. unfold ret. vec_unfold. cbn. lits.
  generalize (dy / L). intros q. f_equal. f_equal. f_equal; f_equal; lra.
Qed.

(** The empty list and the direction [(0, 1, 0)]. *)
Lemma Camera_ray_color_miss_is_sky_witness :
  exists a : R,
    a = 0.5 * (1 / sqrt (0 * 0 + 1 * 1 + 0 * 0) + 1)
    /\ 0 <= a <= 1
    /\ Camera_ray_color pinhole_camera
         (Ray.new (Vec3_of_R 0 0 0) (Vec3_of_R 0 1 0)) 3
         (@HittableList_new ereal) []
       = Some (Vec3_of_R (1 - 0.5 * a) (1 - 0.3 * a) 1, []).
Proof.
  apply (@Camera_ray_color_miss_is_sky (HittableList.Self ereal)
           (@HittableList_Hittable ereal _)
           pinhole_camera (Ray.new (Vec3_of_R 0 0 0) (Vec3_of_R 0 1 0)) 2
           HittableList_new [] 0 1 0).
  - reflexivity.
  - reflexivity.
  - lra.
Defined.

Lemma Vec3_zero_exact : Vec3_zero = Vec3_of_R 0 0 0.
Proof. unfold Vec3_zero, Vec3_of_R. cbn. lits. f_equal; f_equal; lra. Qed.

Lemma Vec3_mul_zero_exact (a b c : R) :
  Vec3_mul (Vec3_of_R a b c) Vec3_zero = Vec3_of_R 0 0 0.
Proof.
  rewrite Vec3_zero_exact. unfold Vec3_mul, Vec3_of_R. cbn.
  f_equal; f_equal; lra.
Qed.

(** X25. When the scene reports a hit: on a [NullMaterial],
    [ray_color] with a positive depth returns black and takes no draw; and
    with depth 1, on any material whose attenuation is a triple of real
    numbers, whatever it returns is black. *)
Theorem Camera_ray_color_absorbed_or_last_bounce_is_black :
  forall (W : Type) (world_hit : Hittable W) (self : Camera.Self ereal)
         (r : Ray.Self ereal) (world : W) (rec : HitRecord.Self ereal)
         (rng : Rng ereal),
    hit world r (Interval.new (lit 0.001) INFINITY) = Some rec ->
    (HitRecord.mat rec = NullMaterial ->
     forall depth,
       Camera_ray_color self r (S depth) world rng
       = Some (Vec3_of_R 0 0 0, rng))
    /\ (real_albedo (HitRecord.mat rec) ->
        forall c rng',
          Camera_ray_color self r 1 world rng = Some (c, rng') ->
          c = Vec3_of_R 0 0 0).
Proof.
  intros W world_hit self r world rec rng Hhit. split.
  - intros Hmat depth. cbn [Camera_ray_color]. rewrite Hhit, Hmat.
    cbn. unfold ret. now rewrite Vec3_zero_exact.
  - intros Halb c rng'. cbn [Camera_ray_color]. rewrite Hhit. unfold bind at 1.
    destruct (dynMaterial_scatter _ r rec rng) as [[res rng1]|] eqn:Hs;
      [|discriminate].
    apply dynMaterial_scatter_cases in Hs.
    destruct (HitRecord.mat rec) as [|m|m|m]; cbn [real_albedo] in Halb.
    + destruct Hs as [-> _]. intros [= <- _]. apply Vec3_zero_exact.
    + destruct Hs as (d & ->). destruct Halb as (a & b & c0 & ->).
      unfold bind, ret. cbn [Camera_ray_color]. unfold ret.
      intros [= <- _]. apply Vec3_mul_zero_exact.
    + destruct Hs as (d & ->). destruct Halb as (a & b & c0 & ->).
      unfold bind, ret. cbn [Camera_ray_color]. unfold ret.
      intros [= <- _]. apply Vec3_mul_zero_exact.
    + destruct Hs as (d & ->).
      unfold bind, ret. cbn [Camera_ray_color]. unfold ret.
      intros [= <- _]. rewrite <- (Vec3_mul_zero_exact 1 1 1).
      f_equal. unfold Vec3_of_R. cbn. lits. f_equal; f_equal; lra.
Qed.

(** The unit sphere at [(0, 0, -3)] with [NullMaterial], seen head on. *)
Lemma Camera_ray_color_absorbed_or_last_bounce_is_black_witness :
  Camera_ray_color pinhole_camera
    (Ray.new (Vec3_of_R 0 0 0) (Vec3_of_R 0 0 (-1))) 3
    (Sphere.new (Vec3_of_R 0 0 (-3)) (Fin 1) (@NullMaterial ereal)) []
  = Some (Vec3_of_R 0 0 0, []).
Proof.
  apply (proj1 (@Camera_ray_color_absorbed_or_last_bounce_is_black
                  (Sphere.Self ereal) (@Sphere_Hittable ereal _) pinhole_camera
                  (Ray.new (Vec3_of_R 0 0 0) (Vec3_of_R 0 0 (-1)))
                  (Sphere.new (Vec3_of_R 0 0 (-3)) (Fin 1) NullMaterial)
                  _ [] (unit_sphere_hit_head_on NullMaterial))).
  reflexivity.
Defined.

(** *** camera.rs: the rays of a pixel *)

Lemma u32_as_f64_exact (n : N) : u32_as_f64 n = Fin (IZR (Z.of_N n)).
Proof.
  unfold u32_as_f64. cbn [lit ereal_scalar]. f_equal.
  unfold Q2R, inject_Z. cbn [Qnum Qden]. rewrite Rinv_1. ring.
Qed.

Lemma Camera_sample_square_unfold (f64 : Type) (S : Scalar f64)
    (self : Camera.Self f64) (rng : Rng f64) :
  Camera_sample_square self rng
  = if (Camera.samples_per_pixel self =? 1)%N then Some (Vec3_zero, rng)
    else match rng with
         | a :: b :: rng' =>
             Some (Vec3.new (fsub a (lit 0.5)) (fsub b (lit 0.5)) (lit 0), rng')
         | _ => None
         end.
Proof.
  unfold Camera_sample_square.
  destruct (_ =? 1)%N; [reflexivity|].
  destruct rng as [|a [|b rng']]; reflexivity.
Qed.

Lemma Camera_sample_square_in_pixel_aux (self : Camera.Self ereal)
    (rng rng' : Rng ereal) (offset : Vec3.Self ereal) :
  Forall unit_draw rng ->
  Camera_sample_square self rng = Some (offset, rng') ->
  exists ox oy : R,
    offset = Vec3_of_R ox oy 0
    /\ -0.5 <= ox < 0.5 /\ -0.5 <= oy < 0.5
    /\ (Camera.samples_per_pixel self = 1%N -> ox = 0 /\ oy = 0 /\ rng' = rng)
    /\ (Camera.samples_per_pixel self <> 1%N ->
        exists a b, rng = Fin a :: Fin b :: rng'
                    /\ ox = a - 0.5 /\ oy = b - 0.5)
    /\ Forall unit_draw rng'.
Proof.
  intros Hdraws.
  rewrite Camera_sample_square_unfold.
  destruct (N.eqb_spec (Camera.samples_per_pixel self) 1) as [E|E].
  - intros [= <- <-]. exists 0, 0.
    split; [unfold Vec3_zero, Vec3_of_R; cbn; lits; repeat f_equal; lra|].
    repeat split; try lra; try assumption. intros Hn. now elim Hn.
  - destruct rng as [|u1 [|u2 rng1]]; try discriminate.
    intros [= <- <-].
    inversion Hdraws as [|? ? (a & -> & Ha) Hrest]; subst.
    inversion Hrest as [|? ? (b & -> & Hb) Hrest']; subst.
    exists (a - 0.5), (b - 0.5).
    split; [unfold Vec3_of_R; cbn; lits; repeat f_equal; lra|].
    repeat split; try lra; try (intros; contradiction); try assumption.
    intros _. now exists a, b.
Qed.

(** X26. On draws from [[0,1)], the ray [get_ray] returns for the pixel
    [(i, j)] points from its origin to [pixel00_loc + (i + ox) pixel_delta_u
    + (j + oy) pixel_delta_v] with [ox] and [oy] in [[-0.5, 0.5)], both 0
    when [samples_per_pixel] is 1.  With [defocus_angle <= 0] the origin is
    the camera centre, and [get_ray] takes no draw for one sample per pixel
    and two otherwise; with any other [defocus_angle], [NaN] included, the
    origin is [center + px defocus_disk_u + py defocus_disk_v] for a point
    [(px, py)] of the open unit disk. *)
Theorem Camera_get_ray_through_pixel :
  forall (self : Camera.Self ereal) (i j : N) (rng rng' : Rng ereal)
         (ray : Ray.Self ereal),
    Forall unit_draw rng ->
    Camera_get_ray self i j rng = Some (ray, rng') ->
    exists ox oy : R,
      (-0.5 <= ox < 0.5 /\ -0.5 <= oy < 0.5)
      /\ (Camera.samples_per_pixel self = 1%N -> ox = 0 /\ oy = 0)
      /\ Ray.dir ray
         = Vec3_sub
             (Vec3_add
                (Vec3_add (Camera.pixel00_loc self)
                   (f64_mul_Vec3 (Fin (IZR (Z.of_N i) + ox))
                                 (Camera.pixel_delta_u self)))
                (f64_mul_Vec3 (Fin (IZR (Z.of_N j) + oy))
                              (Camera.pixel_delta_v self)))
             (Ray.orig ray)
      /\ (fle (Camera.defocus_angle self) (lit 0) = true ->
          Ray.orig ray = Camera.center self
          /\ (Camera.samples_per_pixel self = 1%N -> rng' = rng)
          /\ (Camera.samples_per_pixel self <> 1%N ->
              exists a b, rng = a :: b :: rng'))
      /\ (fle (Camera.defocus_angle self) (lit 0) = false ->
          exists px py : R,
            px * px + py * py < 1
            /\ Ray.orig ray
               = Vec3_add
                   (Vec3_add (Camera.center self)
                      (f64_mul_Vec3 (Fin px) (Camera.defocus_disk_u self)))
                   (f64_mul_Vec3 (Fin py) (Camera.defocus_disk_v self))).
Proof.
  intros self i j rng rng' ray Hdraws.
  unfold Camera_get_ray. unfold bind at 1.
  destruct (Camera_sample_square self rng) as [[offset rng1]|] eqn:Hsq; [|discriminate].
  destruct (Camera_sample_square_in_pixel_aux self Hdraws Hsq)
    as (ox & oy & -> & Hox & Hoy & Hone & Hmany & Hrest).
  rewrite !u32_as_f64_exact. cbn [Vec3.x Vec3.y Vec3_of_R fadd ereal_scalar eadd].
  unfold bind.
  destruct (fle (Camera.defocus_angle self) (lit 0)) eqn:Hd.
  - intros [= <- <-]. exists ox, oy. cbn [Ray.orig Ray.dir].
    split; [tauto|]. split; [intros E; destruct (Hone E) as (? & ? & _); tauto|].
    split; [reflexivity|]. split; [|discriminate].
    intros _. split; [reflexivity|]. split.
    + intros E. now destruct (Hone E) as (_ & _ & ->).
    + intros E. destruct (Hmany E) as (a & b & -> & _). now exists (Fin a), (Fin b).
  - unfold Camera_defocus_disk_sample, bind, Vec3_random_in_unit_disk.
    destruct (Vec3_random_in_unit_disk_loop _ rng1) as [[p rng2]|] eqn:Hp; [|discriminate].
    destruct (Vec3_random_in_unit_disk_real _ Hrest Hp)
      as (px & py & -> & Hin & _).
    intros [= <- <-]. exists ox, oy. cbn [Ray.orig Ray.dir Vec3.x Vec3.y Vec3_of_R].
    split; [tauto|]. split; [intros E; destruct (Hone E) as (? & ? & _); tauto|].
    split; [reflexivity|]. split; [discriminate|].
    intros _. exists px, py. split; [exact Hin|reflexivity].
Qed.

(** The pixel [(1, 0)] of the pinhole camera. *)
Lemma Camera_get_ray_through_pixel_witness :
  exists ray : Ray.Self ereal,
    Camera_get_ray pinhole_camera 1 0 [] = Some (ray, [])
    /\ Ray.orig ray = Vec3_of_R 0 0 0.
Proof.
  assert (Hd : fle (Camera.defocus_angle pinhole_camera) (lit 0) = true)
    by (cbn; lits; destruct (Rle_dec _ _); [reflexivity|exfalso; lra]).
  assert (E : exists ray, Camera_get_ray pinhole_camera 1 0 [] = Some (ray, [])).
  { unfold Camera_get_ray, bind. rewrite Hd. eexists. reflexivity. }
  destruct E as (ray & E). exists ray. split; [exact E|].
  destruct (@Camera_get_ray_through_pixel pinhole_camera 1 0 [] [] ray
              (Forall_nil _) E) as (ox & oy & _ & _ & _ & Hno & _).
  exact (proj1 (Hno Hd)).
Defined.

(** *** camera.rs: the set-up *)

Lemma Vec3_sub_exact (a1 a2 a3 b1 b2 b3 : R) :
  Vec3_sub (Vec3_of_R a1 a2 a3) (Vec3_of_R b1 b2 b3)
  = Vec3_of_R (a1 - b1) (a2 - b2) (a3 - b3).
Proof. reflexivity. Qed.

Lemma Vec3_cross_exact (a1 a2 a3 b1 b2 b3 : R) :
  Vec3_cross (Vec3_of_R a1 a2 a3) (Vec3_of_R b1 b2 b3)
  = Vec3_of_R (a2 * b3 - a3 * b2) (a3 * b1 - a1 * b3) (a1 * b2 - a2 * b1).
Proof. reflexivity. Qed.

Lemma f64_max_one (x : ereal) :
  exists k : ereal,
    f64_max x (lit 1) = k
    /\ match k with
       | Fin a => 1 <= a
       | PInf => True
       | _ => False
       end.
Proof.
  unfold f64_max. rewrite !f64_is_nan_ereal.
  destruct x; cbn; lits; try (eexists; split; [reflexivity|]; cbn; try lra; tauto).
  destruct (Rlt_dec _ _); eexists; (split; [reflexivity|]); cbn; lra.
Qed.

Lemma f64_as_u32_at_least_one (k : ereal) :
  match k with Fin a => 1 <= a | PInf => True | _ => False end ->
  (1 <= f64_as_u32 k <= 4294967295)%N.
Proof.
  unfold f64_as_u32. destruct k; try tauto; intros Hk;
    cbn [trunc ereal_scalar etrunc].
  - destruct (Rle_dec 0 a); [|exfalso; lra].
    assert (1 <= Int_part a)%Z.
    { replace 1%Z with (Int_part 1)
        by (symmetry; apply Int_part_spec; simpl; lra).
      apply Int_part_monotone. exact Hk. }
    lia.
  - vm_compute. split; discriminate.
Qed.

Lemma Camera_new_image_height_bounds (L : Libm ereal) (aspect_ratio : ereal)
    (image_width samples_per_pixel max_depth : N) (vfov : ereal)
    (lookfrom lookat vup : Vec3.Self ereal) (defocus_angle focus_dist : ereal) :
  (1 <= Camera.image_height
          (@Camera_new ereal _ L aspect_ratio image_width samples_per_pixel
                       max_depth vfov lookfrom lookat vup defocus_angle focus_dist)
   <= 4294967295)%N.
Proof.
  unfold Camera_new, Camera_initialize.
  cbn [Camera.image_height Camera.image_width Camera.aspect_ratio].
  destruct (f64_max_one (fround (fdiv (u32_as_f64 image_width) aspect_ratio)))
    as (k & -> & Hk).
  now apply f64_as_u32_at_least_one.
Qed.





Lemma Camera_new_basis (L : Libm ereal) (aspect_ratio : ereal)
    (image_width samples_per_pixel max_depth : N) (vfov : ereal)
    (fx fy fz ax ay az ux uy uz : R) (defocus_angle focus_dist : ereal) :
    let cam := @Camera_new ereal _ L aspect_ratio image_width samples_per_pixel
                           max_depth vfov (Vec3_of_R fx fy fz) (Vec3_of_R ax ay az)
                           (Vec3_of_R ux uy uz) defocus_angle focus_dist in
    let d1 := fx - ax in let d2 := fy - ay in let d3 := fz - az in
    let c1 := uy * d3 - uz * d2 in
    let c2 := uz * d1 - ux * d3 in
    let c3 := ux * d2 - uy * d1 in
    c1 * c1 + c2 * c2 + c3 * c3 <> 0 ->
    exists w1 w2 w3 u1 u2 u3 v1 v2 v3 : R,
      Camera.w cam = Vec3_of_R w1 w2 w3
      /\ Camera.u cam = Vec3_of_R u1 u2 u3
      /\ Camera.v cam = Vec3_of_R v1 v2 v3
      /\ w1 * w1 + w2 * w2 + w3 * w3 = 1
      /\ u1 * u1 + u2 * u2 + u3 * u3 = 1
      /\ v1 * v1 + v2 * v2 + v3 * v3 = 1
      /\ u1 * v1 + u2 * v2 + u3 * v3 = 0
      /\ u1 * w1 + u2 * w2 + u3 * w3 = 0
      /\ v1 * w1 + v2 * w2 + v3 * w3 = 0
      /\ (exists k, 0 < k /\ w1 = k * d1 /\ w2 = k * d2 /\ w3 = k * d3)
      /\ Vec3_cross (Vec3_of_R u1 u2 u3) (Vec3_of_R v1 v2 v3) = Vec3_of_R w1 w2 w3.
Proof.
  intros cam d1 d2 d3 c1 c2 c3 Hc.
  assert (Hd : d1 * d1 + d2 * d2 + d3 * d3 <> 0).
  { intros Hz. apply Hc.
    assert (d1 = 0 /\ d2 = 0 /\ d3 = 0) as (E1 & E2 & E3) by (repeat split; nra).
    unfold c1, c2, c3. rewrite E1, E2, E3. ring. }
  pose proof (norm_pos Hd) as HLd.
  pose proof (Vec3_normalized_is_unit Hd) as Hw.
  set (Ld := sqrt (d1 * d1 + d2 * d2 + d3 * d3)) in *.
  set (w1 := d1 / Ld) in *. set (w2 := d2 / Ld) in *. set (w3 := d3 / Ld) in *.
  set (e1 := uy * w3 - uz * w2). set (e2 := uz * w1 - ux * w3).
  set (e3 := ux * w2 - uy * w1).
  assert (He : e1 * e1 + e2 * e2 + e3 * e3 <> 0).
  { assert (E : e1 * e1 + e2 * e2 + e3 * e3
                = (c1 * c1 + c2 * c2 + c3 * c3) / (Ld * Ld))
      by (unfold e1, e2, e3, w1, w2, w3, c1, c2, c3; field; lra).
    rewrite E. intros Hz. apply Hc.
    apply (Rmult_eq_reg_r (/ (Ld * Ld))).
    - rewrite Rmult_0_l. exact Hz.
    - apply Rinv_neq_0_compat. nra. }
  pose proof (norm_pos He) as HLe.
  pose proof (Vec3_normalized_is_unit He) as Hu.
  set (Le := sqrt (e1 * e1 + e2 * e2 + e3 * e3)) in *.
  set (u1 := e1 / Le) in *. set (u2 := e2 / Le) in *. set (u3 := e3 / Le) in *.
  assert (Hcamw : Camera.w cam = Vec3_of_R w1 w2 w3).
  { unfold cam, Camera_new, Camera_initialize. cbn [Camera.w Camera.lookfrom Camera.lookat].
    rewrite Vec3_sub_exact. apply Vec3_normalized_exact. exact Hd. }
  assert (Hcamu : Camera.u cam = Vec3_of_R u1 u2 u3).
  { unfold cam, Camera_new, Camera_initialize.
    cbn [Camera.u Camera.lookfrom Camera.lookat Camera.vup].
    rewrite Vec3_sub_exact.
    change (Vec3_of_R (fx - ax) (fy - ay) (fz - az)) with (Vec3_of_R d1 d2 d3).
    rewrite (Vec3_normalized_exact Hd).
    change (Vec3_normalized (Vec3_cross (Vec3_of_R ux uy uz) (Vec3_of_R w1 w2 w3))
            = Vec3_of_R u1 u2 u3).
    rewrite Vec3_cross_exact. apply Vec3_normalized_exact. exact He. }
  assert (Hcamv : Camera.v cam
                  = Vec3_of_R (w2 * u3 - w3 * u2) (w3 * u1 - w1 * u3)
                              (w1 * u2 - w2 * u1)).
  { unfold cam, Camera_new, Camera_initialize.
    cbn [Camera.v Camera.lookfrom Camera.lookat Camera.vup].
    rewrite Vec3_sub_exact.
    change (Vec3_of_R (fx - ax) (fy - ay) (fz - az)) with (Vec3_of_R d1 d2 d3).
    rewrite (Vec3_normalized_exact Hd).
    change (Vec3_cross (Vec3_of_R w1 w2 w3)
              (Vec3_normalized (Vec3_cross (Vec3_of_R ux uy uz) (Vec3_of_R w1 w2 w3)))
            = Vec3_of_R (w2 * u3 - w3 * u2) (w3 * u1 - w1 * u3) (w1 * u2 - w2 * u1)).
    rewrite Vec3_cross_exact.
    change (Vec3_of_R (uy * w3 - uz * w2) (uz * w1 - ux * w3) (ux * w2 - uy * w1))
      with (Vec3_of_R e1 e2 e3).
    rewrite (Vec3_normalized_exact He). apply Vec3_cross_exact. }
  assert (Huw : u1 * w1 + u2 * w2 + u3 * w3 = 0).
  { unfold u1, u2, u3, e1, e2, e3. field. lra. }
  exists w1, w2, w3, u1, u2, u3,
    (w2 * u3 - w3 * u2), (w3 * u1 - w1 * u3), (w1 * u2 - w2 * u1).
  split; [exact Hcamw|]. split; [exact Hcamu|]. split; [exact Hcamv|].
  split; [exact Hw|]. split; [exact Hu|].
  split.
  { transitivity ((w1 * w1 + w2 * w2 + w3 * w3) * (u1 * u1 + u2 * u2 + u3 * u3)
                  - (u1 * w1 + u2 * w2 + u3 * w3) * (u1 * w1 + u2 * w2 + u3 * w3));
      [ring|rewrite Hw, Hu, Huw; ring]. }
  split; [ring|]. split; [exact Huw|]. split; [ring|].
  split.
  { exists (/ Ld). split; [now apply Rinv_0_lt_compat|].
    unfold w1, w2, w3, Rdiv. repeat split; ring. }
  rewrite Vec3_cross_exact. unfold Vec3_of_R.
  f_equal; f_equal.
  - transitivity (w1 * (u1 * u1 + u2 * u2 + u3 * u3)
                  - u1 * (u1 * w1 + u2 * w2 + u3 * w3)); [ring|].
    rewrite Hu, Huw. ring.
  - transitivity (w2 * (u1 * u1 + u2 * u2 + u3 * u3)
                  - u2 * (u1 * w1 + u2 * w2 + u3 * w3)); [ring|].
    rewrite Hu, Huw. ring.
  - transitivity (w3 * (u1 * u1 + u2 * u2 + u3 * u3)
                  - u3 * (u1 * w1 + u2 * w2 + u3 * w3)); [ring|].
    rewrite Hu, Huw. ring.
Qed.

Lemma etan_quarter_turn :
  ftan (fdiv (degrees_to_radians (Fin 90)) (lit 2)) = Fin 1.
Proof.
  unfold degrees_to_radians. cbn. lits.
  repeat (destruct (Req_dec_T _ _); [exfalso; lra|]; cbn).
  replace (90 * Rtrigo1.PI / (180 * / 1) / (2 * / 1)) with (Rtrigo1.PI / 4) by field.
  rewrite cos_PI4, tan_PI4.
  destruct (Req_dec_T _ _) as [E|_]; [|reflexivity].
  exfalso. pose proof (sqrt_lt_R0 2 ltac:(lra)) as Hs.
  assert (0 < 1 / sqrt 2) by (apply Rdiv_lt_0_compat; lra). lra.
Qed.

(** X28. For real [lookfrom], [lookat] and [vup] with [vup] not parallel
    to [lookfrom - lookat], and whatever [tan] is, the vectors [u], [v],
    [w] of the camera [Camera::new] returns are of length 1 and orthogonal
    to one another, [w] points from [lookat] to [lookfrom], and
    [u x v = w]. *)
Theorem Camera_new_basis_is_orthonormal :
  forall (L : Libm ereal) (aspect_ratio : ereal)
         (image_width samples_per_pixel max_depth : N) (vfov : ereal)
         (fx fy fz ax ay az ux uy uz : R) (defocus_angle focus_dist : ereal),
    let cam := @Camera_new ereal _ L aspect_ratio image_width samples_per_pixel
                           max_depth vfov (Vec3_of_R fx fy fz) (Vec3_of_R ax ay az)
                           (Vec3_of_R ux uy uz) defocus_angle focus_dist in
    let d1 := fx - ax in let d2 := fy - ay in let d3 := fz - az in
    let c1 := uy * d3 - uz * d2 in
    let c2 := uz * d1 - ux * d3 in
    let c3 := ux * d2 - uy * d1 in
    c1 * c1 + c2 * c2 + c3 * c3 <> 0 ->
    exists w1 w2 w3 u1 u2 u3 v1 v2 v3 : R,
      Camera.w cam = Vec3_of_R w1 w2 w3
      /\ Camera.u cam = Vec3_of_R u1 u2 u3
      /\ Camera.v cam = Vec3_of_R v1 v2 v3
      /\ w1 * w1 + w2 * w2 + w3 * w3 = 1
      /\ u1 * u1 + u2 * u2 + u3 * u3 = 1
      /\ v1 * v1 + v2 * v2 + v3 * v3 = 1
      /\ u1 * v1 + u2 * v2 + u3 * v3 = 0
      /\ u1 * w1 + u2 * w2 + u3 * w3 = 0
      /\ v1 * w1 + v2 * w2 + v3 * w3 = 0
      /\ (exists k, 0 < k /\ w1 = k * d1 /\ w2 = k * d2 /\ w3 = k * d3)
      /\ Vec3_cross (Vec3_of_R u1 u2 u3) (Vec3_of_R v1 v2 v3) = Vec3_of_R w1 w2 w3.
Proof.
  intros L aspect_ratio image_width samples_per_pixel max_depth vfov
    fx fy fz ax ay az ux uy uz defocus_angle focus_dist.
  apply Camera_new_basis.
Qed.

(** The pinhole camera: at the origin, looking at [(0, 0, -1)], with
    [vup = (0, 1, 0)]. *)
Lemma Camera_new_basis_is_orthonormal_witness :
  exists w1 w2 w3 u1 u2 u3 v1 v2 v3 : R,
    Camera.w pinhole_camera = Vec3_of_R w1 w2 w3
    /\ Camera.u pinhole_camera = Vec3_of_R u1 u2 u3
    /\ Camera.v pinhole_camera = Vec3_of_R v1 v2 v3
    /\ w1 * w1 + w2 * w2 + w3 * w3 = 1
    /\ u1 * u1 + u2 * u2 + u3 * u3 = 1
    /\ v1 * v1 + v2 * v2 + v3 * v3 = 1
    /\ u1 * v1 + u2 * v2 + u3 * v3 = 0
    /\ u1 * w1 + u2 * w2 + u3 * w3 = 0
    /\ v1 * w1 + v2 * w2 + v3 * w3 = 0
    /\ (exists k, 0 < k /\ w1 = k * (0 - 0) /\ w2 = k * (0 - 0) /\ w3 = k * (0 - -1))
    /\ Vec3_cross (Vec3_of_R u1 u2 u3) (Vec3_of_R v1 v2 v3) = Vec3_of_R w1 w2 w3.
Proof.
  apply (@Camera_new_basis_is_orthonormal ereal_libm (Fin 1) 2 1 1 (Fin 90)
           0 0 0 0 0 (-1) 0 1 0 (Fin 0) (Fin 1)).
  lra.
Defined.

(** X29. Under the same conditions, for a real focus distance, a
    non-zero image width and a field of view whose half-angle has a real
    tangent [h]: the pixels are squares of side [2 h focus_dist /
    image_height] along [u] and [-v], and the centre of the image,
    [pixel00_loc + (width - 1) / 2 pixel_delta_u + (height - 1) / 2
    pixel_delta_v], is the point [lookfrom - focus_dist w] on the line of
    sight. *)
Theorem Camera_new_viewport_is_centred :
  forall (L : Libm ereal) (aspect_ratio : ereal)
         (image_width samples_per_pixel max_depth : N) (vfov : ereal)
         (fx fy fz ax ay az ux uy uz : R) (defocus_angle : ereal) (fd h : R),
    let cam := @Camera_new ereal _ L aspect_ratio image_width samples_per_pixel
                           max_depth vfov (Vec3_of_R fx fy fz) (Vec3_of_R ax ay az)
                           (Vec3_of_R ux uy uz) defocus_angle (Fin fd) in
    let d1 := fx - ax in let d2 := fy - ay in let d3 := fz - az in
    let c1 := uy * d3 - uz * d2 in
    let c2 := uz * d1 - ux * d3 in
    let c3 := ux * d2 - uy * d1 in
    let width := IZR (Z.of_N image_width) in
    let height := IZR (Z.of_N (Camera.image_height cam)) in
    let side := 2 * h * fd / height in
    c1 * c1 + c2 * c2 + c3 * c3 <> 0 ->
    image_width <> 0%N ->
    ftan (fdiv (degrees_to_radians vfov) (lit 2)) = Fin h ->
    exists w1 w2 w3 u1 u2 u3 v1 v2 v3 : R,
      Camera.w cam = Vec3_of_R w1 w2 w3
      /\ Camera.u cam = Vec3_of_R u1 u2 u3
      /\ Camera.v cam = Vec3_of_R v1 v2 v3
      /\ Camera.pixel_delta_u cam = Vec3_of_R (side * u1) (side * u2) (side * u3)
      /\ Camera.pixel_delta_v cam
         = Vec3_of_R (- side * v1) (- side * v2) (- side * v3)
      /\ Vec3_add
           (Vec3_add (Camera.pixel00_loc cam)
              (f64_mul_Vec3 (Fin ((width - 1) / 2)) (Camera.pixel_delta_u cam)))
           (f64_mul_Vec3 (Fin ((height - 1) / 2)) (Camera.pixel_delta_v cam))
         = Vec3_of_R (fx - fd * w1) (fy - fd * w2) (fz - fd * w3).
Proof.
  intros L aspect_ratio image_width samples_per_pixel max_depth vfov
    fx fy fz ax ay az ux uy uz defocus_angle fd h cam d1 d2 d3 c1 c2 c3
    width height side Hc Hwidth Htan.
  destruct (@Camera_new_basis L aspect_ratio image_width samples_per_pixel
              max_depth vfov fx fy fz ax ay az ux uy uz defocus_angle (Fin fd) Hc)
    as (w1 & w2 & w3 & u1 & u2 & u3 & v1 & v2 & v3 & Hw & Hu & Hv & _).
  fold cam in Hw, Hu, Hv.
  assert (Hh1 : 1 <= height).
  { unfold height. apply IZR_le.
    pose proof (proj1 (@Camera_new_image_height_bounds L aspect_ratio image_width
                  samples_per_pixel max_depth vfov (Vec3_of_R fx fy fz)
                  (Vec3_of_R ax ay az) (Vec3_of_R ux uy uz) defocus_angle (Fin fd))).
    fold cam in H. lia. }
  assert (Hw1 : 1 <= width) by (unfold width; apply IZR_le; lia).
  exists w1, w2, w3, u1, u2, u3, v1, v2, v3.
  split; [exact Hw|]. split; [exact Hu|]. split; [exact Hv|].
  assert (Hdu : Camera.pixel_delta_u cam
                = Vec3_of_R (side * u1) (side * u2) (side * u3)).
  { change (Camera.pixel_delta_u cam)
      with (Vec3_div
              (f64_mul_Vec3
                 (fmul (fmul (fmul (lit 2)
                                (ftan (fdiv (degrees_to_radians vfov) (lit 2))))
                          (Fin fd))
                       (fdiv (u32_as_f64 image_width)
                             (u32_as_f64 (Camera.image_height cam))))
                 (Camera.u cam))
              (u32_as_f64 image_width)).
    rewrite Htan, Hu, !u32_as_f64_exact. fold width height.
    vec_unfold. cbn. lits.
    repeat (destruct (Req_dec_T _ _); [exfalso; lra|]; cbn).
    unfold Vec3_of_R, side. f_equal; f_equal; field; lra. }
  assert (Hdv : Camera.pixel_delta_v cam
                = Vec3_of_R (- side * v1) (- side * v2) (- side * v3)).
  { change (Camera.pixel_delta_v cam)
      with (Vec3_div
              (f64_mul_Vec3
                 (fmul (fmul (lit 2)
                          (ftan (fdiv (degrees_to_radians vfov) (lit 2))))
                       (Fin fd))
                 (Vec3_neg (Camera.v cam)))
              (u32_as_f64 (Camera.image_height cam))).
    rewrite Htan, Hv, !u32_as_f64_exact. fold height.
    vec_unfold. cbn. lits.
    repeat (destruct (Req_dec_T _ _); [exfalso; lra|]; cbn).
    unfold Vec3_of_R, side. f_equal; f_equal; field; lra. }
  split; [exact Hdu|]. split; [exact Hdv|].
  change (Camera.pixel00_loc cam)
    with (Vec3_add
            (Vec3_sub
               (Vec3_sub
                  (Vec3_sub (Vec3_of_R fx fy fz)
                            (f64_mul_Vec3 (Fin fd) (Camera.w cam)))
                  (Vec3_div
                     (f64_mul_Vec3
                        (fmul (fmul (fmul (lit 2)
                                       (ftan (fdiv (degrees_to_radians vfov) (lit 2))))
                                 (Fin fd))
                              (fdiv (u32_as_f64 image_width)
                                    (u32_as_f64 (Camera.image_height cam))))
                        (Camera.u cam))
                     (lit 2)))
               (Vec3_div
                  (f64_mul_Vec3
                     (fmul (fmul (lit 2)
                              (ftan (fdiv (degrees_to_radians vfov) (lit 2))))
                           (Fin fd))
                     (Vec3_neg (Camera.v cam)))
                  (lit 2)))
            (f64_mul_Vec3 (lit 0.5)
               (Vec3_add (Camera.pixel_delta_u cam) (Camera.pixel_delta_v cam)))).
  rewrite Hdu, Hdv, Htan, Hu, Hv, Hw, !u32_as_f64_exact. fold width height.
  vec_unfold. cbn. lits.
  repeat (destruct (Req_dec_T _ _); [exfalso; lra|]; cbn).
  unfold Vec3_of_R, side. f_equal; f_equal; field; lra.
Qed.

(** The pinhole camera: a field of view of 90 degrees, [h = 1]. *)
Lemma Camera_new_viewport_is_centred_witness :
  exists w1 w2 w3 u1 u2 u3 v1 v2 v3 : R,
    Camera.w pinhole_camera = Vec3_of_R w1 w2 w3
    /\ Camera.u pinhole_camera = Vec3_of_R u1 u2 u3
    /\ Camera.v pinhole_camera = Vec3_of_R v1 v2 v3
    /\ Camera.pixel_delta_u pinhole_camera
       = Vec3_of_R
           (2 * 1 * 1 / IZR (Z.of_N (Camera.image_height pinhole_camera)) * u1)
           (2 * 1 * 1 / IZR (Z.of_N (Camera.image_height pinhole_camera)) * u2)
           (2 * 1 * 1 / IZR (Z.of_N (Camera.image_height pinhole_camera)) * u3)
    /\ Camera.pixel_delta_v pinhole_camera
       = Vec3_of_R
           (- (2 * 1 * 1 / IZR (Z.of_N (Camera.image_height pinhole_camera))) * v1)
           (- (2 * 1 * 1 / IZR (Z.of_N (Camera.image_height pinhole_camera))) * v2)
           (- (2 * 1 * 1 / IZR (Z.of_N (Camera.image_height pinhole_camera))) * v3)
    /\ Vec3_add
         (Vec3_add (Camera.pixel00_loc pinhole_camera)
            (f64_mul_Vec3 (Fin ((IZR (Z.of_N 2) - 1) / 2))
                          (Camera.pixel_delta_u pinhole_camera)))
         (f64_mul_Vec3
            (Fin ((IZR (Z.of_N (Camera.image_height pinhole_camera)) - 1) / 2))
            (Camera.pixel_delta_v pinhole_camera))
       = Vec3_of_R (0 - 1 * w1) (0 - 1 * w2) (0 - 1 * w3).
Proof.
  exact (@Camera_new_viewport_is_centred ereal_libm (Fin 1) 2 1 1 (Fin 90)
           0 0 0 0 0 (-1) 0 1 0 (Fin 0) 1 1
           ltac:(lra) ltac:(discriminate) etan_quarter_turn).
Defined.

(** *** camera.rs: [render] *)

Lemma string_app_assoc (s1 s2 s3 : string) :
  ((s1 ++ s2) ++ s3 = s1 ++ (s2 ++ s3))%string.
Proof. induction s1 as [|c s1 IH]; cbn; [reflexivity|now rewrite IH]. Qed.

Lemma string_app_nil_r (s : string) : (s ++ "" = s)%string.
Proof. induction s as [|c s IH]; cbn; [reflexivity|now rewrite IH]. Qed.

Lemma count_newlines_app (s1 s2 : string) :
  count_newlines (s1 ++ s2) = (count_newlines s1 + count_newlines s2)%nat.
Proof.
  induction s1 as [|c s1 IH]; cbn [append count_newlines]; [reflexivity|].
  rewrite IH. lia.
Qed.

Lemma count_newlines_digits (d : Decimal.uint) :
  count_newlines (DecimalString.NilZero.string_of_uint d) = 0%nat.
Proof.
  assert (He : forall d', count_newlines (DecimalString.NilEmpty.string_of_uint d') = 0%nat)
    by (induction d' as [|d' IH|d' IH|d' IH|d' IH|d' IH|d' IH|d' IH|d' IH|d' IH|d' IH];
        cbn; auto).
  destruct d; try apply He. reflexivity.
Qed.

Lemma count_newlines_newline (s : string) :
  count_newlines (String (Ascii.ascii_of_nat 10) s) = S (count_newlines s).
Proof. reflexivity. Qed.

Lemma count_newlines_other (c : Ascii.ascii) (s : string) :
  Ascii.eqb c (Ascii.ascii_of_nat 10) = false ->
  count_newlines (String c s) = count_newlines s.
Proof. intros Hc. cbn [count_newlines]. now rewrite Hc. Qed.

Section RenderText.
Context {f64 : Type} `{Scalar f64}.

Local Open Scope f64_scope.

Lemma write_color_app (out : string) (pixel_color : Vec3.Self f64) :
  write_color out pixel_color = (out ++ write_color "" pixel_color)%string.
Proof.
  unfold write_color. destruct (write_color_bytes pixel_color) as [[r g] b].
  reflexivity.
Qed.

Lemma count_newlines_write_color (pixel_color : Vec3.Self f64) :
  count_newlines (write_color "" pixel_color) = 1%nat.
Proof.
  unfold write_color. destruct (write_color_bytes pixel_color) as [[r g] b].
  unfold u8_to_string. cbn [append].
  repeat first
    [ rewrite count_newlines_other by reflexivity
    | rewrite count_newlines_app
    | rewrite count_newlines_digits ].
  reflexivity.
Qed.

Lemma fold_write_color (pixel_colors : list (Vec3.Self f64)) :
  forall out : string,
    fold_left write_color pixel_colors out
    = (out ++ String.concat "" (map (write_color "") pixel_colors))%string.
Proof.
  induction pixel_colors as [|c l IH]; intros out; cbn [fold_left map].
  - cbn. now rewrite string_app_nil_r.
  - rewrite IH, write_color_app, string_app_assoc. f_equal.
    destruct l as [|c' l']; [cbn; now rewrite string_app_nil_r|reflexivity].
Qed.

Lemma count_newlines_lines (pixel_colors : list (Vec3.Self f64)) :
  count_newlines (String.concat "" (map (write_color "") pixel_colors))
  = length pixel_colors.
Proof.
  induction pixel_colors as [|c l IH]; [reflexivity|].
  cbn [map length].
  destruct l as [|c' l']; [cbn [String.concat]; apply count_newlines_write_color|].
  change (String.concat "" (write_color "" c :: map (write_color "") (c' :: l')))
    with (write_color "" c ++ "" ++ String.concat "" (map (write_color "") (c' :: l')))%string.
  rewrite !count_newlines_app, count_newlines_write_color, IH. reflexivity.
Qed.
End RenderText.

Lemma collect_seq (A : Type) (f : nat -> option A) (n : nat) :
  forall (start : nat) (l : list A),
    collect (map f (seq start n)) = Some l ->
    length l = n
    /\ forall k, (k < n)%nat -> f (start + k)%nat = nth_error l k.
Proof.
  induction n as [|n IH]; intros start l; cbn [seq map collect].
  - intros [= <-]. split; [reflexivity|]. intros k Hk. lia.
  - destruct (f start) as [a|] eqn:Ea; [|discriminate].
    destruct (collect (map f (seq (S start) n))) as [l'|] eqn:El; [|discriminate].
    intros [= <-]. destruct (IH _ _ El) as [Hlen Hnth].
    split; [cbn; now rewrite Hlen|].
    intros [|k] Hk; cbn [nth_error].
    + now rewrite Nat.add_0_r.
    + rewrite <- Hnth by lia. f_equal. lia.
Qed.

(** X30. In every number model, when [render] returns, its output is
    the header [P3], [width height], [255] followed by one [write_color]
    line per pixel and nothing else, [3 + width * height] lines in all; and
    the line of index [j * width + i] is that of the pixel of column [i]
    and row [j]: the sum of [samples_per_pixel] calls of [ray_color] on
    [get_ray(i, j)], scaled by [pixel_sample_scale]. *)
Theorem Camera_render_writes_one_line_per_pixel :
  forall (f64 : Type) (S : Scalar f64) (W : Type) (world_hit : Hittable W)
         (self : Camera.Self f64) (world : W) (draws : N -> Rng f64)
         (out : string),
    Camera_render self world draws = Some out ->
    exists pixel_colors : list (Vec3.Self f64),
      length pixel_colors
      = N.to_nat (Camera.image_width self * Camera.image_height self)
      /\ (forall i j : N,
             (i < Camera.image_width self)%N ->
             (j < Camera.image_height self)%N ->
             exists accumulated_color rng',
               Camera_render_samples self world i j
                 (N.to_nat (Camera.samples_per_pixel self)) Vec3_zero
                 (draws (j * Camera.image_width self + i)%N)
               = Some (accumulated_color, rng')
               /\ nth_error pixel_colors
                            (N.to_nat (j * Camera.image_width self + i))
                  = Some (Vec3_mul_f64 accumulated_color
                                       (Camera.pixel_sample_scale self)))
      /\ out
         = ("P3" ++ String (Ascii.ascii_of_nat 10) ""
            ++ u32_to_string (Camera.image_width self) ++ " "
            ++ u32_to_string (Camera.image_height self)
            ++ String (Ascii.ascii_of_nat 10) ""
            ++ "255" ++ String (Ascii.ascii_of_nat 10) ""
            ++ String.concat "" (map (write_color "") pixel_colors))%string
      /\ count_newlines out
         = (3 + N.to_nat (Camera.image_width self * Camera.image_height self))%nat.
Proof.
  intros f64 S W world_hit self world draws out. unfold Camera_render, u32_mul.
  set (width := Camera.image_width self). set (height := Camera.image_height self).
  destruct (N.ltb_spec (width * height) 4294967296) as [Hfit|]; [|discriminate].
  destruct (collect _) as [pixel_colors|] eqn:Hcollect; [|discriminate].
  intros [= <-]. exists pixel_colors.
  apply collect_seq in Hcollect. destruct Hcollect as [Hlen Hnth].
  split; [exact Hlen|]. split; [|split].
  - intros i j Hi Hj.
    assert (Hidx : (j * width + i < width * height)%N) by nia.
    specialize (Hnth (N.to_nat (j * width + i)) ltac:(lia)).
    cbn [Nat.add] in Hnth. rewrite N2Nat.id in Hnth.
    unfold Camera_render_pixel in Hnth. fold width in Hnth.
    assert (Ei : usize_as_u32 ((j * width + i) mod width) = i).
    { unfold usize_as_u32.
      replace ((j * width + i) mod width)%N with i
        by (symmetry; rewrite N.add_comm, N.Div0.mod_add; apply N.mod_small; exact Hi).
      apply N.mod_small. lia. }
    assert (Ej : usize_as_u32 ((j * width + i) / width) = j).
    { unfold usize_as_u32.
      replace ((j * width + i) / width)%N with j
        by (symmetry; rewrite N.add_comm, N.div_add by lia;
            rewrite N.div_small by exact Hi; reflexivity).
      apply N.mod_small. nia. }
    rewrite Ei, Ej in Hnth. unfold bind in Hnth.
    destruct (Camera_render_samples self world i j _ Vec3_zero _)
      as [[accumulated_color rng']|].
    + exists accumulated_color, rng'. split; [reflexivity|].
      symmetry. exact Hnth.
    + symmetry in Hnth. apply nth_error_None in Hnth. lia.
  - unfold Camera_render_write. rewrite fold_write_color.
    repeat (rewrite ?string_app_assoc; cbn [append]). reflexivity.
  - unfold Camera_render_write. rewrite fold_write_color.
    repeat (rewrite ?string_app_assoc; cbn [append]). unfold u32_to_string.
    repeat first
      [ rewrite count_newlines_newline
      | rewrite count_newlines_other by reflexivity
      | rewrite count_newlines_app
      | rewrite count_newlines_digits ].
    rewrite count_newlines_lines, Hlen. reflexivity.
Qed.

(** In binary64, the camera of one pixel over the empty scene. *)
Lemma Camera_render_writes_one_line_per_pixel_witness :
  exists out : string,
    Camera_render one_pixel_camera (@HittableList_new PrimFloat.float)
                  (fun _ => []%list)
    = Some out
    /\ count_newlines out = 4%nat.
Proof.
  destruct (Camera_render one_pixel_camera (@HittableList_new PrimFloat.float)
                          (fun _ => []%list)) as [out|] eqn:E;
    [|vm_compute in E; discriminate].
  exists out. split; [reflexivity|].
  destruct (@Camera_render_writes_one_line_per_pixel _ _ _ _ _ _ _ _ E)
    as (pixel_colors & _ & _ & _ & Hcount).
  exact Hcount.
Defined.

(** ** Runs in binary64

    The same functions at the instance [float_scalar], evaluated. *)

Example reflect_binary64 :
  Vec3_reflect (Vec3.new (lit 1) (lit 2) (lit 3))
               (Vec3.new (lit 0) (lit 0) (lit 1) : Vec3.Self PrimFloat.float)
  = Vec3.new (lit 1) (lit 2) (lit (-3))
  /\ Vec3_dot (Vec3_reflect (Vec3.new (lit 1) (lit 2) (lit 3))
                            (Vec3.new (lit 0) (lit 0) (lit 1)))
              (Vec3.new (lit 0) (lit 0) (lit 1) : Vec3.Self PrimFloat.float)
     = lit (-3).
Proof. split; vm_compute; reflexivity. Qed.

(** A metal of fuzz 1 hit at grazing incidence: the draw [(0, 0, -1)]
    sends the scattered ray below the surface, and it is returned. *)
Example Metal_scatter_below_surface_binary64 :
  Metal_scatter (Metal.new (Vec3.new (lit 0.8) (lit 0.6) (lit 0.2)) (lit 1))
                (Ray.new (Vec3.new (lit 0) (lit 0) (lit 0))
                         (Vec3.new (lit 1) (lit 0) (lit 0)))
                (HitRecord.mk (Vec3.new (lit 1) (lit 0) (lit 0))
                              (Vec3.new (lit 0) (lit 0) (lit 1)) (lit 1)
                              NullMaterial true)
                [lit 0.5; lit 0.5; lit 0.25 : PrimFloat.float]
  = Some (Some (Ray.new (Vec3.new (lit 1) (lit 0) (lit 0))
                        (Vec3.new (lit 1) (lit 0) (lit (-1))),
                Vec3.new (lit 0.8) (lit 0.6) (lit 0.2)), []).
Proof. vm_compute. reflexivity. Qed.

Example Sphere_hit_binary64 :
  Sphere_hit (Sphere.new (Vec3.new (lit 0) (lit 0) (lit (-3))) (lit 1)
                         (@NullMaterial PrimFloat.float))
             (Ray.new (Vec3.new (lit 0) (lit 0) (lit 0))
                      (Vec3.new (lit 0) (lit 0) (lit (-1))))
             (Interval.new (lit 0.001) INFINITY)
  = Some (HitRecord.mk (Vec3.new (lit 0) (lit 0) (lit (-2)))
                       (Vec3.new (lit 0) (lit 0) (lit 1)) (lit 2)
                       NullMaterial true)
  /\ Sphere_hit (Sphere.new (Vec3.new (lit 0) (lit 0) (lit (-3))) (lit 1)
                            (@NullMaterial PrimFloat.float))
                (Ray.new (Vec3.new (lit 0) (lit 0) (lit 0))
                         (Vec3.new (lit 0) (lit 1) (lit 0)))
                (Interval.new (lit 0.001) INFINITY)
     = None
  /\ Sphere_hit (Sphere.new (Vec3.new (lit 0) (lit 0) (lit (-3))) (lit 1)
                            (@NullMaterial PrimFloat.float))
                (Ray.new (Vec3.new (lit 0) (lit 0) (lit 0))
                         (Vec3.new (lit 0) (lit 0) (lit (-1))))
                (Interval.new (lit 0.001) (lit 2))
     = None.
Proof. repeat split; vm_compute; reflexivity. Qed.

Example write_color_binary64 :
  write_color "" (Vec3.new (lit 1) (lit 0.25) (lit 0) : Vec3.Self PrimFloat.float)
  = ("255 127 0" ++ String (Ascii.ascii_of_nat 10) "")%string.
Proof. vm_compute. reflexivity. Qed.

(** The background of [ray_color]: straight up is the sky colour, and
    straight down is white. *)
Example ray_color_background_binary64 :
  forall self : Camera.Self PrimFloat.float,
    Camera_ray_color self
      (Ray.new (Vec3.new (lit 0) (lit 0) (lit 0)) (Vec3.new (lit 0) (lit 1) (lit 0)))
      3 (HittableList.mk []) []
    = Some (Vec3.new (lit 0.5) (lit 0.7) (lit 1), [])
    /\ Camera_ray_color self
         (Ray.new (Vec3.new (lit 0) (lit 0) (lit 0)) (Vec3.new (lit 0) (lit (-1)) (lit 0)))
         3 (HittableList.mk []) []
       = Some (Vec3.new (lit 1) (lit 1) (lit 1), []).
Proof. intros self. split; vm_compute; reflexivity. Qed.

(** The image of one pixel over the empty scene: the sky straight
    ahead. *)
Example render_one_pixel_binary64 :
  Camera_render one_pixel_camera (@HittableList_new PrimFloat.float)
                (fun _ => [])
  = Some ("P3" ++ String (Ascii.ascii_of_nat 10) ""
          ++ "1 1" ++ String (Ascii.ascii_of_nat 10) ""
          ++ "255" ++ String (Ascii.ascii_of_nat 10) ""
          ++ "221 236 255" ++ String (Ascii.ascii_of_nat 10) "")%string.
Proof. vm_compute. reflexivity. Qed.
